(** * PlaTec plate engine: a shallow embedding of [plate.cpp]

    The plate of the tectonics simulator is a record of scalars and rasters;
    every member function of [plate] becomes a function on that record.

    Conventions of the embedding.
    - [size_t] is a 64-bit unsigned integer: a [Z] in [0, 2^64), with the
      wrap-around of subtraction and negation written out ([sz], [mask]).
    - [float] values are rationals ([Q]) and the four arithmetic operations
      are exact; equality of floats is [Qeq].  Rounding is not modelled.
    - The C library ([sqrt], [cos], [sin], [M_PI]) and the Mersenne twister
      of the C++ library are parameters of the development ([Platform]).
    - A failed [assert], and an access outside a buffer, end the call with
      [None]; a C++ exception of the constructor is a constructor of
      [outcome]. *)

From Stdlib Require Import ZArith QArith Qround Qminmax Lia Lqa Bool.
From stdpp Require Import base option list numbers.

Local Open Scope Z_scope.

(** ** size_t arithmetic *)

Definition SIZE_MAX : Z := 2 ^ 64 - 1.

(** Reduction of an integer to the range of [size_t]. *)
Definition sz (z : Z) : Z := z mod 2 ^ 64.

(** The idiom [-(cond)]: all ones when [cond] holds, zero otherwise. *)
Definition mask (b : bool) : Z := sz (- Z.b2z b).

(** Conversions between [float] and the integer types (truncation towards
    zero); a [bool] used as a number. *)
Definition float_to_int (q : Q) : Z := Z.quot (Qnum q) (Zpos (Qden q)).
Definition float_to_size (q : Q) : Z := sz (float_to_int q).
Definition b2q (b : bool) : Q := inject_Z (Z.b2z b).

Definition Qltb (a b : Q) : bool := negb (Qle_bool b a).

(** ** The platform: C math library and the random generator's seeding *)

Class Platform := {
  sqrt : Q -> Q;
  cos : Q -> Q;
  sin : Q -> Q;
  M_PI : Q;
  (** [mt19937_seed s n]: the [n]-th output of [std::mt19937] seeded with [s]. *)
  mt19937_seed : Z -> nat -> Z
}.

(** The generator held by a plate: its output sequence and how many values
    have been drawn. *)
Record mt19937 := { draws : nat -> Z; drawn : nat }.

Definition rand_max : Z := 2 ^ 32 - 1.

(** [_randsource()] : the next 32-bit value and the advanced generator. *)
Definition rand_next (g : mt19937) : Z * mt19937 :=
  (draws g (drawn g) mod 2 ^ 32, {| draws := draws g; drawn := S (drawn g) |}).

(** ** World dimension, rectangles and continent descriptors *)

(** Modelled from the spec: [WorldDimension] of rectangle.hpp, the immutable
    pair (W, H) with [wrapX(x) = ((x mod W) + W) mod W], [wrapY] alike and
    [contains]. *)
Record WorldDimension := { getWidth : Z; getHeight : Z }.

Definition wrapX (wd : WorldDimension) (x : Z) : Z :=
  ((x mod getWidth wd) + getWidth wd) mod getWidth wd.
Definition wrapY (wd : WorldDimension) (y : Z) : Z :=
  ((y mod getHeight wd) + getHeight wd) mod getHeight wd.

(** Modelled from the spec: [WorldDimension::normalize], which brings a world
    coordinate into [0,W) x [0,H) with [wrapX] and [wrapY]. *)
Definition normalize (wd : WorldDimension) (x y : Z) : Z * Z :=
  (wrapX wd x, wrapY wd y).

(** Modelled from the spec: [WorldDimension::contains], the point lies in
    [0,W) x [0,H). *)
Definition world_contains (wd : WorldDimension) (x y : Q) : bool :=
  Qle_bool 0 x && Qltb x (inject_Z (getWidth wd)) &&
  Qle_bool 0 y && Qltb y (inject_Z (getHeight wd)).

(** Modelled from the spec: [Rectangle] of rectangle.hpp, a rectangle in world
    space given by its sides, possibly crossing the seam. *)
Record Rectangle := {
  r_world : WorldDimension;
  r_left : Z; r_right : Z; r_top : Z; r_bottom : Z
}.

(** Modelled from the spec: [Rectangle::getMapIndex], which "given a rectangle
    in world space (possibly crossing the seam) and a mutable world coordinate,
    returns either the row-major index within that rectangle and mutates the
    coordinates to rectangle-local form, or an out-of-range sentinel (the
    maximum representable integer)".  The result is the index with the
    coordinates as the call leaves them. *)
Definition Rectangle_getMapIndex (r : Rectangle) (px py : Z) : Z * Z * Z :=
  let W := getWidth (r_world r) in
  let H := getHeight (r_world r) in
  let w := r_right r - r_left r in
  let h := r_bottom r - r_top r in
  let x := (wrapX (r_world r) px - r_left r) mod W in
  let y := (wrapY (r_world r) py - r_top r) mod H in
  if (x <? w) && (y <? h) then (sz (y * w + x), x, y) else (SIZE_MAX, px, py).

(** Modelled from the spec: [segmentData] of plate.hpp, the continent
    descriptor: bounding box (x0,y0)-(x1,y1) in plate-local coordinates,
    [area] (0 means tombstone) and [coll_count]. *)
Record segmentData := {
  x0 : Z; y0 : Z; x1 : Z; y1 : Z;
  area : Z;
  coll_count : Z
}.

Definition getLeft (d : segmentData) : Z := x0 d.
Definition getRight (d : segmentData) : Z := x1 d.
Definition getTop (d : segmentData) : Z := y0 d.
Definition getBottom (d : segmentData) : Z := y1 d.

(** Modelled from the spec: [isEmpty()] returns [area == 0]. *)
Definition isEmpty (d : segmentData) : bool := area d =? 0.

(** Modelled from the spec: [enlarge_to_contain(x,y)] grows the descriptor's
    bounding box monotonically so that it holds (x,y). *)
Definition enlarge_to_contain (d : segmentData) (x y : Z) : segmentData :=
  {| x0 := Z.min (x0 d) x; y0 := Z.min (y0 d) y;
     x1 := Z.max (x1 d) x; y1 := Z.max (y1 d) y;
     area := area d; coll_count := coll_count d |}.

(** Modelled from the spec: [shift(dx,dy)] translates the box by (dx,dy). *)
Definition shift (d : segmentData) (dx dy : Z) : segmentData :=
  {| x0 := sz (x0 d + dx); y0 := sz (y0 d + dy);
     x1 := sz (x1 d + dx); y1 := sz (y1 d + dy);
     area := area d; coll_count := coll_count d |}.

Definition set_area (d : segmentData) (a : Z) : segmentData :=
  {| x0 := x0 d; y0 := y0 d; x1 := x1 d; y1 := y1 d;
     area := a; coll_count := coll_count d |}.

Definition box_contains (d : segmentData) (x y : Z) : Prop :=
  x0 d <= x <= x1 d /\ y0 d <= y <= y1 d.

(** ** Buffers *)

(** [a[i]] and [a[i] = v] on a buffer; outside the buffer there is no value. *)
Definition rd {A} (a : list A) (i : Z) : option A :=
  if (0 <=? i) then a !! Z.to_nat i else None.

Definition wr {A} (a : list A) (i : Z) (v : A) : option (list A) :=
  if (0 <=? i) && (i <? Z.of_nat (length a))
  then Some (<[Z.to_nat i := v]> a) else None.

(** A loop over the elements of [l], threading the state, that stops at the
    first failure. *)
Fixpoint for_each {S A} (body : S -> A -> option S) (l : list A) (s : S)
  : option S :=
  match l with
  | [] => Some s
  | a :: l' => s' ← body s a; for_each body l' s'
  end.

(** The cells of a [w] x [h] raster in row-major order, as (x, y). *)
Definition cells (w h : Z) : list (Z * Z) :=
  y ← seqZ 0 h; (fun x => (x, y)) <$> seqZ 0 w.

(** Sum of a raster. *)
Definition Qsum (l : list Q) : Q := foldr Qplus 0%Q l.

(** ** The plate *)

Record plate := {
  _randsource : mt19937;
  width : Z; height : Z;
  mass : Q; left : Q; top : Q;
  cx : Q; cy : Q; dx : Q; dy : Q;
  vx : Q; vy : Q; velocity : Q; rot_dir : Q;
  map : list Q;
  age_map : list Z;
  segment : list Z;
  seg_data : list segmentData;
  _worldDimension : WorldDimension
}.

(** The raster part of a plate and the scalars next to it, replaced together
    (as [setCrust] and [erode] do). *)
Definition with_rasters (p : plate) (m : list Q) (a : list Z) (s : list Z)
    (sd : list segmentData) (ms : Q) : plate :=
  {| _randsource := _randsource p; width := width p; height := height p;
     mass := ms; left := left p; top := top p;
     cx := cx p; cy := cy p; dx := dx p; dy := dy p;
     vx := vx p; vy := vy p; velocity := velocity p; rot_dir := rot_dir p;
     map := m; age_map := a; segment := s; seg_data := sd;
     _worldDimension := _worldDimension p |}.

Definition with_geometry (p : plate) (l t : Q) (w h : Z) : plate :=
  {| _randsource := _randsource p; width := w; height := h;
     mass := mass p; left := l; top := t;
     cx := cx p; cy := cy p; dx := dx p; dy := dy p;
     vx := vx p; vy := vy p; velocity := velocity p; rot_dir := rot_dir p;
     map := map p; age_map := age_map p; segment := segment p;
     seg_data := seg_data p; _worldDimension := _worldDimension p |}.

Definition with_impulse (p : plate) (ddx ddy : Q) : plate :=
  {| _randsource := _randsource p; width := width p; height := height p;
     mass := mass p; left := left p; top := top p;
     cx := cx p; cy := cy p; dx := ddx; dy := ddy;
     vx := vx p; vy := vy p; velocity := velocity p; rot_dir := rot_dir p;
     map := map p; age_map := age_map p; segment := segment p;
     seg_data := seg_data p; _worldDimension := _worldDimension p |}.

Definition with_motion (p : plate) (l t vx' vy' vel : Q) : plate :=
  {| _randsource := _randsource p; width := width p; height := height p;
     mass := mass p; left := l; top := t;
     cx := cx p; cy := cy p; dx := dx p; dy := dy p;
     vx := vx'; vy := vy'; velocity := vel; rot_dir := rot_dir p;
     map := map p; age_map := age_map p; segment := segment p;
     seg_data := seg_data p; _worldDimension := _worldDimension p |}.

Definition with_centre (p : plate) (x y : Q) : plate :=
  {| _randsource := _randsource p; width := width p; height := height p;
     mass := mass p; left := left p; top := top p;
     cx := x; cy := y; dx := dx p; dy := dy p;
     vx := vx p; vy := vy p; velocity := velocity p; rot_dir := rot_dir p;
     map := map p; age_map := age_map p; segment := segment p;
     seg_data := seg_data p; _worldDimension := _worldDimension p |}.

Definition with_randsource (p : plate) (g : mt19937) : plate :=
  {| _randsource := g; width := width p; height := height p;
     mass := mass p; left := left p; top := top p;
     cx := cx p; cy := cy p; dx := dx p; dy := dy p;
     vx := vx p; vy := vy p; velocity := velocity p; rot_dir := rot_dir p;
     map := map p; age_map := age_map p; segment := segment p;
     seg_data := seg_data p; _worldDimension := _worldDimension p |}.

(** [plate::getMapIndex]: the local index of a world coordinate, with the
    coordinates as the call leaves them. *)
Definition getMapIndex (p : plate) (px py : Z) : Z * Z * Z :=
  let ilft := sz (float_to_int (left p)) in
  let itop := sz (float_to_int (top p)) in
  let irgt := sz (ilft + width p) in
  let ibtm := sz (itop + height p) in
  Rectangle_getMapIndex
    {| r_world := _worldDimension p;
       r_left := ilft; r_right := irgt; r_top := itop; r_bottom := ibtm |}
    px py.

(** [plate::xMod], [plate::yMod]. *)
Definition xMod (p : plate) (x : Z) : Z :=
  sz (x + getWidth (_worldDimension p)) mod getWidth (_worldDimension p).
Definition yMod (p : plate) (y : Z) : Z :=
  sz (y + getHeight (_worldDimension p)) mod getHeight (_worldDimension p).

(** [plate::getCrust]. *)
Definition getCrust (p : plate) (x y : Z) : option Q :=
  let '(index, _, _) := getMapIndex p x y in
  if index <? SIZE_MAX then rd (map p) index else Some 0%Q.

(** [plate::getCrustTimestamp]. *)
Definition getCrustTimestamp (p : plate) (x y : Z) : option Z :=
  let '(index, _, _) := getMapIndex p x y in
  if index <? SIZE_MAX then rd (age_map p) index else Some 0.

(** ** Construction *)

(** How a constructor call ends: with a plate, with the exception
    [std::invalid_argument], or by reading past the caller's buffer. *)
Inductive outcome (A : Type) : Type :=
  | Ok (a : A)
  | InvalidArgument
  | Undefined.
Arguments Ok {A} a.
Arguments InvalidArgument {A}.
Arguments Undefined {A}.

(** State of the constructor's copy loop: the running index [k], the mass and
    the unnormalised centre, and the two rasters being filled. *)
Record ctor_state := {
  cs_k : Z; cs_mass : Q; cs_cx : Q; cs_cy : Q;
  cs_map : list Q; cs_age : list Z
}.

Definition ctor_body (m : list Q) (w plate_age : Z) (s : ctor_state)
    (c : Z * Z) : option ctor_state :=
  let '(x, y) := c in
  mk ← rd m (cs_k s);
  map' ← wr (cs_map s) (cs_k s) mk;
  age' ← wr (cs_age s) (y * w + x) (Z.land plate_age (mask (Qltb 0 mk)));
  Some {| cs_k := cs_k s + 1;
          cs_mass := (cs_mass s + mk)%Q;
          cs_cx := (cs_cx s + inject_Z x * mk)%Q;
          cs_cy := (cs_cy s + inject_Z y * mk)%Q;
          cs_map := map'; cs_age := age' |}.

(** [plate::plate].  A null [m] is [None]. *)
Definition plate_new `{Platform} (seed : Z) (m : option (list Q))
    (w h _x _y plate_age : Z) (worldDimension : WorldDimension)
  : outcome plate :=
  match m with
  | None => InvalidArgument
  | Some buf =>
    if (w <=? 0) || (h <=? 0) then InvalidArgument
    else if (_x <? 0) || (_y <? 0) then InvalidArgument
    else if plate_age <? 0 then InvalidArgument
    else
      let plate_area := sz (w * h) in
      let g0 := {| draws := mt19937_seed seed; drawn := 0 |} in
      let '(r1, g1) := rand_next g0 in
      let angle := (2 * M_PI * inject_Z r1 / inject_Z rand_max)%Q in
      let '(r2, g2) := rand_next g1 in
      let rot := if Z.land r2 1 =? 0 then (-1)%Q else 1%Q in
      let s0 := {| cs_k := 0; cs_mass := 0; cs_cx := 0; cs_cy := 0;
                   cs_map := replicate (Z.to_nat plate_area) 0%Q;
                   cs_age := replicate (Z.to_nat plate_area) 0 |} in
      match for_each (ctor_body buf w plate_age) (cells w h) s0 with
      | None => Undefined
      | Some s =>
        Ok {| _randsource := g2; width := w; height := h;
              mass := cs_mass s;
              left := inject_Z _x; top := inject_Z _y;
              cx := (cs_cx s / cs_mass s)%Q; cy := (cs_cy s / cs_mass s)%Q;
              dx := 0; dy := 0;
              vx := (cos angle * 1)%Q; vy := (sin angle * 1)%Q;
              velocity := 1; rot_dir := rot;
              map := cs_map s; age_map := cs_age s;
              segment := replicate (Z.to_nat plate_area) SIZE_MAX;
              seg_data := [];
              _worldDimension := worldDimension |}
      end
  end.

(** ** Setting crust, with growth of the raster *)

(** Bitwise complement on [size_t]. *)
Definition lnot64 (v : Z) : Z := Z.lxor v SIZE_MAX.

(** [memcpy(&dst[di], &src[si], n * sizeof(elem))]. *)
Definition memcpy {A} (dst : list A) (di : Z) (src : list A) (si n : Z)
  : option (list A) :=
  if (0 <=? di) && (0 <=? si) && (0 <=? n)
     && (di + n <=? Z.of_nat (length dst))
     && (si + n <=? Z.of_nat (length src))
  then Some (take (Z.to_nat di) dst
             ++ take (Z.to_nat n) (drop (Z.to_nat si) src)
             ++ drop (Z.to_nat (di + n)) dst)
  else None.

(** "Scale all changes to multiple of 8." *)
Definition scale8 (d : Z) : Z :=
  sz (Z.shiftl (sz (Z.b2z (0 <? d) + Z.shiftr d 3)) 3).

(** The four growth distances [(d_lft, d_rgt, d_top, d_btm)] that [setCrust]
    computes for the normalised point (x, y) outside the raster. *)
Definition grow_distances (p : plate) (x y : Z) : Z * Z * Z * Z :=
  let W := getWidth (_worldDimension p) in
  let H := getHeight (_worldDimension p) in
  let ilft := float_to_size (left p) in
  let itop := float_to_size (top p) in
  let irgt := sz (sz (ilft + width p) - 1) in
  let ibtm := sz (sz (itop + height p) - 1) in
  (* Calculate distance of new point from plate edges. *)
  let _lft := sz (ilft - x) in
  let _rgt := sz (sz (Z.land W (mask (x <? ilft)) + x) - irgt) in
  let _top := sz (itop - y) in
  let _btm := sz (sz (Z.land H (mask (y <? itop)) + y) - ibtm) in
  (* Set larger of horizontal/vertical distance to zero. *)
  let d_lft := Z.land (Z.land _lft (mask (_lft <? _rgt))) (mask (_lft <? W)) in
  let d_rgt := Z.land (Z.land _rgt (mask (_rgt <=? _lft))) (mask (_rgt <? W)) in
  let d_top := Z.land (Z.land _top (mask (_top <? _btm))) (mask (_top <? H)) in
  let d_btm := Z.land (Z.land _btm (mask (_btm <=? _top))) (mask (_btm <? H)) in
  let d_lft := scale8 d_lft in
  let d_rgt := scale8 d_rgt in
  let d_top := scale8 d_top in
  let d_btm := scale8 d_btm in
  (* Make sure plate doesn't grow bigger than the system it's in! *)
  let '(d_lft, d_rgt) :=
    if W <? sz (sz (width p + d_lft) + d_rgt)
    then (0, sz (W - width p)) else (d_lft, d_rgt) in
  let '(d_top, d_btm) :=
    if H <? sz (sz (height p + d_top) + d_btm)
    then (0, sz (H - height p)) else (d_top, d_btm) in
  (d_lft, d_rgt, d_top, d_btm).

(** State of the row-copy loop of the growth path. *)
Definition copy_rows (p : plate) (d_lft d_top new_width : Z)
    (fresh : list Q * list Z * list Z) : option (list Q * list Z * list Z) :=
  for_each
    (fun '(tmph, tmpa, tmps) j =>
       let dest_i := sz (sz ((d_top + j) * new_width) + d_lft) in
       let src_i := sz (j * width p) in
       tmph' ← memcpy tmph dest_i (map p) src_i (width p);
       tmpa' ← memcpy tmpa dest_i (age_map p) src_i (width p);
       tmps' ← memcpy tmps dest_i (segment p) src_i (width p);
       Some (tmph', tmpa', tmps'))
    (seqZ 0 (height p)) fresh.

(** The growth path of [setCrust]: the body of [if (index >= width*height)],
    for crust [z] (already clamped) at world point (x, y). *)
Definition grow (p : plate) (x y : Z) (z : Q) : option plate :=
  let W := getWidth (_worldDimension p) in
  let H := getHeight (_worldDimension p) in
  (* Extending plate for nothing! *)
  if negb (Qltb 0 z) then None else
  let '(x, y) := normalize (_worldDimension p) x y in
  let '(d_lft, d_rgt, d_top, d_btm) := grow_distances p x y in
  (* Index out of bounds, but nowhere to grow! *)
  if sz (d_lft + d_rgt + d_top + d_btm) =? 0 then None else
  let left1 := (left p - inject_Z d_lft)%Q in
  let left2 := (left1 + (if Qle_bool 0 left1 then 0 else inject_Z W))%Q in
  let width' := sz (width p + sz (d_lft + d_rgt)) in
  let top1 := (top p - inject_Z d_top)%Q in
  let top2 := (top1 + (if Qle_bool 0 top1 then 0 else inject_Z H))%Q in
  let height' := sz (height p + sz (d_top + d_btm)) in
  let n := Z.to_nat (sz (width' * height')) in
  '(tmph, tmpa, tmps) ←
    copy_rows p d_lft d_top width'
      (replicate n 0%Q, replicate n 0, replicate n SIZE_MAX);
  Some
    {| _randsource := _randsource p; width := width'; height := height';
       mass := mass p; left := left2; top := top2;
       cx := cx p; cy := cy p; dx := dx p; dy := dy p;
       vx := vx p; vy := vy p; velocity := velocity p; rot_dir := rot_dir p;
       map := tmph; age_map := tmpa; segment := tmps;
       seg_data := (fun s => shift s d_lft d_top) <$> seg_data p;
       _worldDimension := _worldDimension p |}.

(** [plate::setCrust]. *)
Definition setCrust (p : plate) (x y : Z) (z : Q) (t : Z) : option plate :=
  let z := if Qltb z 0 then 0%Q else z in
  let '(index, _, _) := getMapIndex p x y in
  '(p, index) ←
    (if sz (width p * height p) <=? index then
       p' ← grow p x y z;
       let '(index', _, _) := getMapIndex p' x y in
       if index' <? sz (width p' * height p') then Some (p', index') else None
     else Some (p, index));
  h ← rd (map p) index;
  a ← rd (age_map p) index;
  (* Update crust's age. *)
  let old_crust := mask (Qltb 0 h) in
  let new_crust := mask (Qltb 0 z) in
  let t := Z.lor (Z.land t (lnot64 old_crust))
             (Z.land (float_to_size
                        ((h * inject_Z a + z * inject_Z t) / (h + z))%Q)
                     old_crust) in
  age' ← wr (age_map p) index
            (Z.lor (Z.land t new_crust) (Z.land a (lnot64 new_crust)));
  map' ← wr (map p) index z;
  Some (with_rasters p map' age' (segment p) (seg_data p)
          (mass p - h + z)%Q).

(** [plate::selectCollisionSegment]. *)
Definition selectCollisionSegment (p : plate) (coll_x coll_y : Z) : option Z :=
  let '(index, _, _) := getMapIndex p coll_x coll_y in
  rd (segment p) index.

(** [plate::addCrustByCollision]. *)
Definition addCrustByCollision (p : plate) (x y : Z) (z : Q) (time : Z)
    (activeContinent : Z) : option plate :=
  (* Add crust. Extend plate if necessary. *)
  c ← getCrust p x y;
  p ← setCrust p x y (c + z)%Q time;
  let '(index, x, y) := getMapIndex p x y in
  segment' ← wr (segment p) index activeContinent;
  data ← rd (seg_data p) activeContinent;
  let data := enlarge_to_contain (set_area data (sz (area data + 1))) x y in
  seg_data' ← wr (seg_data p) activeContinent data;
  Some (with_rasters p (map p) (age_map p) segment' seg_data' (mass p)).

(** ** Aggregation of a continent onto another plate *)

(** The cells of the bounding box of a continent, row by row. *)
Definition box_cells (d : segmentData) : list (Z * Z) :=
  y ← seqZ (getTop d) (getBottom d - getTop d + 1);
  (fun x => (x, y)) <$> seqZ (getLeft d) (getRight d - getLeft d + 1).

(** One turn of the inner loop of [aggregateCrust]; the state is the calling
    plate and the plate [p] that receives the crust (two distinct objects). *)
Definition aggregate_body (seg_id activeContinent wx wy lx ly : Z)
    (st : plate * plate) (c : Z * Z) : option (plate * plate) :=
  let '(self, p) := st in
  let '(x, y) := c in
  let i := sz (sz (y * width self) + x) in
  s ← rd (segment self) i;
  if s =? seg_id then
    h ← rd (map self) i;
    if Qltb 0 h then
      a ← rd (age_map self) i;
      p' ← addCrustByCollision p (sz (sz (wx + x) - lx)) (sz (sz (wy + y) - ly))
             h a activeContinent;
      map' ← wr (map self) i 0%Q;
      Some (with_rasters self map' (age_map self) (segment self)
              (seg_data self) (mass self - h)%Q, p')
    else Some st
  else Some st.

(** [plate::aggregateCrust]: the calling plate and [p] after the call, and
    the returned mass. *)
Definition aggregateCrust (self p : plate) (wx wy : Z)
  : option (plate * plate * Q) :=
  let '(index, lx, ly) := getMapIndex self wx wy in
  seg_id ← rd (segment self) index;
  d ← rd (seg_data self) seg_id;
  if isEmpty d then Some (self, p, 0%Q)   (* Do not process empty continents. *)
  else
    activeContinent ← selectCollisionSegment p wx wy;
    (* Wrap coordinates around world edges to safeguard subtractions. *)
    let wx := sz (wx + getWidth (_worldDimension self)) in
    let wy := sz (wy + getHeight (_worldDimension self)) in
    let old_mass := mass self in
    '(self', p') ←
      for_each (aggregate_body seg_id activeContinent wx wy lx ly)
        (box_cells d) (self, p);
    d' ← rd (seg_data self') seg_id;
    seg_data' ← wr (seg_data self') seg_id (set_area d' 0);
    let self'' := with_rasters self' (map self') (age_map self')
                    (segment self') seg_data' (mass self') in
    Some (self'', p', (old_mass - mass self'')%Q).

(** ** Subduction *)

(** Conversion of a [size_t] to [int]: the low 32 bits, signed. *)
Definition to_int32 (v : Z) : Z := (v + 2 ^ 31) mod 2 ^ 32 - 2 ^ 31.

(** The relative-motion hint after "take vector difference only between
    plates that move more or less to same direction". *)
Definition subduction_hint (p : plate) (dx dy : Q) : Q * Q :=
  let dot := (vx p * dx + vy p * dy)%Q in
  ((dx - vx p * b2q (Qltb 0 dot))%Q, (dy - vy p * b2q (Qltb 0 dot))%Q).

(** The deposit offset: ten times the hint plus three times the noise. *)
Definition subduction_offset (hint : Q * Q) (offset : Q) : Q * Q :=
  ((10 * fst hint + 3 * offset)%Q, (10 * snd hint + 3 * offset)%Q).

(** [plate::addCrustBySubduction]. *)
Definition addCrustBySubduction (p : plate) (x y : Z) (z : Q) (t : Z)
    (dx dy : Q) : option plate :=
  let '(_, x, y) := getMapIndex p x y in
  let hint := subduction_hint p dx dy in
  let '(r1, g) := rand_next (_randsource p) in
  let offset := (inject_Z r1 / inject_Z rand_max)%Q in
  let '(r2, g) := rand_next g in
  (* unsigned arithmetic: the factor is 1 or, wrapped around, 2^64 - 1 *)
  let offset :=
    (offset * (offset * offset * inject_Z (sz (2 * Z.land r2 1 - 1))))%Q in
  let '(dx, dy) := subduction_offset hint offset in
  let x := float_to_size (inject_Z (to_int32 x) + dx)%Q in
  let y := float_to_size (inject_Z (to_int32 y) + dy)%Q in
  let x := if width p =? getWidth (_worldDimension p)
           then x mod width p else x in
  let y := if height p =? getHeight (_worldDimension p)
           then y mod height p else y in
  let p := with_randsource p g in
  let index := sz (sz (y * width p) + x) in
  if index <? sz (width p * height p) then
    h ← rd (map p) index;
    if Qltb 0 h then
      a ← rd (age_map p) index;
      let t := float_to_size ((h * inject_Z a + z * inject_Z t) / (h + z))%Q in
      age' ← wr (age_map p) index (sz (t * Z.b2z (Qltb 0 z)));
      map' ← wr (map p) index (h + z)%Q;
      Some (with_rasters p map' age' (segment p) (seg_data p) (mass p + z)%Q)
    else Some p
  else Some p.

(** ** Collision response *)

(** The contact normal before normalisation. *)
Definition contact_normal (a b : plate) (wx wy : Z) : Q * Q :=
  let '(_, apx, apy) := getMapIndex a wx wy in
  let '(_, bpx, bpy) := getMapIndex b wx wy in
  let ap_dx := inject_Z (to_int32 apx - float_to_int (cx a)) in
  let ap_dy := inject_Z (to_int32 apy - float_to_int (cy a)) in
  let bp_dx := inject_Z (to_int32 bpx - float_to_int (cx b)) in
  let bp_dy := inject_Z (to_int32 bpy - float_to_int (cy b)) in
  ((ap_dx - bp_dx)%Q, (ap_dy - bp_dy)%Q).

(** The contact normal scaled by [1 / n_len]. *)
Definition unit_normal `{Platform} (a b : plate) (wx wy : Z) : Q * Q :=
  let '(nx, ny) := contact_normal a b wx wy in
  let n_len := sqrt (nx * nx + ny * ny)%Q in
  ((nx / n_len)%Q, (ny / n_len)%Q).

(** [plate::collide]: the calling plate and [p] after the call. *)
Definition collide `{Platform} (self p : plate) (wx wy : Z) (coll_mass : Q)
  : option (plate * plate) :=
  let coeff_rest := 0%Q in
  let '(index, _, _) := getMapIndex self wx wy in
  let '(p_index, _, _) := getMapIndex p wx wy in
  (* out of colliding map's bounds! *)
  if negb (index <? sz (width self * height self)) then None else
  if negb (p_index <? sz (width p * height p)) then None else
  let '(nx, ny) := contact_normal self p wx wy in
  if Qle_bool (nx * nx + ny * ny) 0 then Some (self, p) else
  let '(nx, ny) := unit_normal self p wx wy in
  let rel_vx := (vx self - vx p)%Q in
  let rel_vy := (vy self - vy p)%Q in
  let rel_dot_n := (rel_vx * nx + rel_vy * ny)%Q in
  if Qle_bool rel_dot_n 0 then Some (self, p) else
  let denom := ((nx * nx + ny * ny) * (1 / mass self + 1 / coll_mass))%Q in
  let J := (- (1 + coeff_rest) * rel_dot_n / denom)%Q in
  Some (with_impulse self (dx self + nx * J / mass self)%Q
                          (dy self + ny * J / mass self)%Q,
        with_impulse p (dx p - nx * J / (coll_mass + mass p))%Q
                       (dy p - ny * J / (coll_mass + mass p))%Q).

(** ** Kinematics *)

(** [plate::move]. *)
Definition move `{Platform} (p : plate) : option plate :=
  let W := getWidth (_worldDimension p) in
  let H := getHeight (_worldDimension p) in
  (* Apply any new impulses to the plate's trajectory. *)
  let vx1 := (vx p + dx p)%Q in
  let vy1 := (vy p + dy p)%Q in
  let len := sqrt (vx1 * vx1 + vy1 * vy1)%Q in
  let vx2 := (vx1 / len)%Q in
  let vy2 := (vy1 / len)%Q in
  let vel1 := (velocity p + (len - 1))%Q in
  let vel := (vel1 * b2q (Qltb 0 vel1))%Q in
  (* Apply some circular motion to the plate. *)
  let world_avg_side := sz (W + H) / 2 in
  let alpha := (rot_dir p * vel / (inject_Z world_avg_side * (33 # 100)))%Q in
  let _cos := cos (alpha * vel)%Q in
  let _sin := sin (alpha * vel)%Q in
  let _vx := (vx2 * _cos - vy2 * _sin)%Q in
  let _vy := (vy2 * _cos + vx2 * _sin)%Q in
  if negb (world_contains (_worldDimension p) (left p) (top p)) then None else
  let left1 := (left p + _vx * vel)%Q in
  let left2 := (left1 + (if Qltb 0 left1 then 0 else inject_Z W))%Q in
  let left3 := (left2 - (if Qltb left2 (inject_Z W) then 0 else inject_Z W))%Q in
  let top1 := (top p + _vy * vel)%Q in
  let top2 := (top1 + (if Qltb 0 top1 then 0 else inject_Z H))%Q in
  let top3 := (top2 - (if Qltb top2 (inject_Z H) then 0 else inject_Z H))%Q in
  if negb (world_contains (_worldDimension p) left3 top3) then None else
  Some (with_motion (with_impulse p 0 0) left3 top3 _vx _vy vel).

(** [memset] of the first [n] elements of a buffer. *)
Definition memset {A} (a : list A) (v : A) (n : Z) : option (list A) :=
  if (0 <=? n) && (n <=? Z.of_nat (length a))
  then Some (replicate (Z.to_nat n) v ++ drop (Z.to_nat n) a) else None.

(** [plate::resetSegments]. *)
Definition resetSegments (p : plate) : option plate :=
  segment' ← memset (segment p) SIZE_MAX (sz (width p * height p));
  Some (with_rasters p (map p) (age_map p) segment' [] (mass p)).

(** ** Erosion *)

(** What [calculateCrust] hands back: the four neighbour heights after
    validity filtering and the four neighbour indices. *)
Record crust := {
  w_crust : Q; e_crust : Q; n_crust : Q; s_crust : Q;
  w_idx : Z; e_idx : Z; n_idx : Z; s_idx : Z
}.

(** [plate::calculateCrust]. *)
Definition calculateCrust (p : plate) (x y index : Z) : option crust :=
  let W := getWidth (_worldDimension p) in
  let H := getHeight (_worldDimension p) in
  (* Build masks for accessible directions (4-way). *)
  let w_mask := mask ((0 <? x) || (width p =? W)) in
  let e_mask := mask ((x <? sz (width p - 1)) || (width p =? W)) in
  let n_mask := mask ((0 <? y) || (height p =? H)) in
  let s_mask := mask ((y <? sz (height p - 1)) || (height p =? H)) in
  (* Calculate the x and y offset of neighbour directions. *)
  let w := if w_mask =? SIZE_MAX then xMod p (sz (x - 1)) else 0 in
  let e := if e_mask =? SIZE_MAX then xMod p (sz (x + 1)) else 0 in
  let n := if n_mask =? SIZE_MAX then yMod p (sz (y - 1)) else 0 in
  let s := if s_mask =? SIZE_MAX then yMod p (sz (y + 1)) else 0 in
  (* Calculate offsets within map memory. *)
  let w := sz (sz (y * width p) + w) in
  let e := sz (sz (y * width p) + e) in
  let n := sz (sz (n * width p) + x) in
  let s := sz (sz (s * width p) + x) in
  (* Extract neighbours heights. Apply validity filtering: 0 is invalid. *)
  here ← rd (map p) index;
  mw ← rd (map p) w;
  me ← rd (map p) e;
  mn ← rd (map p) n;
  ms ← rd (map p) s;
  Some {| w_crust := (mw * inject_Z (Z.land w_mask (Z.b2z (Qltb mw here))))%Q;
          e_crust := (me * inject_Z (Z.land e_mask (Z.b2z (Qltb me here))))%Q;
          n_crust := (mn * inject_Z (Z.land n_mask (Z.b2z (Qltb mn here))))%Q;
          s_crust := (ms * inject_Z (Z.land s_mask (Z.b2z (Qltb ms here))))%Q;
          w_idx := w; e_idx := e; n_idx := n; s_idx := s |}.

Definition Qeqb (a b : Q) : bool := Qeq_bool a b.

(** [a[i] += v]. *)
Definition add_at (a : list Q) (i : Z) (v : Q) : option (list Q) :=
  old ← rd a i; wr a i (old + v)%Q.

(** "Find all tops": one turn of the scan; the state is [sources], whose
    head is the back of the vector. *)
Definition tops_body (p : plate) (lower_bound : Q) (sources : list Z)
    (c : Z * Z) : option (list Z) :=
  let '(x, y) := c in
  let index := sz (sz (y * width p) + x) in
  here ← rd (map p) index;
  if Qltb here lower_bound then Some sources else
  cr ← calculateCrust p x y index;
  (* This location is either at the edge of the plate or it is not the
     tallest of its neighbours. Don't start a river from here. *)
  if Qeqb (w_crust cr * e_crust cr * n_crust cr * s_crust cr) 0
  then Some sources
  else Some (index :: sources).

(** One turn of the inner river loop, for the source [index] just popped;
    the state is [(sinks, isDone, tmp)]. *)
Definition river_body (p : plate) (lower_bound : Q)
    (st : list Z * list Z * list Q) (index : Z)
  : option (list Z * list Z * list Q) :=
  let '(sinks, isDone, tmp) := st in
  let y := index / width p in
  let x := sz (index - sz (y * width p)) in
  here ← rd (map p) index;
  if Qltb here lower_bound then Some st else
  cr ← calculateCrust p x y index;
  (* If this is the lowest part of its neighbourhood, stop. *)
  if Qeqb (w_crust cr + e_crust cr + n_crust cr + s_crust cr) 0
  then Some st else
  let w_crust := (w_crust cr + b2q (Qeqb (w_crust cr) 0) * here)%Q in
  let e_crust := (e_crust cr + b2q (Qeqb (e_crust cr) 0) * here)%Q in
  let n_crust := (n_crust cr + b2q (Qeqb (n_crust cr) 0) * here)%Q in
  let s_crust := (s_crust cr + b2q (Qeqb (s_crust cr) 0) * here)%Q in
  (* Find lowest neighbour. *)
  let lowest_crust := w_crust in
  let dest := sz (index - 1) in
  let '(lowest_crust, dest) :=
    if Qltb e_crust lowest_crust then (e_crust, sz (index + 1))
    else (lowest_crust, dest) in
  let '(lowest_crust, dest) :=
    if Qltb n_crust lowest_crust then (n_crust, sz (index - width p))
    else (lowest_crust, dest) in
  let '(lowest_crust, dest) :=
    if Qltb s_crust lowest_crust then (s_crust, sz (index + width p))
    else (lowest_crust, dest) in
  (* if it's not handled yet, add it as new sink. *)
  '(sinks, isDone) ←
    (if dest <? sz (width p * height p) then
       done ← rd isDone dest;
       if done =? 0 then
         isDone' ← wr isDone dest 1; Some (dest :: sinks, isDone')
       else Some (sinks, isDone)
     else Some (sinks, isDone));
  (* Erode this location with the water flow. *)
  t ← rd tmp index;
  tmp' ← wr tmp index (t - (t - lower_bound) * (2 # 10))%Q;
  Some (sinks, isDone, tmp').

(** The outer river loop: while [sources] is not empty, drain it and go on
    with the sinks it produced.  [fuel] bounds the number of rounds; the bound
    that [erode] gives is never reached on a well-formed plate
    ([river_total]). *)
Fixpoint river (fuel : nat) (p : plate) (lower_bound : Q)
    (sources : list Z) (isDone : list Z) (tmp : list Q) : option (list Q) :=
  match fuel with
  | O => None
  | S fuel' =>
    match sources with
    | [] => Some tmp
    | _ =>
      '(sinks, isDone', tmp') ←
        for_each (river_body p lower_bound) sources ([], isDone, tmp);
      river fuel' p lower_bound sinks isDone' tmp'
    end
  end.

(** "Add random noise (10 %) to heightmap": one turn. *)
Definition noise_body (st : mt19937 * list Q) (i : Z)
  : option (mt19937 * list Q) :=
  let '(g, tmp) := st in
  let '(r, g') := rand_next g in
  let alpha := ((2 # 10) * inject_Z r / inject_Z rand_max)%Q in
  t ← rd tmp i;
  tmp' ← wr tmp i (t + ((1 # 10) * t - alpha * t))%Q;
  Some (g', tmp').

(** State of the redistribution scan. *)
Record erode_state := {
  es_mass : Q; es_cx : Q; es_cy : Q; es_tmp : list Q
}.

(** The crust one cell hands to its lower neighbours, applied to [tmp]. *)
Definition redistribute (here : Q) (cr : crust) (index : Z) (tmp : list Q)
  : option (list Q) :=
  let w := w_idx cr in let e := e_idx cr in
  let n := n_idx cr in let s := s_idx cr in
  let fw := b2q (Qltb 0 (w_crust cr)) in
  let fe := b2q (Qltb 0 (e_crust cr)) in
  let fn := b2q (Qltb 0 (n_crust cr)) in
  let fs := b2q (Qltb 0 (s_crust cr)) in
  (* Calculate the difference in height between this point and its
     nbours that are lower than this point. *)
  let w_diff := (here - w_crust cr)%Q in
  let e_diff := (here - e_crust cr)%Q in
  let n_diff := (here - n_crust cr)%Q in
  let s_diff := (here - s_crust cr)%Q in
  let min_diff := w_diff in
  let min_diff := (min_diff - (min_diff - e_diff) * b2q (Qltb e_diff min_diff))%Q in
  let min_diff := (min_diff - (min_diff - n_diff) * b2q (Qltb n_diff min_diff))%Q in
  let min_diff := (min_diff - (min_diff - s_diff) * b2q (Qltb s_diff min_diff))%Q in
  (* Calculate the sum of difference between lower neighbours and
     the TALLEST lower neighbour. *)
  let diff_sum := ((w_diff - min_diff) * fw + (e_diff - min_diff) * fe +
                   (n_diff - min_diff) * fn + (s_diff - min_diff) * fs)%Q in
  (* Erosion difference sum is negative! *)
  if negb (Qle_bool 0 diff_sum) then None else
  if Qltb diff_sum min_diff then
    (* There's NOT enough room in neighbours to contain all the crust from
       this peak so that it would be as tall as its tallest lower neighbour. *)
    tmp ← add_at tmp w ((w_diff - min_diff) * fw)%Q;
    tmp ← add_at tmp e ((e_diff - min_diff) * fe)%Q;
    tmp ← add_at tmp n ((n_diff - min_diff) * fn)%Q;
    tmp ← add_at tmp s ((s_diff - min_diff) * fs)%Q;
    tmp ← add_at tmp index (- min_diff)%Q;
    let min_diff := (min_diff - diff_sum)%Q in
    (* Spread the remaining crust equally among all lower nbours. *)
    let min_diff := (min_diff / (1 + fw + fe + fn + fs))%Q in
    tmp ← add_at tmp w (min_diff * fw)%Q;
    tmp ← add_at tmp e (min_diff * fe)%Q;
    tmp ← add_at tmp n (min_diff * fn)%Q;
    tmp ← add_at tmp s (min_diff * fs)%Q;
    add_at tmp index min_diff
  else
    let unit := (min_diff / diff_sum)%Q in
    (* Remove all crust from this location making it as tall as its
       tallest lower neighbour. *)
    tmp ← add_at tmp index (- min_diff)%Q;
    (* Spread all removed crust among all other lower neighbours. *)
    tmp ← add_at tmp w (unit * (w_diff - min_diff) * fw)%Q;
    tmp ← add_at tmp e (unit * (e_diff - min_diff) * fe)%Q;
    tmp ← add_at tmp n (unit * (n_diff - min_diff) * fn)%Q;
    add_at tmp s (unit * (s_diff - min_diff) * fs)%Q.

(** One turn of the redistribution scan over the noised raster [map p]. *)
Definition erode_body (p : plate) (lower_bound : Q) (st : erode_state)
    (c : Z * Z) : option erode_state :=
  let '(x, y) := c in
  let index := sz (sz (y * width p) + x) in
  here ← rd (map p) index;
  tmp ← add_at (es_tmp st) index here;  (* Careful not to overwrite earlier amounts. *)
  let st := {| es_mass := (es_mass st + here)%Q;
               es_cx := (es_cx st + inject_Z x * here)%Q;
               es_cy := (es_cy st + inject_Z y * here)%Q;
               es_tmp := tmp |} in
  if Qltb here lower_bound then Some st else
  cr ← calculateCrust p x y index;
  (* This location has no neighbours (ARTIFACT!) or it is the lowest
     part of its area. In either case the work here is done. *)
  if Qeqb (w_crust cr + e_crust cr + n_crust cr + s_crust cr) 0
  then Some st else
  tmp' ← redistribute here cr index tmp;
  Some {| es_mass := es_mass st; es_cx := es_cx st; es_cy := es_cy st;
          es_tmp := tmp' |}.

(** [plate::erode]. *)
Definition erode (p : plate) (lower_bound : Q) : option plate :=
  let n := sz (width p * height p) in
  (* map.copy_raw_to(tmp) *)
  tmp ← memcpy (replicate (Z.to_nat n) 0%Q) 0 (map p) 0
               (Z.of_nat (length (map p)));
  (* Find all tops. *)
  sources ← for_each (tops_body p lower_bound) (cells (width p) (height p)) [];
  let isDone := replicate (Z.to_nat n) 0 in
  (* From each top, start flowing water along the steepest slope. *)
  tmp ← river (S (S (Z.to_nat n))) p lower_bound sources isDone tmp;
  (* Add random noise (10 %) to heightmap. *)
  '(g, tmp) ← for_each noise_body (seqZ 0 n) (_randsource p, tmp);
  map' ← memcpy (map p) 0 tmp 0 n;
  let tmp := replicate (Z.to_nat n) 0%Q in
  let p1 := with_randsource
              (with_rasters p map' (age_map p) (segment p) (seg_data p) 0%Q) g in
  st ← for_each (erode_body p1 lower_bound) (cells (width p) (height p))
         {| es_mass := 0; es_cx := 0; es_cy := 0; es_tmp := tmp |};
  (* map.from(tmp) *)
  map'' ← memcpy (map p1) 0 (es_tmp st) 0 n;
  let p2 := with_rasters p1 map'' (age_map p) (segment p) (seg_data p)
              (es_mass st) in
  Some (if Qltb 0 (es_mass st)
        then with_centre p2 (es_cx st / es_mass st)%Q (es_cy st / es_mass st)%Q
        else with_centre p2 (es_cx st) (es_cy st)).

(** ** Operation sequences on a single plate *)

Inductive plate_op : Type :=
  | OpMove
  | OpErode (lower_bound : Q)
  | OpResetSegments.

Definition apply_op `{Platform} (p : plate) (o : plate_op) : option plate :=
  match o with
  | OpMove => move p
  | OpErode lower_bound => erode p lower_bound
  | OpResetSegments => resetSegments p
  end.

(** The calls of [ops], one after the other, on [p]. *)
Definition run_ops `{Platform} (ops : list plate_op) (p : plate) : option plate :=
  for_each apply_op ops p.

(** ** Plates and a platform for the worked examples *)

(** Square roots that are exact on squares of rationals. *)
Definition exact_sqrt (q : Q) : Q :=
  let r := Qred q in
  Z.sqrt (Qnum r) # Z.to_pos (Z.sqrt (Zpos (Qden r))).

(** A platform whose [cos] and [sin] are the Taylor polynomials of degree
    two (exact at 0) and whose generator is a linear congruence. *)
Definition example_platform : Platform :=
  {| sqrt := exact_sqrt;
     cos := fun x => (1 - x * x / 2)%Q;
     sin := fun x => x;
     M_PI := (355 # 113)%Q;
     mt19937_seed := fun s n => (s + 1 + Z.of_nat n * 2654435761) mod 2 ^ 32 |}.

(** A plate at rest at [(l, t)] with the given raster, no continents and zero
    ages, in a [W] x [H] world. *)
Definition still_plate (W H l t w h : Z) (heights : list Q) (g : nat -> Z)
  : plate :=
  {| _randsource := {| draws := g; drawn := 0 |};
     width := w; height := h;
     mass := Qred (Qsum heights);
     left := inject_Z l; top := inject_Z t;
     cx := 0; cy := 0; dx := 0; dy := 0;
     vx := 1; vy := 0; velocity := 1; rot_dir := 1;
     map := heights;
     age_map := replicate (length heights) 0;
     segment := replicate (length heights) SIZE_MAX;
     seg_data := [];
     _worldDimension := {| getWidth := W; getHeight := H |} |}.

Definition with_velocity (p : plate) (vx' vy' : Q) : plate :=
  with_motion p (left p) (top p) vx' vy' (velocity p).

(** E3: plate A (mass 10, centre (0,2), moving right) and plate B (mass 100,
    centre (2,2) of its raster at (2,0), moving up) meet at world point
    (2,2); the contact normal is (4,0). *)
Definition E3_A : plate :=
  with_centre
    (still_plate 8 8 0 0 5 5 (<[10%nat := 10%Q]> (replicate 25 0%Q)) (fun _ => 0))
    0 2.
Definition E3_B : plate :=
  with_velocity
    (with_centre
       (still_plate 8 8 2 0 5 5 (<[12%nat := 100%Q]> (replicate 25 0%Q))
          (fun _ => 0))
       2 2)
    0 (-1).

(** E5: the 3 x 3 plate with a single peak of height 10, in a [W] x [H]
    world; the generator's outputs are [g]. *)
Definition E5_plate (W H : Z) (g : nat -> Z) : plate :=
  still_plate W H 0 0 3 3 [0; 0; 0; 0; 10; 0; 0; 0; 0]%Q g.

(** ** Well-formed plates *)

(** The three rasters hold [width * height] cells. *)
Definition rasters_sized (p : plate) : Prop :=
  Z.of_nat (length (map p)) = width p * height p /\
  Z.of_nat (length (age_map p)) = width p * height p /\
  Z.of_nat (length (segment p)) = width p * height p.

(** The world is at most 2^32 cells wide and high (the binding passes its
    side as an [unsigned int]) and the raster fits in it. *)
Definition fits_world (p : plate) : Prop :=
  0 < getWidth (_worldDimension p) < 2 ^ 32 /\
  0 < getHeight (_worldDimension p) < 2 ^ 32 /\
  0 <= width p <= getWidth (_worldDimension p) /\
  0 <= height p <= getHeight (_worldDimension p).

(** The filtered neighbour height that [calculateCrust] returns is zero or
    strictly below the cell's own height. *)
Definition filtered (here c : Q) : Prop := (c == 0)%Q \/ (c < here)%Q.

(** A well-formed plate: a non-empty raster that fits in the world, with
    buffers of its size. *)
Definition plate_wf (p : plate) : Prop :=
  fits_world p /\ rasters_sized p /\ 0 < width p /\ 0 < height p.

(** The value of cell [j] of a raster (0 outside it). *)
Definition val (l : list Q) (j : nat) : Q := default 0%Q (l !! j).

(** A plate that can receive crust: it fits in the world, its origin lies in
    the world, and its height raster has its size and no negative cell. *)
Definition receiver_wf (p : plate) : Prop :=
  fits_world p /\
  Z.of_nat (length (map p)) = width p * height p /\
  (0 <= left p)%Q /\ (left p < inject_Z (getWidth (_worldDimension p)))%Q /\
  (0 <= top p)%Q /\ (top p < inject_Z (getHeight (_worldDimension p)))%Q /\
  Forall (Qle 0) (map p).

(** A raster whose only cell that may differ from 0 is cell [c], and that
    cell is not negative. *)
Definition single_peak (m : list Q) (c : nat) : Prop :=
  (0 <= val m c)%Q /\ forall j, j <> c -> (val m j == 0)%Q.

(** The noise factor drawn from generator output [r]. *)
Definition noise_alpha (r : Z) : Q :=
  ((2 # 10) * inject_Z (r mod 2 ^ 32) / inject_Z rand_max)%Q.

(** The number of cells assigned to continent [id]. *)
Definition assigned (p : plate) (id : Z) : nat :=
  length (filter (fun s => s = id) (segment p)).

(** A raster given cell by cell. *)
Definition raster_of {A} (w h : Z) (f : Z -> Z -> A) : list A :=
  (fun c => f (fst c) (snd c)) <$> cells w h.

Definition in_square (lo hi x y : Z) : bool :=
  (lo <=? x) && (x <=? hi) && (lo <=? y) && (y <=? hi).

(** E4: in an 8 x 8 world, plate A carries the continent 0, a 3 x 3 block of
    height 1 at the cells (2..4, 2..4); plate B, of the size [w] x [w] at
    [(l, l)], is empty and knows one continent, at the world cell (3,3). *)
Definition E4_A : plate :=
  let p := still_plate 8 8 0 0 8 8
             (raster_of 8 8 (fun x y => if in_square 2 4 x y then 1%Q else 0%Q))
             (fun _ => 0) in
  with_rasters p (map p) (age_map p)
    (raster_of 8 8 (fun x y => if in_square 2 4 x y then 0 else SIZE_MAX))
    [{| x0 := 2; y0 := 2; x1 := 4; y1 := 4; area := 9; coll_count := 1 |}]
    (mass p).

Definition E4_B (l w : Z) : plate :=
  let p := still_plate 8 8 l l w w (raster_of w w (fun _ _ => 0%Q))
             (fun _ => 0) in
  with_rasters p (map p) (age_map p)
    (raster_of w w (fun x y => if (x =? 3 - l) && (y =? 3 - l)
                               then 0 else SIZE_MAX))
    [{| x0 := 3 - l; y0 := 3 - l; x1 := 3 - l; y1 := 3 - l;
        area := 1; coll_count := 1 |}]
    (mass p).

(** What one turn of the aggregation loop keeps: the receiver stays able to
    receive, the two masses add up to the same, the source plate loses from its
    mass field what its raster loses, and only its height raster and mass
    change. *)
Definition aggregate_inv (A B : plate) (st : plate * plate) : Prop :=
  let '(self, p) := st in
  receiver_wf p /\
  (mass self + mass p == mass A + mass B)%Q /\
  (Qsum (map self) - mass self == Qsum (map A) - mass A)%Q /\
  self = with_rasters A (map self) (age_map A) (segment A) (seg_data A)
           (mass self) /\
  length (map self) = length (map A).


(** What the aggregation loop never does to the calling plate [A]: it touches
    nothing but the height raster and the mass, leaves the cells of other
    continents alone, and a cell it changes is set to 0. *)
Definition aggregate_frame (A : plate) (seg_id : Z) (self : plate) : Prop :=
  self = with_rasters A (map self) (age_map A) (segment A) (seg_data A)
           (mass self) /\
  (forall i, rd (segment A) i <> Some seg_id -> rd (map self) i = rd (map A) i) /\
  (forall i h, rd (map self) i = Some h -> h = 0%Q \/ rd (map A) i = Some h).

(** The index of the local cell (x, y) in the rasters of [p]. *)
Definition cell_of (p : plate) (x y : Z) : Z := sz (sz (y * width p) + x).

(** ** Friction and the read-only queries *)

Definition DEFORMATION_WEIGHT : Q := 2.

(** [plate::applyFriction]. *)
Definition applyFriction (p : plate) (deformed_mass : Q) : plate :=
  if Qltb 0 (mass p) then
    let vel_dec := (DEFORMATION_WEIGHT * deformed_mass / mass p)%Q in
    let vel_dec := if Qltb vel_dec (velocity p) then vel_dec else velocity p in
    with_motion p (left p) (top p) (vx p) (vy p) (velocity p - vel_dec)%Q
  else p.

(** [plate::getContinentArea]. *)
Definition getContinentArea (p : plate) (wx wy : Z) : option Z :=
  let '(index, _, _) := getMapIndex p wx wy in
  s ← rd (segment p) index;
  if negb (s <? Z.of_nat (length (seg_data p))) then None else
  d ← rd (seg_data p) s;
  Some (area d).

(** [plate::contains]. *)
Definition contains (p : plate) (x y : Z) : bool :=
  let cleanX := inject_Z (xMod p x) in
  let cleanY := inject_Z (yMod p y) in
  Qle_bool (left p) cleanX && Qltb cleanX (left p + inject_Z (width p))%Q &&
  Qle_bool (top p) cleanY && Qltb cleanY (top p + inject_Z (height p))%Q.

(** The age [setCrust] stores in a cell of height [h] and age [a] when it
    sets crust [z] (already clamped) with age [t]: the mask arithmetic of the
    source, as it is written there. *)
Definition setCrust_age (h : Q) (a : Z) (z : Q) (t : Z) : Z :=
  let old_crust := mask (Qltb 0 h) in
  let new_crust := mask (Qltb 0 z) in
  let t := Z.lor (Z.land t (lnot64 old_crust))
             (Z.land (float_to_size
                        ((h * inject_Z a + z * inject_Z t) / (h + z))%Q)
                     old_crust) in
  Z.lor (Z.land t new_crust) (Z.land a (lnot64 new_crust)).

(** The height [setCrust] stores: "Do not accept negative values." *)
Definition clamp (z : Q) : Q := if Qltb z 0 then 0%Q else z.

(** Invariant 1 of the plate: the mass field is the sum of the heights. *)
Definition booked (p : plate) : Prop := (mass p == Qsum (map p))%Q.

(** The direction and the scalar velocity that [move] computes before it
    moves the origin: [(vx, vy, velocity)] after the rotation. *)
Definition move_velocity `{Platform} (p : plate) : Q * Q * Q :=
  let W := getWidth (_worldDimension p) in
  let H := getHeight (_worldDimension p) in
  let vx1 := (vx p + dx p)%Q in
  let vy1 := (vy p + dy p)%Q in
  let len := sqrt (vx1 * vx1 + vy1 * vy1)%Q in
  let vx2 := (vx1 / len)%Q in
  let vy2 := (vy1 / len)%Q in
  let vel1 := (velocity p + (len - 1))%Q in
  let vel := (vel1 * b2q (Qltb 0 vel1))%Q in
  let world_avg_side := sz (W + H) / 2 in
  let alpha := (rot_dir p * vel / (inject_Z world_avg_side * (33 # 100)))%Q in
  let _cos := cos (alpha * vel)%Q in
  let _sin := sin (alpha * vel)%Q in
  ((vx2 * _cos - vy2 * _sin)%Q, (vy2 * _cos + vx2 * _sin)%Q, vel).

(** The two statements of [move] that bring a moved coordinate back into the
    world: [c += c > 0 ? 0 : side; c -= c < side ? 0 : side]. *)
Definition wrap_coordinate (side : Z) (c : Q) : Q :=
  let c2 := (c + (if Qltb 0 c then 0 else inject_Z side))%Q in
  (c2 - (if Qltb c2 (inject_Z side) then 0 else inject_Z side))%Q.

(** The cells the river loop has not marked in [isDone] yet. *)
Definition unmarked (isDone : list Z) : nat :=
  length (filter (fun d => d = 0) isDone).

(** An index of a cell of the raster of [p]. *)
Definition in_raster (p : plate) (i : Z) : Prop := 0 <= i < width p * height p.

(** What the river loop keeps: the buffers have the size of the raster, the
    sinks are cells of the raster, every sink was unmarked when it was pushed,
    and no height in [tmp] is negative. *)
Definition river_inv (p : plate) (base : nat) (st : list Z * list Z * list Q)
  : Prop :=
  let '(sinks, isDone, tmp) := st in
  Forall (in_raster p) sinks /\
  Z.of_nat (length isDone) = width p * height p /\
  Z.of_nat (length tmp) = width p * height p /\
  (unmarked isDone + length sinks = base)%nat /\
  Forall (Qle 0) tmp.

(** ** Continents: segmentation and the collision counters *)

(** Modelled from the spec: [CONT_BASE] of plate.hpp, "a module-level constant
    (the minimum height for a cell to be considered continental)". *)
Class Driver := { CONT_BASE : Q }.

(** Modelled from the spec: the descriptor that [createSegment] starts a new
    continent with, "a fresh descriptor with box (x,x)-(y,y) and area 0"; its
    collision counter ("hits this lifecycle") starts at 0. *)
Definition fresh_segment (x y : Z) : segmentData :=
  {| x0 := x; y0 := y; x1 := x; y1 := y; area := 0; coll_count := 0 |}.

Definition set_coll_count (d : segmentData) (c : Z) : segmentData :=
  {| x0 := x0 d; y0 := y0 d; x1 := x1 d; y1 := y1 d;
     area := area d; coll_count := c |}.

(** Modelled from the spec: [setLeft], [setRight], [setTop], [setBottom] of
    the continent descriptor replace one side of its bounding box. *)
Definition setLeft (d : segmentData) (v : Z) : segmentData :=
  {| x0 := v; y0 := y0 d; x1 := x1 d; y1 := y1 d;
     area := area d; coll_count := coll_count d |}.
Definition setRight (d : segmentData) (v : Z) : segmentData :=
  {| x0 := x0 d; y0 := y0 d; x1 := v; y1 := y1 d;
     area := area d; coll_count := coll_count d |}.
Definition setTop (d : segmentData) (v : Z) : segmentData :=
  {| x0 := x0 d; y0 := v; x1 := x1 d; y1 := y1 d;
     area := area d; coll_count := coll_count d |}.
Definition setBottom (d : segmentData) (v : Z) : segmentData :=
  {| x0 := x0 d; y0 := y0 d; x1 := x1 d; y1 := v;
     area := area d; coll_count := coll_count d |}.

(** [segment[i] > ID && map[i] >= CONT_BASE]: the cell is continental and
    belongs to no continent yet. *)
Definition free_cell `{Driver} (p : plate) (seg : list Z) (ID i : Z)
  : option bool :=
  s ← rd seg i;
  if ID <? s then m ← rd (map p) i; Some (Qle_bool CONT_BASE m)
  else Some false.

(** [x > 0 && map[i] >= CONT_BASE] and its three siblings. *)
Definition canGo `{Driver} (p : plate) (inside : bool) (i : Z) : option bool :=
  if inside then m ← rd (map p) i; Some (Qle_bool CONT_BASE m) else Some false.

(** [canGo && segment[i] < ID]: the id of a neighbour that belongs to a
    continent created earlier. *)
Definition known_neighbour (p : plate) (ID : Z) (can : bool) (i : Z)
  : option (option Z) :=
  if can then s ← rd (segment p) i; Some (if s <? ID then Some s else None)
  else Some None.

(** [spans_todo[row].push_back(a); spans_todo[row].push_back(b)]; the head of
    a list of pending spans is the back of the vector. *)
Definition push_span (todo : list (list Z)) (row a b : Z)
  : option (list (list Z)) :=
  l ← rd todo row; wr todo row (b :: a :: l).

(** "Reduce any done spans from this span": the loop over [spans_done[line]],
    which holds the done spans in the order they were pushed. *)
Fixpoint reduce_span (done : list Z) (start end_ : Z) : option (Z * Z) :=
  match done with
  | [] => Some (start, end_)
  | a :: b :: done' =>
    let start' := if (a <=? start) && (start <=? b) then sz (b + 1) else start in
    let end' := if (a <=? end_) && (end_ <=? b) then sz (a - 1) else end_ in
    reduce_span done' start' end'
  | [_] => None
  end.

(** "Find an unscanned span on this line": the [do ... while] that pops spans
    until one is left over by the done spans or the vector is empty. *)
Fixpoint next_span (width : Z) (done : list Z) (todo : list Z)
  : option (Z * Z * list Z) :=
  match todo with
  | end_ :: start :: todo' =>
    '(start, end_) ← reduce_span done start end_;
    (* Unsigned-ness hacking! Required to fix the underflow of end - 1. *)
    let start := Z.lor start (mask (width <=? end_)) in
    let end_ := sz (end_ - Z.b2z (width <=? end_)) in
    if (end_ <? start) && negb (Z.of_nat (length todo') =? 0)
    then next_span width done todo'
    else Some (start, end_, todo')
  | _ => None
  end.

(** "Extend the beginning of line." *)
Fixpoint extend_left `{Driver} (fuel : nat) (p : plate) (ID line_here : Z)
    (seg : list Z) (start : Z) : option (list Z * Z) :=
  match fuel with
  | O => None
  | S fuel' =>
    if 0 <? start then
      free ← free_cell p seg ID (sz (sz (line_here + start) - 1));
      if (free : bool) then
        let start := sz (start - 1) in
        seg' ← wr seg (sz (line_here + start)) ID;
        extend_left fuel' p ID line_here seg' start
      else Some (seg, start)
    else Some (seg, start)
  end.

(** "Extend the end of line." *)
Fixpoint extend_right `{Driver} (fuel : nat) (p : plate) (ID line_here : Z)
    (seg : list Z) (end_ : Z) : option (list Z * Z) :=
  match fuel with
  | O => None
  | S fuel' =>
    if end_ <? sz (width p - 1) then
      free ← free_cell p seg ID (sz (sz (line_here + end_) + 1));
      if (free : bool) then
        let end_ := sz (end_ + 1) in
        seg' ← wr seg (sz (line_here + end_)) ID;
        extend_right fuel' p ID line_here seg' end_
      else Some (seg, end_)
    else Some (seg, end_)
  end.

(** The inner [while (++j < width && ...)] of the scan of a neighbouring row:
    the segment array and [j] when the loop is left. *)
Fixpoint scan_run `{Driver} (fuel : nat) (p : plate) (ID line_o : Z)
    (seg : list Z) (j : Z) : option (list Z * Z) :=
  match fuel with
  | O => None
  | S fuel' =>
    let j := sz (j + 1) in
    if j <? width p then
      free ← free_cell p seg ID (sz (line_o + j));
      if (free : bool) then
        seg' ← wr seg (sz (line_o + j)) ID;
        scan_run fuel' p ID line_o seg' j
      else Some (seg, j)
    else Some (seg, j)
  end.

(** The scan of the row above (or below) the span [start..end_]:
    [for (j = start; j <= end; ++j)], which enqueues every run of free cells
    as a span of the row [row_o], whose cells start at [line_o]. *)
Fixpoint scan_row `{Driver} (fuel : nat) (p : plate) (ID line_o row_o : Z)
    (st : list Z * list (list Z)) (j end_ : Z)
  : option (list Z * list (list Z)) :=
  match fuel with
  | O => None
  | S fuel' =>
    let '(seg, todo) := st in
    if j <=? end_ then
      free ← free_cell p seg ID (sz (line_o + j));
      if (free : bool) then
        let a := j in
        seg ← wr seg (sz (line_o + a)) ID;
        '(seg, j) ← scan_run (S (Z.to_nat (width p))) p ID line_o seg j;
        let b := sz (j - 1) in             (* Last point is invalid. *)
        todo ← push_span todo row_o a b;
        let j := sz (b + 1) in             (* Skip the last scanned point. *)
        scan_row fuel' p ID line_o row_o (seg, todo) (sz (j + 1)) end_
      else scan_row fuel' p ID line_o row_o st (sz (j + 1)) end_
    else Some st
  end.

(** State of the flood fill: the segment array, the pending and the done
    spans of every line, the descriptor being built and [lines_processed]. *)
Record fill_state := {
  fs_segment : list Z;
  fs_todo : list (list Z);
  fs_done : list (list Z);
  fs_data : segmentData;
  fs_lines : Z
}.

(** One turn of [for (line = 0; line < height; ++line)]. *)
Definition fill_line `{Driver} (p : plate) (ID : Z) (st : fill_state)
    (line : Z) : option fill_state :=
  let W := getWidth (_worldDimension p) in
  let H := getHeight (_worldDimension p) in
  todo_l ← rd (fs_todo st) line;
  if Z.of_nat (length todo_l) =? 0 then Some st else
  done_l ← rd (fs_done st) line;
  '(start, end_, todo_l) ← next_span (width p) done_l todo_l;
  todo ← wr (fs_todo st) line todo_l;
  if end_ <? start then                  (* Nothing to do here anymore... *)
    Some {| fs_segment := fs_segment st; fs_todo := todo;
            fs_done := fs_done st; fs_data := fs_data st;
            fs_lines := fs_lines st |}
  else
  (* Calculate line indices. Allow wrapping around map edges. *)
  let row_above := Z.lor (Z.land (sz (line - 1)) (mask (0 <? line)))
                         (Z.land (sz (height p - 1)) (mask (line =? 0))) in
  let row_below := Z.land (sz (line + 1)) (mask (line <? sz (height p - 1))) in
  let line_here := sz (line * width p) in
  let line_above := sz (row_above * width p) in
  let line_below := sz (row_below * width p) in
  '(seg, start) ←
    extend_left (S (Z.to_nat (width p))) p ID line_here (fs_segment st) start;
  '(seg, end_) ←
    extend_right (S (Z.to_nat (width p))) p ID line_here seg end_;
  (* Check if should wrap around left edge. *)
  '(seg, todo) ←
    (if (width p =? W) && (start =? 0) then
       free ← free_cell p seg ID (sz (sz (line_here + width p) - 1));
       if (free : bool) then
         seg' ← wr seg (sz (sz (line_here + width p) - 1)) ID;
         todo' ← push_span todo line (sz (width p - 1)) (sz (width p - 1));
         Some (seg', todo')
       else Some (seg, todo)
     else Some (seg, todo));
  (* Check if should wrap around right edge. *)
  '(seg, todo) ←
    (if (width p =? W) && (end_ =? sz (width p - 1)) then
       free ← free_cell p seg ID (sz (line_here + 0));
       if (free : bool) then
         seg' ← wr seg (sz (line_here + 0)) ID;
         todo' ← push_span todo line 0 0;
         Some (seg', todo')
       else Some (seg, todo)
     else Some (seg, todo));
  (* Update segment area counter. *)
  let data := set_area (fs_data st)
                (sz (area (fs_data st) + sz (sz (1 + end_) - start))) in
  (* Record any changes in extreme dimensions. *)
  let data := if line <? getTop data then setTop data line else data in
  let data := if getBottom data <? line then setBottom data line else data in
  let data := if start <? getLeft data then setLeft data start else data in
  let data := if getRight data <? end_ then setRight data end_ else data in
  '(seg, todo) ←
    (if (0 <? line) || (height p =? H)
     then scan_row (S (Z.to_nat (width p))) p ID line_above row_above
            (seg, todo) start end_
     else Some (seg, todo));
  '(seg, todo) ←
    (if (line <? sz (height p - 1)) || (height p =? H)
     then scan_row (S (Z.to_nat (width p))) p ID line_below row_below
            (seg, todo) start end_
     else Some (seg, todo));
  done_l ← rd (fs_done st) line;
  done ← wr (fs_done st) line (done_l ++ [start; end_]);
  Some {| fs_segment := seg; fs_todo := todo; fs_done := done;
          fs_data := data; fs_lines := sz (fs_lines st + 1) |}.

(** The outer [do ... while (lines_processed > 0)]; [fuel] bounds the number
    of sweeps over the lines.  The bounds that [createSegment] and [fill_line]
    give to this loop and to the inner ones are never reached on a well-formed
    plate ([fill_total], [scan_row_total], [extend_left_total]). *)
Fixpoint fill `{Driver} (fuel : nat) (p : plate) (ID : Z) (st : fill_state)
  : option fill_state :=
  match fuel with
  | O => None
  | S fuel' =>
    st' ← for_each (fill_line p ID) (seqZ 0 (height p))
            {| fs_segment := fs_segment st; fs_todo := fs_todo st;
               fs_done := fs_done st; fs_data := fs_data st; fs_lines := 0 |};
    if 0 <? fs_lines st' then fill fuel' p ID st' else Some st'
  end.

(** [plate::createSegment]: the plate after the call and the returned id. *)
Definition createSegment `{Driver} (p : plate) (x y : Z) : option (plate * Z) :=
  let origin_index := sz (sz (y * width p) + x) in
  let ID := Z.of_nat (length (seg_data p)) in
  s ← rd (segment p) origin_index;
  if s <? ID then Some (p, s) else
  canGoLeft ← canGo p (0 <? x) (sz (origin_index - 1));
  canGoRight ← canGo p (x <? sz (width p - 1)) (sz (origin_index + 1));
  canGoUp ← canGo p (0 <? y) (sz (origin_index - width p));
  canGoDown ← canGo p (y <? sz (height p - 1)) (sz (origin_index + width p));
  (* This point belongs to no segment yet.  However it might be a neighbour
     to some segment created earlier.  If such neighbour is found, associate
     this point with it. *)
  nbour ←
    (l ← known_neighbour p ID canGoLeft (sz (origin_index - 1));
     match l with
     | Some s => Some (Some s)
     | None =>
       r ← known_neighbour p ID canGoRight (sz (origin_index + 1));
       match r with
       | Some s => Some (Some s)
       | None =>
         u ← known_neighbour p ID canGoUp (sz (origin_index - width p));
         match u with
         | Some s => Some (Some s)
         | None =>
           known_neighbour p ID canGoDown (sz (origin_index + width p))
         end
       end
     end);
  match nbour with
  | Some nbour_id =>
    segment' ← wr (segment p) origin_index nbour_id;
    d ← rd (seg_data p) nbour_id;
    let d := enlarge_to_contain (set_area d (sz (area d + 1))) x y in
    seg_data' ← wr (seg_data p) nbour_id d;
    Some (with_rasters p (map p) (age_map p) segment' seg_data' (mass p),
          nbour_id)
  | None =>
    let data := fresh_segment x y in
    let spans := replicate (Z.to_nat (height p)) [] in
    segment' ← wr (segment p) origin_index ID;
    todo ← push_span spans y x x;
    st ← fill (S (S (Z.to_nat (sz (width p * height p))))) p ID
           {| fs_segment := segment'; fs_todo := todo; fs_done := spans;
              fs_data := data; fs_lines := 0 |};
    Some (with_rasters p (map p) (age_map p) (fs_segment st)
            (seg_data p ++ [fs_data st]) (mass p), ID)
  end.

(** [plate::getContinentAt]: the plate after the call (a continent may have
    been created) and the id of the continent at the world point. *)
Definition getContinentAt `{Driver} (p : plate) (x y : Z)
  : outcome (plate * Z) :=
  let lx := sz (to_int32 x) in
  let ly := sz (to_int32 y) in
  let '(index, lx, ly) := getMapIndex p lx ly in
  match rd (segment p) index with
  | None => Undefined
  | Some seg =>
    match (if Z.of_nat (length (seg_data p)) <=? seg
           then createSegment p lx ly else Some (p, seg)) with
    | None => Undefined
    | Some (p', seg') =>
      if Z.of_nat (length (seg_data p')) <=? seg'
      then InvalidArgument               (* Could not create segment *)
      else Ok (p', seg')
    end
  end.

(** [plate::addCollision]: the plate after the call and the returned area. *)
Definition addCollision `{Driver} (p : plate) (wx wy : Z)
  : outcome (plate * Z) :=
  match getContinentAt p wx wy with
  | Ok (p', seg) =>
    match rd (seg_data p') seg with
    | Some d =>
      match wr (seg_data p') seg (set_coll_count d (sz (coll_count d + 1))) with
      | Some seg_data' =>
        Ok (with_rasters p' (map p') (age_map p') (segment p') seg_data'
              (mass p'), area d)
      | None => Undefined
      end
    | None => Undefined
    end
  | InvalidArgument => InvalidArgument
  | Undefined => Undefined
  end.

(** [plate::getCollisionInfo]: the plate after the call, [*count] and
    [*ratio]. *)
Definition getCollisionInfo `{Driver} (p : plate) (wx wy : Z)
  : outcome (plate * Z * Q) :=
  match getContinentAt p wx wy with
  | Ok (p', seg) =>
    match rd (seg_data p') seg with
    | Some d =>
      Ok (p', coll_count d,
          (inject_Z (coll_count d) / inject_Z (sz (1 + area d)))%Q)
    | None => Undefined
    end
  | InvalidArgument => InvalidArgument
  | Undefined => Undefined
  end.

(** *** What the flood fill keeps *)

(** The cells that do not carry the id [ID]. *)
Definition unfilled (ID : Z) (seg : list Z) : nat :=
  length (filter (fun s => s <> ID) seg).

(** The number of coordinates waiting in the pending spans. *)
Definition pending (todo : list (list Z)) : nat := sum_list (length <$> todo).

(** [seg'] comes from [seg] by giving the id [ID] to cells that were free. *)
Definition fills `{Driver} (p : plate) (ID : Z) (seg seg' : list Z) : Prop :=
  length seg' = length seg /\
  forall i, rd seg' i = rd seg i \/
            (rd seg' i = Some ID /\ free_cell p seg ID i = Some true).

(** A vector of spans: pairs of columns of the raster. *)
Definition spans_ok (w : Z) (l : list Z) : Prop :=
  Nat.Even (length l) /\ Forall (fun v => 0 <= v < w) l.

(** The shape of the flood-fill state on the plate [p]. *)
Definition fill_shape (p : plate) (seg : list Z) (todo done : list (list Z))
  : Prop :=
  Z.of_nat (length seg) = width p * height p /\
  Z.of_nat (length todo) = height p /\ Z.of_nat (length done) = height p /\
  Forall (spans_ok (width p)) todo /\ Forall (spans_ok (width p)) done.

(** The potential that bounds the sweeps of the flood fill. *)
Definition fill_potential (ID : Z) (seg : list Z) (todo : list (list Z)) : nat :=
  2 * unfilled ID seg + pending todo.

(** A plate on which continents can be looked up: it is well-formed, its
    origin lies in the world, and its segment array holds values of
    [size_t]. *)
Definition segmentable (p : plate) : Prop :=
  plate_wf p /\
  world_contains (_worldDimension p) (left p) (top p) = true /\
  Forall (fun s => 0 <= s) (segment p).

(** A driver with [CONT_BASE = 1] and an 8 x 8 plate that fills its world,
    with a 3 x 3 block of height 1 at the cells (2..4, 2..4) and no continent
    built yet. *)
Definition example_driver : Driver := {| CONT_BASE := 1 |}.

Definition E4_land : plate :=
  still_plate 8 8 0 0 8 8
    (raster_of 8 8 (fun x y => if in_square 2 4 x y then 1%Q else 0%Q))
    (fun _ => 0).
(* ================================================================== *)
(** * Properties *)

(** ** Loops and buffers *)

Lemma for_each_ind {S A} (P : nat -> S -> Prop) (body : S -> A -> option S)
    (l : list A) (s : S) :
  P O s ->
  (forall i a s0, l !! i = Some a -> P i s0 ->
     exists s1, body s0 a = Some s1 /\ P (Datatypes.S i) s1) ->
  exists s', for_each body l s = Some s' /\ P (length l) s'.
Proof.
  revert P s. induction l as [|a l IH]; intros P s H0 Hstep.
  - exists s. split; [reflexivity | exact H0].
  - destruct (Hstep O a s eq_refl H0) as (s1 & Hb & H1).
    destruct (IH (fun i => P (Datatypes.S i)) s1 H1) as (s' & Hf & Hl).
    + intros i b s0 Hi Hp. apply (Hstep (Datatypes.S i) b s0 Hi Hp).
    + exists s'. split; [|exact Hl]. simpl. rewrite Hb. exact Hf.
Qed.

Lemma for_each_inv {S A} (P : S -> Prop) (body : S -> A -> option S)
    (l : list A) (s s' : S) :
  P s ->
  (forall a s0 s1, a ∈ l -> P s0 -> body s0 a = Some s1 -> P s1) ->
  for_each body l s = Some s' -> P s'.
Proof.
  revert s. induction l as [|a l IH]; intros s H0 Hstep Hf; simpl in Hf.
  - injection Hf as <-. exact H0.
  - destruct (body s a) as [s1|] eqn:Hb; simpl in Hf; [|discriminate].
    apply (IH s1); [| |exact Hf].
    + apply (Hstep a s s1); [apply list_elem_of_here | exact H0 | exact Hb].
    + intros b s0 s2 Hin. apply Hstep. apply list_elem_of_further. exact Hin.
Qed.

Lemma cells_elem w h x y :
  (x, y) ∈ cells w h <-> (0 <= x < w /\ 0 <= y < h).
Proof.
  unfold cells. rewrite list_elem_of_bind. split.
  - intros (y' & Hx & Hy). apply list_elem_of_fmap in Hx as (x' & Heq & Hx).
    injection Heq as -> ->. apply elem_of_seqZ in Hx, Hy. lia.
  - intros [Hx Hy]. exists y. split.
    + apply list_elem_of_fmap. exists x. split; [reflexivity|].
      apply elem_of_seqZ. lia.
    + apply elem_of_seqZ. lia.
Qed.

Lemma cells_length w h : 0 <= w -> 0 <= h ->
  length (cells w h) = Z.to_nat (w * h).
Proof.
  intros Hw Hh. unfold cells.
  replace h with (Z.of_nat (Z.to_nat h)) by lia.
  generalize (Z.to_nat h) as n. clear h Hh. intros n.
  assert (G : forall m, length (seqZ m (Z.of_nat n) ≫=
             (fun y => (fun x => (x, y)) <$> seqZ 0 w)) = Z.to_nat (w * Z.of_nat n)).
  { induction n as [|n IH]; intros m.
    - simpl. rewrite Z.mul_0_r. reflexivity.
    - rewrite (seqZ_cons m) by lia.
      rewrite bind_cons, length_app, length_fmap, length_seqZ.
      replace (Z.pred (Z.of_nat (Datatypes.S n))) with (Z.of_nat n) by lia.
      rewrite IH. nia. }
  apply G.
Qed.

Lemma rd_Some {A} (a : list A) i :
  0 <= i < Z.of_nat (length a) -> exists v, rd a i = Some v.
Proof.
  intros Hi. unfold rd. destruct (Z.leb_spec 0 i); [|lia].
  destruct (lookup_lt_is_Some_2 a (Z.to_nat i)) as [v Hv]; [lia|eauto].
Qed.

Lemma wr_Some {A} (a : list A) i v :
  0 <= i < Z.of_nat (length a) ->
  exists a', wr a i v = Some a' /\ length a' = length a.
Proof.
  intros Hi. unfold wr.
  destruct (Z.leb_spec 0 i); [|lia].
  destruct (Z.ltb_spec i (Z.of_nat (length a))); [|lia].
  eexists. split; [reflexivity|]. apply length_insert.
Qed.

(** ** Construction *)

(** C9, first half: a null buffer, or a dimension that is not strictly
    positive, makes the constructor throw [InvalidArgument]; no plate is
    produced. *)
Lemma plate_new_invalid `{Platform} seed m w h _x _y plate_age wd :
  m = None \/ w <= 0 \/ h <= 0 ->
  plate_new seed m w h _x _y plate_age wd = InvalidArgument.
Proof.
  intros Hbad. unfold plate_new. destruct m as [buf|]; [|reflexivity].
  destruct Hbad as [Hm | Hd]; [discriminate|].
  destruct (Z.leb_spec w 0), (Z.leb_spec h 0); simpl; try reflexivity; lia.
Qed.

Lemma ctor_loop_runs buf w h plate_age s0 :
  0 < w -> 0 < h ->
  Z.of_nat (length (cs_map s0)) = w * h ->
  Z.of_nat (length (cs_age s0)) = w * h ->
  w * h <= Z.of_nat (length buf) ->
  cs_k s0 = 0 ->
  exists s, for_each (ctor_body buf w plate_age) (cells w h) s0 = Some s.
Proof.
  intros Hw Hh Hm Ha Hb Hk.
  destruct (for_each_ind
    (fun i s => cs_k s = Z.of_nat i /\
                Z.of_nat (length (cs_map s)) = w * h /\
                Z.of_nat (length (cs_age s)) = w * h)
    (ctor_body buf w plate_age) (cells w h) s0) as (s & Hs & _).
  - rewrite Hk. auto.
  - intros i [x y] s Hc (Hki & Hlm & Hla).
    assert (Hin : (x, y) ∈ cells w h) by (eapply list_elem_of_lookup_2; eauto).
    apply cells_elem in Hin.
    assert (Hlt : (i < length (cells w h))%nat) by (eapply lookup_lt_Some; eauto).
    rewrite cells_length in Hlt by lia.
    unfold ctor_body.
    destruct (rd_Some buf (cs_k s)) as [mk ->]; [lia|]. simpl.
    destruct (wr_Some (cs_map s) (cs_k s) mk) as (m' & -> & Hm'); [lia|]. simpl.
    destruct (wr_Some (cs_age s) (y * w + x)
                (Z.land plate_age (mask (Qltb 0 mk)))) as (a' & -> & Ha'); [nia|].
    simpl. eexists. split; [reflexivity|]. simpl. lia.
  - eauto.
Qed.

(** C9: construction throws [InvalidArgument] when the height buffer is null
    or when a dimension is not strictly positive, and then no plate exists;
    with a buffer of [w * h] entries and positive dimensions (all arguments
    being values of [size_t]) the constructor returns a plate. *)
Theorem plate_new_InvalidArgument `{Platform} seed m w h _x _y plate_age wd :
  (m = None \/ w <= 0 \/ h <= 0 ->
   plate_new seed m w h _x _y plate_age wd = InvalidArgument) /\
  (forall buf, m = Some buf -> 0 < w -> 0 < h ->
   0 <= _x -> 0 <= _y -> 0 <= plate_age ->
   w * h < 2 ^ 64 -> w * h <= Z.of_nat (length buf) ->
   exists p, plate_new seed m w h _x _y plate_age wd = Ok p).
Proof.
  split; [apply plate_new_invalid|].
  intros buf -> Hw Hh Hx Hy Hage Hsz Hbuf. unfold plate_new.
  destruct (Z.leb_spec w 0); [lia|]. destruct (Z.leb_spec h 0); [lia|].
  destruct (Z.ltb_spec _x 0); [lia|]. destruct (Z.ltb_spec _y 0); [lia|].
  destruct (Z.ltb_spec plate_age 0); [lia|]. simpl.
  assert (Harea : sz (w * h) = w * h) by (apply Z.mod_small; nia).
  rewrite Harea.
  edestruct (ctor_loop_runs buf w h plate_age) as [s ->];
    [exact Hw | exact Hh | | | exact Hbuf | | eexists; reflexivity];
    simpl; rewrite ?length_replicate; nia.
Qed.

Lemma plate_new_InvalidArgument_witness :
  let wd := {| getWidth := 4; getHeight := 4 |} in
  plate_new (H := example_platform) 7 (Some [0; 2; 2; 0]%Q) 0 2 0 0 100 wd
    = InvalidArgument /\
  exists p,
    plate_new (H := example_platform) 7 (Some [0; 2; 2; 0]%Q) 2 2 0 0 100 wd
      = Ok p.
Proof.
  intros wd. split.
  - apply (plate_new_InvalidArgument (H := example_platform)). right. left. lia.
  - apply (proj2 (plate_new_InvalidArgument (H := example_platform)
                    7 (Some [0; 2; 2; 0]%Q) 2 2 0 0 100 wd) [0; 2; 2; 0]%Q);
      [reflexivity | lia | lia | lia | lia | lia | reflexivity | simpl; lia].
Defined.

(** ** Kinematics *)

(** C8: [move] changes only the kinematic state -- origin, direction, scalar
    velocity and the impulse accumulator, which is absorbed into the direction
    and cleared; the height raster, the age raster, the segment array, the
    segment table, the raster dimensions and the mass are unchanged. *)
Theorem move_frame `{Platform} (p p' : plate) :
  move p = Some p' ->
  map p' = map p /\ age_map p' = age_map p /\ segment p' = segment p /\
  seg_data p' = seg_data p /\ width p' = width p /\ height p' = height p /\
  mass p' = mass p /\ cx p' = cx p /\ cy p' = cy p /\
  rot_dir p' = rot_dir p /\ _randsource p' = _randsource p /\
  _worldDimension p' = _worldDimension p /\
  dx p' = 0%Q /\ dy p' = 0%Q /\
  (let len := sqrt ((vx p + dx p) * (vx p + dx p)
                    + (vy p + dy p) * (vy p + dy p))%Q in
   let vel := velocity p' in
   let a := (rot_dir p * vel
             / (inject_Z (sz (getWidth (_worldDimension p)
                              + getHeight (_worldDimension p)) / 2)
                * (33 # 100)) * vel)%Q in
   vx p' = ((vx p + dx p) / len * cos a - (vy p + dy p) / len * sin a)%Q /\
   vy p' = ((vy p + dy p) / len * cos a + (vx p + dx p) / len * sin a)%Q).
Proof.
  unfold move. intros Hm.
  destruct (negb (world_contains _ (left p) (top p))); [discriminate|].
  match type of Hm with (if negb ?c then _ else _) = _ => destruct c end;
    [|discriminate].
  injection Hm as <-. simpl. repeat split; reflexivity.
Qed.

Lemma move_frame_witness :
  exists p', move (H := example_platform) E3_A = Some p' /\
    map p' = map E3_A /\ mass p' = mass E3_A /\ dx p' = 0%Q /\ dy p' = 0%Q.
Proof.
  destruct (move (H := example_platform) E3_A) as [p'|] eqn:Hm;
    [|vm_compute in Hm; discriminate Hm].
  exists p'. split; [reflexivity|].
  destruct (move_frame (H := example_platform) E3_A p' Hm)
    as (Hmap & _ & _ & _ & _ & _ & Hmass & _ & _ & _ & _ & _ & Hdx & Hdy & _).
  repeat split; assumption.
Defined.

(** ** Collision response *)


(** What a returning [collide] has done, in the terms of the code. *)
Lemma collide_cases `{Platform} (A B A' B' : plate) (wx wy : Z) (coll_mass : Q) :
  collide A B wx wy coll_mass = Some (A', B') ->
  let n0 := contact_normal A B wx wy in
  let n := unit_normal A B wx wy in
  let rel := ((vx A - vx B) * fst n + (vy A - vy B) * snd n)%Q in
  let J := (- (1 + 0) * rel /
            ((fst n * fst n + snd n * snd n) * (1 / mass A + 1 / coll_mass)))%Q in
  ((fst n0 * fst n0 + snd n0 * snd n0 <= 0 \/ rel <= 0)%Q /\ A' = A /\ B' = B) \/
  (~ (fst n0 * fst n0 + snd n0 * snd n0 <= 0 \/ rel <= 0)%Q /\
   A' = with_impulse A (dx A + fst n * J / mass A)%Q
                       (dy A + snd n * J / mass A)%Q /\
   B' = with_impulse B (dx B - fst n * J / (coll_mass + mass B))%Q
                       (dy B - snd n * J / (coll_mass + mass B))%Q).
Proof.
  intros Hc n0 n rel J. unfold collide in Hc.
  destruct (getMapIndex A wx wy) as [[index apx] apy] eqn:HA.
  destruct (getMapIndex B wx wy) as [[p_index bpx] bpy] eqn:HB.
  destruct (negb (index <? sz (width A * height A))); [discriminate|].
  destruct (negb (p_index <? sz (width B * height B))); [discriminate|].
  subst J rel n n0.
  destruct (contact_normal A B wx wy) as [nx0 ny0] eqn:Hn0.
  destruct (Qle_bool (nx0 * nx0 + ny0 * ny0) 0) eqn:Hz.
  { injection Hc as <- <-. apply Qle_bool_iff in Hz. left. simpl. tauto. }
  destruct (unit_normal A B wx wy) as [nx ny] eqn:Hn. simpl fst; simpl snd.
  destruct (Qle_bool ((vx A - vx B) * nx + (vy A - vy B) * ny) 0) eqn:Hr.
  { injection Hc as <- <-. apply Qle_bool_iff in Hr. left. tauto. }
  injection Hc as <- <-. right. split; [|split; reflexivity].
  intros [Hle | Hle]; apply Qle_bool_iff in Hle; congruence.
Qed.



(** C3, as stated, fails: in the E3 scenario (masses 10 and 100, zero impulse
    accumulators, relative velocity (1,1), unit contact normal (1,0),
    collMass = 10) the accumulators after [collide] are not
    A.dx = -10/11, B.dx = +1/11. *)
Lemma E3_expected_impulse_fails :
  (mass E3_A == 10)%Q /\ (mass E3_B == 100)%Q /\
  dx E3_A = 0%Q /\ dy E3_A = 0%Q /\ dx E3_B = 0%Q /\ dy E3_B = 0%Q /\
  (vx E3_A - vx E3_B == 1)%Q /\ (vy E3_A - vy E3_B == 1)%Q /\
  (fst (unit_normal (H := example_platform) E3_A E3_B 2 2) == 1)%Q /\
  (snd (unit_normal (H := example_platform) E3_A E3_B 2 2) == 0)%Q /\
  exists A' B',
    collide (H := example_platform) E3_A E3_B 2 2 10 = Some (A', B') /\
    ~ ((dx A' == - (10 # 11))%Q /\ (dx B' == 1 # 11)%Q /\
       (dy A' == 0)%Q /\ (dy B' == 0)%Q).
Proof.
  repeat (split; [reflexivity|]).
  eexists _, _. split; [vm_compute; reflexivity|].
  simpl. intros (Ha & _). vm_compute in Ha. discriminate Ha.
Qed.

(** C3, amended: in the E3 scenario the accumulators after [collide] are
    A.dx = -1/2, B.dx = +1/22 and A.dy = B.dy = 0. *)
Theorem E3_impulse `{Platform} (A B A' B' : plate) (wx wy : Z) :
  (mass A == 10)%Q -> (mass B == 100)%Q ->
  (dx A == 0)%Q -> (dy A == 0)%Q -> (dx B == 0)%Q -> (dy B == 0)%Q ->
  (vx A - vx B == 1)%Q -> (vy A - vy B == 1)%Q ->
  (0 < fst (contact_normal A B wx wy) * fst (contact_normal A B wx wy)
       + snd (contact_normal A B wx wy) * snd (contact_normal A B wx wy))%Q ->
  (fst (unit_normal A B wx wy) == 1)%Q ->
  (snd (unit_normal A B wx wy) == 0)%Q ->
  collide A B wx wy 10 = Some (A', B') ->
  (dx A' == - (1 # 2))%Q /\ (dx B' == 1 # 22)%Q /\
  (dy A' == 0)%Q /\ (dy B' == 0)%Q.
Proof.
  intros HmA HmB HdxA HdyA HdxB HdyB Hvx Hvy Hn0 Hnx Hny Hc.
  destruct (collide_cases _ _ _ _ _ _ _ Hc) as [(Hcond & _) | (_ & -> & ->)].
  - exfalso. rewrite Hvx, Hvy, Hnx, Hny in Hcond.
    destruct Hcond as [Hle | Hle]; [lra | vm_compute in Hle; apply Hle; reflexivity].
  - simpl. rewrite Hvx, Hvy, Hnx, Hny, HmA, HmB, HdxA, HdyA, HdxB, HdyB.
    repeat split; reflexivity.
Qed.

Lemma E3_impulse_witness :
  exists A' B',
    collide (H := example_platform) E3_A E3_B 2 2 10 = Some (A', B') /\
    (dx A' == - (1 # 2))%Q /\ (dx B' == 1 # 22)%Q /\
    (dy A' == 0)%Q /\ (dy B' == 0)%Q.
Proof.
  eexists _, _. split; [vm_compute; reflexivity|].
  apply (E3_impulse (H := example_platform) E3_A E3_B _ _ 2 2);
    try reflexivity.
Defined.

(** ** Comparisons of floats *)

Lemma Qltb_lt (a b : Q) : Qltb a b = true <-> (a < b)%Q.
Proof.
  unfold Qltb. rewrite negb_true_iff. split.
  - intros Hf. apply Qnot_le_lt. intros Hle. apply Qle_bool_iff in Hle. congruence.
  - intros Hlt. destruct (Qle_bool b a) eqn:Hb; [|reflexivity].
    apply Qle_bool_iff in Hb. exfalso. apply (Qlt_not_le _ _ Hlt Hb).
Qed.

Lemma Qltb_ge (a b : Q) : Qltb a b = false <-> (b <= a)%Q.
Proof.
  unfold Qltb. rewrite negb_false_iff. apply Qle_bool_iff.
Qed.

(** ** Subduction *)

(** C6, as stated, fails: with self-velocity (1,0) and hint (2,0) the dot
    product is positive, yet the adjusted hint (1,0) is not orthogonal to the
    velocity. *)
Lemma subduction_hint_not_orthogonal :
  let p := E5_plate 3 3 (fun _ => 0) in
  (0 < vx p * 2 + vy p * 0)%Q /\
  ~ (vx p * fst (subduction_hint p 2 0) + vy p * snd (subduction_hint p 2 0) == 0)%Q.
Proof.
  simpl. split; [reflexivity|]. intros Hz. vm_compute in Hz. discriminate Hz.
Qed.

(** C6, amended: whenever the dot product of the hint (dx,dy) with the plate's
    own velocity (vx,vy) is positive, the velocity vector itself is subtracted
    from the hint -- the dot product of the adjusted hint with the velocity is
    the original one less the squared length of the velocity -- before the
    noise term and the factor-10 scaling give the deposit offset. *)
Theorem subduction_hint_subtracts_velocity (p : plate) (dx dy : Q) :
  (0 < vx p * dx + vy p * dy)%Q ->
  let h := subduction_hint p dx dy in
  (fst h == dx - vx p)%Q /\ (snd h == dy - vy p)%Q /\
  (vx p * fst h + vy p * snd h ==
   (vx p * dx + vy p * dy) - (vx p * vx p + vy p * vy p))%Q /\
  forall offset,
    (fst (subduction_offset h offset) == 10 * (dx - vx p) + 3 * offset)%Q /\
    (snd (subduction_offset h offset) == 10 * (dy - vy p) + 3 * offset)%Q.
Proof.
  intros Hdot h. subst h. unfold subduction_hint, subduction_offset. simpl.
  apply Qltb_lt in Hdot. rewrite Hdot. unfold b2q. simpl.
  repeat split; ring.
Qed.

Lemma subduction_hint_subtracts_velocity_witness :
  let p := E5_plate 3 3 (fun _ => 0) in
  (fst (subduction_hint p 2 0) == 2 - vx p)%Q /\
  (snd (subduction_hint p 2 0) == 0 - vy p)%Q.
Proof.
  intros p.
  destruct (subduction_hint_subtracts_velocity p 2 0) as (Hx & Hy & _).
  - reflexivity.
  - split; [exact Hx | exact Hy].
Defined.

(** ** Local indices *)

Lemma sz_range z : 0 <= sz z < 2 ^ 64.
Proof. unfold sz. apply Z.mod_pos_bound. lia. Qed.

Lemma sz_small z : 0 <= z < 2 ^ 64 -> sz z = z.
Proof. unfold sz. apply Z.mod_small. Qed.

Lemma sz_le z : 0 <= z -> sz z <= z.
Proof. unfold sz. intros Hz. apply Z.mod_le; lia. Qed.

Lemma getMapIndex_nonneg p x y index lx ly :
  getMapIndex p x y = (index, lx, ly) -> 0 <= index.
Proof.
  unfold getMapIndex, Rectangle_getMapIndex. simpl.
  match goal with |- context [if ?c then _ else _] => destruct c end;
    intros Heq; injection Heq as <- _ _.
  - apply sz_range.
  - unfold SIZE_MAX. lia.
Qed.

Lemma rd_wr_same {A} (a a' : list A) i v :
  wr a i v = Some a' -> rd a' i = Some v.
Proof.
  unfold wr, rd. destruct (Z.leb_spec 0 i); simpl; [|discriminate].
  destruct (Z.ltb_spec i (Z.of_nat (length a))); [|discriminate].
  intros Heq. injection Heq as <-. apply list_lookup_insert_eq. lia.
Qed.

Lemma rd_wr_other {A} (a a' : list A) i j v :
  wr a i v = Some a' -> i <> j -> rd a' j = rd a j.
Proof.
  unfold wr, rd. destruct (Z.leb_spec 0 i); simpl; [|discriminate].
  destruct (Z.ltb_spec i (Z.of_nat (length a))); [|discriminate].
  intros Heq Hij. injection Heq as <-.
  destruct (Z.leb_spec 0 j); [|reflexivity].
  apply list_lookup_insert_ne. lia.
Qed.

Lemma wr_length {A} (a a' : list A) i v :
  wr a i v = Some a' -> length a' = length a.
Proof.
  unfold wr. destruct (_ && _); [|discriminate].
  intros Heq. injection Heq as <-. apply length_insert.
Qed.

Lemma wr_same_value {A} (a a' : list A) i v :
  rd a i = Some v -> wr a i v = Some a' -> a' = a.
Proof.
  unfold wr, rd. destruct (Z.leb_spec 0 i); simpl; [|discriminate].
  destruct (Z.ltb_spec i (Z.of_nat (length a))); [|discriminate].
  intros Hr Heq. injection Heq as <-. apply list_insert_id. exact Hr.
Qed.

(** ** Setting crust inside the raster *)

(** Inside the raster [setCrust] does not touch the geometry: it writes the
    (clamped) height, blends the age and adjusts the mass. *)
Lemma setCrust_inside p x y z t index lx ly :
  getMapIndex p x y = (index, lx, ly) ->
  index < sz (width p * height p) ->
  rasters_sized p ->
  exists h map' age',
    rd (map p) index = Some h /\
    wr (map p) index (if Qltb z 0 then 0%Q else z) = Some map' /\
    length age' = length (age_map p) /\
    setCrust p x y z t =
      Some (with_rasters p map' age' (segment p) (seg_data p)
              (mass p - h + (if Qltb z 0 then 0 else z))%Q).
Proof.
  intros Hidx Hin (Hm & Ha & Hs).
  pose proof (getMapIndex_nonneg _ _ _ _ _ _ Hidx) as H0.
  assert (Hwh : sz (width p * height p) <= width p * height p)
    by (apply sz_le; lia).
  destruct (rd_Some (map p) index) as [h Hh]; [lia|].
  destruct (rd_Some (age_map p) index) as [a Hra]; [lia|].
  unfold setCrust. rewrite Hidx.
  destruct (Z.leb_spec (sz (width p * height p)) index); [lia|]. simpl.
  rewrite Hh. simpl. rewrite Hra. simpl.
  match goal with |- context [wr (age_map p) index ?v] =>
    destruct (wr_Some (age_map p) index v) as (age' & -> & Hla); [lia|] end.
  simpl.
  destruct (wr_Some (map p) index (if Qltb z 0 then 0%Q else z))
    as (map' & Hw & Hlm); [lia|].
  rewrite Hw. simpl. exists h, map', age'. auto.
Qed.

(** ** Accretion by collision *)

Lemma rd_bounds {A} (a : list A) i v :
  rd a i = Some v -> 0 <= i < Z.of_nat (length a).
Proof.
  unfold rd. destruct (Z.leb_spec 0 i); [|discriminate].
  intros Hl. apply lookup_lt_Some in Hl. lia.
Qed.

Lemma getMapIndex_with_rasters p m a s sd ms x y :
  getMapIndex (with_rasters p m a s sd ms) x y = getMapIndex p x y.
Proof. reflexivity. Qed.

(** C10: every call of [addCrustByCollision] on a cell inside the plate
    returns, increments the recorded area of continent [continentId] by
    exactly 1 and enlarges its bounding box to contain the cell -- also when
    the cell was already assigned to that continent, in which case the number
    of cells assigned to it stays the same, so a recorded area that was not
    below that number now exceeds it. *)
Theorem addCrustByCollision_counts_every_call
    (p : plate) (x y : Z) (z : Q) (t continentId index lx ly : Z)
    (d : segmentData) :
  getMapIndex p x y = (index, lx, ly) ->
  index < sz (width p * height p) ->
  rasters_sized p ->
  rd (seg_data p) continentId = Some d ->
  0 <= area d < SIZE_MAX ->
  exists p' d',
    addCrustByCollision p x y z t continentId = Some p' /\
    rd (seg_data p') continentId = Some d' /\
    area d' = area d + 1 /\
    box_contains d' lx ly /\
    (x0 d' <= x0 d /\ y0 d' <= y0 d /\ x1 d <= x1 d' /\ y1 d <= y1 d') /\
    rd (segment p') index = Some continentId /\
    (rd (segment p) index = Some continentId ->
     assigned p' continentId = assigned p continentId /\
     (Z.of_nat (assigned p continentId) <= area d ->
      Z.of_nat (assigned p' continentId) < area d')).
Proof.
  intros Hidx Hin Hsized Hd Harea.
  pose proof (getMapIndex_nonneg _ _ _ _ _ _ Hidx) as H0.
  pose proof (sz_range (width p * height p)) as Hsz.
  destruct (setCrust_inside p x y
              (match rd (map p) index with Some h => h | None => 0 end + z)%Q
              t index lx ly Hidx Hin Hsized)
    as (h & map' & age' & Hh & Hw & Hla & Hset).
  rewrite Hh in Hset, Hw.
  destruct Hsized as (Hm & Ha & Hs).
  assert (Hwh : sz (width p * height p) <= width p * height p)
    by (apply sz_le; lia).
  destruct (wr_Some (segment p) index continentId) as (seg' & Hseg & Hls); [lia|].
  pose proof (rd_bounds _ _ _ Hd) as Hcid.
  set (d' := enlarge_to_contain (set_area d (sz (area d + 1))) lx ly).
  destruct (wr_Some (seg_data p) continentId d') as (sd' & Hsd & Hlsd); [lia|].
  exists (with_rasters
            (with_rasters p map' age' (segment p) (seg_data p)
               (mass p - h + (if Qltb (h + z) 0 then 0 else h + z))%Q)
            map' age' seg' sd'
            (mass p - h + (if Qltb (h + z) 0 then 0 else h + z))%Q), d'.
  split.
  { unfold addCrustByCollision, getCrust. rewrite Hidx.
    destruct (Z.ltb_spec index SIZE_MAX); [|unfold SIZE_MAX in *; lia].
    rewrite Hh. simpl. rewrite Hset. simpl.
    rewrite getMapIndex_with_rasters, Hidx.
    rewrite Hseg. simpl. rewrite Hd. simpl. fold d'. rewrite Hsd. reflexivity. }
  simpl. split; [eapply rd_wr_same; eauto|].
  split; [subst d'; simpl; apply sz_small; unfold SIZE_MAX in *; lia|].
  split; [subst d'; unfold box_contains; simpl; lia|].
  split; [subst d'; simpl; lia|].
  split; [eapply rd_wr_same; eauto|].
  intros Hold. pose proof (wr_same_value _ _ _ _ Hold Hseg) as ->.
  unfold assigned. simpl. split; [reflexivity|].
  subst d'. simpl. rewrite sz_small by (unfold SIZE_MAX in *; lia). lia.
Qed.

Lemma addCrustByCollision_counts_every_call_witness :
  exists p' d',
    addCrustByCollision (E4_B 2 4) 3 3 1 0 0 = Some p' /\
    rd (seg_data p') 0 = Some d' /\ area d' = 2 /\
    assigned p' 0 = 1%nat.
Proof.
  destruct (addCrustByCollision_counts_every_call (E4_B 2 4) 3 3 1 0 0 5 1 1
              {| x0 := 1; y0 := 1; x1 := 1; y1 := 1; area := 1; coll_count := 1 |})
    as (p' & d' & Hcall & Hd' & Harea & _ & _ & _ & Hsame).
  - reflexivity.
  - reflexivity.
  - repeat split; reflexivity.
  - reflexivity.
  - unfold SIZE_MAX. simpl. lia.
  - exists p', d'. split; [exact Hcall|]. split; [exact Hd'|].
    split; [exact Harea|]. destruct Hsame as [-> _]; reflexivity.
Defined.

(** Two calls on the same cell: the recorded area is 2, one cell is assigned. *)
Example addCrustByCollision_twice :
  exists p1 p2 d,
    addCrustByCollision
      (with_rasters (E4_B 2 4) (map (E4_B 2 4)) (age_map (E4_B 2 4))
         (replicate 16 SIZE_MAX)
         [{| x0 := 1; y0 := 1; x1 := 1; y1 := 1; area := 0; coll_count := 0 |}]
         0%Q) 3 3 1 0 0 = Some p1 /\
    addCrustByCollision p1 3 3 1 0 0 = Some p2 /\
    rd (seg_data p2) 0 = Some d /\ area d = 2 /\ assigned p2 0 = 1%nat.
Proof.
  eexists _, _, _. split; [vm_compute; reflexivity|].
  split; [vm_compute; reflexivity|].
  split; [reflexivity|]. split; reflexivity.
Qed.

(** ** Growth of the raster *)

Lemma land_mask v b :
  0 <= v < 2 ^ 64 -> Z.land v (mask b) = if b then v else 0.
Proof.
  intros Hv. destruct b.
  - change (mask true) with (Z.ones 64). rewrite Z.land_ones by lia.
    apply Z.mod_small. exact Hv.
  - change (mask false) with 0. apply Z.land_0_r.
Qed.

Lemma scale8_spec d :
  0 <= d < 2 ^ 32 ->
  (8 | scale8 d) /\ 0 <= scale8 d <= d + 8 /\ (d = 0 -> scale8 d = 0).
Proof.
  intros Hd. unfold scale8.
  rewrite Z.shiftr_div_pow2, Z.shiftl_mul_pow2 by lia.
  change (2 ^ 3) with 8.
  assert (Hq : 0 <= d / 8 <= d) by (split; [apply Z.div_pos; lia | apply Z.div_le_upper_bound; lia]).
  assert (Hb : 0 <= Z.b2z (0 <? d) <= 1) by (destruct (0 <? d); simpl; lia).
  rewrite (sz_small (Z.b2z (0 <? d) + d / 8)) by lia.
  rewrite sz_small by lia.
  split; [exists (Z.b2z (0 <? d) + d / 8); lia|].
  split.
  - pose proof (Z.mul_div_le d 8). lia.
  - intros ->. reflexivity.
Qed.

(** One axis of [grow_distances]: the two distances after masking, scaling
    and clamping against the world's side [W], for a raster of side [w]. *)
Lemma grow_axis (W w a b : Z) (c1 c2 c3 c4 : bool) (g1 g2 : Z) :
  0 < W < 2 ^ 32 -> 0 <= w <= W ->
  0 <= a < 2 ^ 64 -> 0 <= b < 2 ^ 64 ->
  (c3 = true -> a < W) -> (c4 = true -> b < W) ->
  (if W <? sz (sz (w + scale8 (Z.land (Z.land a (mask c1)) (mask c3)))
               + scale8 (Z.land (Z.land b (mask c2)) (mask c4)))
   then (0, sz (W - w))
   else (scale8 (Z.land (Z.land a (mask c1)) (mask c3)),
         scale8 (Z.land (Z.land b (mask c2)) (mask c4)))) = (g1, g2) ->
  0 <= g1 /\ 0 <= g2 /\ w + g1 + g2 <= W /\
  ((8 | g1 + g2) \/ w + g1 + g2 = W).
Proof.
  intros HW Hw Ha Hb Hc3 Hc4.
  assert (Hda : 0 <= Z.land (Z.land a (mask c1)) (mask c3) < 2 ^ 32).
  { rewrite (land_mask a c1) by lia. destruct c1, c3;
      rewrite land_mask by lia; try lia; specialize (Hc3 eq_refl); lia. }
  assert (Hdb : 0 <= Z.land (Z.land b (mask c2)) (mask c4) < 2 ^ 32).
  { rewrite (land_mask b c2) by lia. destruct c2, c4;
      rewrite land_mask by lia; try lia; specialize (Hc4 eq_refl); lia. }
  destruct (scale8_spec _ Hda) as ((ka & Hka) & Hra & _).
  destruct (scale8_spec _ Hdb) as ((kb & Hkb) & Hrb & _).
  revert Hka Hkb Hra Hrb.
  generalize (scale8 (Z.land (Z.land a (mask c1)) (mask c3))) as da.
  generalize (scale8 (Z.land (Z.land b (mask c2)) (mask c4))) as db.
  intros db da Hka Hkb Hra Hrb.
  rewrite (sz_small (w + da)) by lia. rewrite (sz_small (w + da + db)) by lia.
  destruct (Z.ltb_spec W (w + da + db)); intros Heq; injection Heq as <- <-.
  - rewrite sz_small by lia. lia.
  - repeat split; try lia. left. exists (ka + kb). lia.
Qed.

Lemma grow_distances_spec p x y dl dr dt db :
  fits_world p ->
  grow_distances p x y = (dl, dr, dt, db) ->
  (0 <= dl /\ 0 <= dr /\ width p + dl + dr <= getWidth (_worldDimension p) /\
   ((8 | dl + dr) \/ width p + dl + dr = getWidth (_worldDimension p))) /\
  (0 <= dt /\ 0 <= db /\ height p + dt + db <= getHeight (_worldDimension p) /\
   ((8 | dt + db) \/ height p + dt + db = getHeight (_worldDimension p))).
Proof.
  intros (HW & HH & Hw & Hh). unfold grow_distances. cbv zeta.
  match goal with
  | |- (let '(_, _) := ?e1 in let '(_, _) := ?e2 in _) = _ -> _ =>
    destruct e1 as [g1 g2] eqn:E1; destruct e2 as [g3 g4] eqn:E2
  end.
  intros Heq. injection Heq as <- <- <- <-.
  split.
  - eapply grow_axis; [exact HW | exact Hw | apply sz_range | apply sz_range
                       | | | exact E1]; intros Hc; apply Z.ltb_lt in Hc; exact Hc.
  - eapply grow_axis; [exact HH | exact Hh | apply sz_range | apply sz_range
                       | | | exact E2]; intros Hc; apply Z.ltb_lt in Hc; exact Hc.
Qed.

(** The dimensions after the growth path. *)
Lemma grow_dimensions p x y z p' :
  fits_world p ->
  grow p x y z = Some p' ->
  _worldDimension p' = _worldDimension p /\
  exists dl dr dt db,
    grow_distances p (wrapX (_worldDimension p) x) (wrapY (_worldDimension p) y)
      = (dl, dr, dt, db) /\
    width p' = width p + dl + dr /\ height p' = height p + dt + db.
Proof.
  intros Hfit. unfold grow, normalize.
  destruct (negb (Qltb 0 z)); [discriminate|].
  destruct (grow_distances p _ _) as [[[dl dr] dt] db] eqn:Hg.
  destruct (grow_distances_spec _ _ _ _ _ _ _ Hfit Hg)
    as ((Hl & Hr & Hwb & _) & (Ht & Hb & Hhb & _)).
  destruct Hfit as (HW & HH & Hw & Hh).
  destruct (sz (dl + dr + dt + db) =? 0); [discriminate|].
  destruct (copy_rows _ _ _ _ _) as [[[tmph tmpa] tmps]|]; [|discriminate].
  simpl. intros Heq. injection Heq as <-. simpl.
  split; [reflexivity|]. exists dl, dr, dt, db. split; [reflexivity|].
  rewrite (sz_small (dl + dr)), (sz_small (dt + db)) by lia.
  rewrite !sz_small by lia. lia.
Qed.

(** What [setCrust] does to the dimensions: nothing inside the raster, the
    growth distances outside. *)
Lemma setCrust_dimensions p x y z t p' :
  fits_world p ->
  setCrust p x y z t = Some p' ->
  _worldDimension p' = _worldDimension p /\
  ((width p' = width p /\ height p' = height p) \/
   exists dl dr dt db,
     grow_distances p (wrapX (_worldDimension p) x) (wrapY (_worldDimension p) y)
       = (dl, dr, dt, db) /\
     width p' = width p + dl + dr /\ height p' = height p + dt + db).
Proof.
  intros Hfit. unfold setCrust.
  destruct (getMapIndex p x y) as [[index lx] ly].
  destruct (sz (width p * height p) <=? index).
  - destruct (grow p x y _) as [p1|] eqn:Hg; simpl; [|discriminate].
    destruct (grow_dimensions _ _ _ _ _ Hfit Hg) as (HW & Hd).
    destruct (getMapIndex p1 x y) as [[index' lx'] ly'].
    destruct (index' <? sz (width p1 * height p1)); simpl; [|discriminate].
    destruct (rd (map p1) index') as [h|]; simpl; [|discriminate].
    destruct (rd (age_map p1) index') as [a|]; simpl; [|discriminate].
    destruct (wr (age_map p1) index' _) as [age'|]; simpl; [|discriminate].
    destruct (wr (map p1) index' _) as [map'|]; simpl; [|discriminate].
    intros Heq. injection Heq as <-. simpl. split; [exact HW|]. right. exact Hd.
  - simpl.
    destruct (rd (map p) index) as [h|]; simpl; [|discriminate].
    destruct (rd (age_map p) index) as [a|]; simpl; [|discriminate].
    destruct (wr (age_map p) index _) as [age'|]; simpl; [|discriminate].
    destruct (wr (map p) index _) as [map'|]; simpl; [|discriminate].
    intros Heq. injection Heq as <-. simpl. auto.
Qed.

(** C7, as stated, fails: a 2 x 2 plate at (3,3) in the 8 x 8 world, asked
    for crust at (2,2), grows by 6 cells in each dimension. *)
Lemma setCrust_growth_not_multiple_of_8 :
  exists p', setCrust (E4_B 3 2) 2 2 1 0 = Some p' /\
    width (E4_B 3 2) < width p' /\
    ~ (8 | width p' - width (E4_B 3 2)).
Proof.
  eexists. split; [vm_compute; reflexivity|]. simpl.
  split; [lia|]. intros [k Hk]. lia.
Qed.

(** C7, amended: across every [setCrust] call on a plate that fits in its
    world the raster never shrinks; a dimension that grows increases by a
    multiple of 8 cells or, when that would pass the world's side, by what is
    left up to it, so that it becomes the world's side; and the grown size
    satisfies w + dLeft + dRight <= W and h + dTop + dBottom <= H. *)
Theorem setCrust_growth (p p' : plate) (x y : Z) (z : Q) (t : Z) :
  fits_world p ->
  setCrust p x y z t = Some p' ->
  let W := getWidth (_worldDimension p) in
  let H := getHeight (_worldDimension p) in
  exists dLeft dRight dTop dBottom,
    0 <= dLeft /\ 0 <= dRight /\ 0 <= dTop /\ 0 <= dBottom /\
    width p' = width p + dLeft + dRight /\
    height p' = height p + dTop + dBottom /\
    width p + dLeft + dRight <= W /\ height p + dTop + dBottom <= H /\
    ((8 | width p' - width p) \/ width p' = W) /\
    ((8 | height p' - height p) \/ height p' = H).
Proof.
  intros Hfit Hset W H.
  destruct (setCrust_dimensions _ _ _ _ _ _ Hfit Hset)
    as (_ & [[Hw Hh] | (dl & dr & dt & db & Hg & Hw & Hh)]).
  - destruct Hfit as (_ & _ & Hfw & Hfh).
    exists 0, 0, 0, 0. rewrite Hw, Hh, !Z.add_0_r, !Z.sub_diag.
    repeat split; try lia; left; exists 0; lia.
  - destruct (grow_distances_spec _ _ _ _ _ _ _ Hfit Hg)
      as ((Hl & Hr & Hwb & Hw8) & (Ht & Hb & Hhb & Hh8)).
    exists dl, dr, dt, db. rewrite Hw, Hh.
    replace (width p + dl + dr - width p) with (dl + dr) by lia.
    replace (height p + dt + db - height p) with (dt + db) by lia.
    repeat split; try assumption.
Qed.

Lemma setCrust_growth_witness :
  exists p', setCrust (E4_B 3 2) 2 2 1 0 = Some p' /\
    width (E4_B 3 2) <= width p' <= 8 /\ height (E4_B 3 2) <= height p' <= 8 /\
    ((8 | width p' - width (E4_B 3 2)) \/ width p' = 8).
Proof.
  destruct (setCrust (E4_B 3 2) 2 2 1 0) as [p'|] eqn:Hs;
    [|vm_compute in Hs; discriminate Hs].
  exists p'. split; [reflexivity|].
  destruct (setCrust_growth (E4_B 3 2) p' 2 2 1 0)
    as (dl & dr & dt & db & Hl & Hr & Ht & Hb & Hw & Hh & Hwb & Hhb & Hw8 & _).
  - unfold fits_world. simpl. lia.
  - exact Hs.
  - simpl in *. split; [lia|]. split; [lia|]. exact Hw8.
Defined.

(** ** Sums of rasters *)

Lemma Qsum_insert (l : list Q) (i : nat) (old v : Q) :
  l !! i = Some old -> (Qsum (<[i := v]> l) == Qsum l - old + v)%Q.
Proof.
  revert i. induction l as [|a l IH]; intros [|i] Hl; try discriminate.
  - injection Hl as ->. simpl. ring.
  - simpl in *. rewrite (IH i Hl). ring.
Qed.

Lemma Qsum_wr (a a' : list Q) i old v :
  rd a i = Some old -> wr a i v = Some a' ->
  (Qsum a' == Qsum a - old + v)%Q.
Proof.
  unfold rd, wr. destruct (Z.leb_spec 0 i); simpl; [|discriminate].
  intros Hr. destruct (i <? Z.of_nat (length a)); [|discriminate].
  intros Heq. injection Heq as <-. apply Qsum_insert. exact Hr.
Qed.

Lemma Qsum_add_at (a a' : list Q) i v :
  add_at a i v = Some a' ->
  (Qsum a' == Qsum a + v)%Q /\ length a' = length a.
Proof.
  unfold add_at. destruct (rd a i) as [old|] eqn:Hr; simpl; [|discriminate].
  intros Hw. split.
  - rewrite (Qsum_wr _ _ _ _ _ Hr Hw). ring.
  - eapply wr_length; eauto.
Qed.

Lemma Qsum_replicate_0 n : (Qsum (replicate n 0%Q) == 0)%Q.
Proof. induction n as [|n IH]; simpl; [reflexivity|]. rewrite IH. ring. Qed.

Lemma b2q_cases b : b2q b = 0%Q \/ b2q b = 1%Q.
Proof. destruct b; auto. Qed.

(** ** Erosion: the redistribution conserves the sum of [tmp] *)

Lemma filter_height m here msk :
  filtered here (m * inject_Z (Z.land (mask msk) (Z.b2z (Qltb m here))))%Q.
Proof.
  unfold filtered. destruct (Qltb m here) eqn:Hlt.
  - destruct msk.
    + right. change (Z.land (mask true) (Z.b2z true)) with 1.
      apply Qltb_lt in Hlt. change (inject_Z 1) with 1%Q.
      assert (E : (m * 1 == m)%Q) by ring. rewrite E. exact Hlt.
    + left. change (Z.land (mask false) (Z.b2z true)) with 0.
      change (inject_Z 0) with 0%Q. ring.
  - left. simpl Z.b2z. rewrite Z.land_0_r. change (inject_Z 0) with 0%Q. ring.
Qed.

Lemma calculateCrust_filtered p x y index cr here :
  calculateCrust p x y index = Some cr ->
  rd (map p) index = Some here ->
  filtered here (w_crust cr) /\ filtered here (e_crust cr) /\
  filtered here (n_crust cr) /\ filtered here (s_crust cr).
Proof.
  unfold calculateCrust. cbv zeta. intros Hc Hh. rewrite Hh in Hc. simpl in Hc.
  repeat match type of Hc with
  | context [rd (map p) ?i] =>
    destruct (rd (map p) i); simpl in Hc; [|discriminate Hc]
  end.
  injection Hc as <-. simpl. repeat split; apply filter_height.
Qed.

Ltac bind_step H t E :=
  match type of H with
  | (mbind _ ?o) = Some _ =>
    destruct o as [t|] eqn:E; [cbn [mbind option_bind] in H | discriminate H]
  end.

Lemma min_step_nonneg (m e : Q) :
  (0 <= m -> 0 <= e -> 0 <= m - (m - e) * b2q (Qltb e m))%Q.
Proof.
  intros Hm He. destruct (Qltb e m); unfold b2q; simpl Z.b2z.
  - change (inject_Z 1) with 1%Q. lra.
  - change (inject_Z 0) with 0%Q. lra.
Qed.

Lemma diff_nonneg here c : (0 <= here)%Q -> filtered here c -> (0 <= here - c)%Q.
Proof. intros Hh [Hz | Hlt]; [rewrite Hz|]; lra. Qed.

Lemma div_mul_back (m D : Q) : (0 <= m -> m <= D -> m / D * D == m)%Q.
Proof.
  intros Hm HD. destruct (Qeq_dec D 0) as [Hz | Hnz].
  - assert (Hm0 : (m == 0)%Q) by lra. rewrite Hz, Hm0. reflexivity.
  - field. exact Hnz.
Qed.

Lemma spread_all (S m u a1 f1 a2 f2 a3 f3 a4 f4 : Q) :
  (u * (a1 * f1 + a2 * f2 + a3 * f3 + a4 * f4) == m ->
   S + - m + u * a1 * f1 + u * a2 * f2 + u * a3 * f3 + u * a4 * f4 == S)%Q.
Proof. intros Hu. rewrite <- Hu. ring. Qed.

Lemma redistribute_conserves here cr index tmp tmp' :
  (0 <= here)%Q ->
  filtered here (w_crust cr) -> filtered here (e_crust cr) ->
  filtered here (n_crust cr) -> filtered here (s_crust cr) ->
  redistribute here cr index tmp = Some tmp' ->
  (Qsum tmp' == Qsum tmp)%Q /\ length tmp' = length tmp.
Proof.
  intros Hh Fw Fe Fn Fs. unfold redistribute. cbv zeta.
  pose proof (diff_nonneg _ _ Hh Fw) as Dw. pose proof (diff_nonneg _ _ Hh Fe) as De.
  pose proof (diff_nonneg _ _ Hh Fn) as Dn. pose proof (diff_nonneg _ _ Hh Fs) as Ds.
  remember (here - w_crust cr)%Q as dw. remember (here - e_crust cr)%Q as de.
  remember (here - n_crust cr)%Q as dn. remember (here - s_crust cr)%Q as ds.
  pose proof (min_step_nonneg _ _ Dw De) as M1.
  remember (dw - (dw - de) * b2q (Qltb de dw))%Q as m1.
  pose proof (min_step_nonneg _ _ M1 Dn) as M2.
  remember (m1 - (m1 - dn) * b2q (Qltb dn m1))%Q as m2.
  pose proof (min_step_nonneg _ _ M2 Ds) as M3.
  remember (m2 - (m2 - ds) * b2q (Qltb ds m2))%Q as m.
  destruct (b2q_cases (Qltb 0 (w_crust cr))) as [Bw | Bw];
  destruct (b2q_cases (Qltb 0 (e_crust cr))) as [Be | Be];
  destruct (b2q_cases (Qltb 0 (n_crust cr))) as [Bn | Bn];
  destruct (b2q_cases (Qltb 0 (s_crust cr))) as [Bs | Bs];
  rewrite Bw, Be, Bn, Bs; clear Bw Be Bn Bs;
  match goal with
  | |- context [negb (Qle_bool 0 ?s)] => remember s as dsum
  end;
  (destruct (Qle_bool 0 dsum) eqn:Hpos; simpl negb; cbv iota; [|discriminate]);
  apply Qle_bool_iff in Hpos;
  (destruct (Qltb dsum m) eqn:Hcase; intros Hr;
   [ apply Qltb_lt in Hcase | apply Qltb_ge in Hcase ]).
  all: repeat (let t := fresh "t" in let E := fresh "E" in bind_step Hr t E).
  all: repeat match goal with
       | E : add_at _ _ _ = Some _ |- _ =>
         apply Qsum_add_at in E; destruct E as [? ?]
       end.
  all: split; [|congruence].
  all: repeat match goal with
       | E : (Qsum ?a == _)%Q |- context [Qsum ?a] => rewrite E; clear E
       end.
  all: subst dsum.
  all: try (field; lra).
  all: apply spread_all; apply div_mul_back; assumption.
Qed.

Lemma erode_body_inv p lower_bound st c st' :
  (0 <= lower_bound)%Q ->
  erode_body p lower_bound st c = Some st' ->
  (Qsum (es_tmp st) == es_mass st)%Q ->
  (Qsum (es_tmp st') == es_mass st')%Q /\
  length (es_tmp st') = length (es_tmp st).
Proof.
  intros Hlb Hb Hinv. unfold erode_body in Hb. destruct c as [x y].
  cbv zeta in Hb.
  destruct (rd (map p) _) as [here|] eqn:Hh; cbn [mbind option_bind] in Hb;
    [|discriminate Hb].
  destruct (add_at (es_tmp st) _ here) as [tmp|] eqn:Ha;
    cbn [mbind option_bind] in Hb; [|discriminate Hb].
  apply Qsum_add_at in Ha. destruct Ha as [Hs Hl].
  destruct (Qltb here lower_bound) eqn:Hlow.
  { injection Hb as <-. simpl. rewrite Hs, Hinv. split; [reflexivity | exact Hl]. }
  apply Qltb_ge in Hlow.
  destruct (calculateCrust p x y _) as [cr|] eqn:Hc;
    cbn [mbind option_bind] in Hb; [|discriminate Hb].
  destruct (Qeqb _ 0).
  { injection Hb as <-. simpl. rewrite Hs, Hinv. split; [reflexivity | exact Hl]. }
  destruct (redistribute here cr _ tmp) as [tmp'|] eqn:Hr;
    cbn [mbind option_bind] in Hb; [|discriminate Hb].
  injection Hb as <-. simpl.
  destruct (calculateCrust_filtered _ _ _ _ _ _ Hc Hh) as (Fw & Fe & Fn & Fs).
  destruct (redistribute_conserves here cr _ tmp tmp' ltac:(lra) Fw Fe Fn Fs Hr)
    as [Hs' Hl'].
  rewrite Hs', Hs, Hinv. split; [reflexivity | congruence].
Qed.

Lemma memcpy_whole {A} (dst src r : list A) n :
  memcpy dst 0 src 0 n = Some r ->
  r = take (Z.to_nat n) src ++ drop (Z.to_nat n) dst /\
  0 <= n /\ n <= Z.of_nat (length dst) /\ n <= Z.of_nat (length src).
Proof.
  unfold memcpy. destruct (_ && _) eqn:Hc; [|discriminate].
  intros Heq. injection Heq as <-.
  rewrite !andb_true_iff in Hc. destruct Hc as ((((_ & _) & H1) & H2) & H3).
  apply Z.leb_le in H1, H2, H3. rewrite Z.add_0_l in *.
  change (Z.to_nat 0) with O. rewrite drop_0. auto.
Qed.

(** After [erode] the mass field is the sum of the height raster. *)
Lemma erode_mass p lower_bound p' :
  (0 <= lower_bound)%Q ->
  erode p lower_bound = Some p' ->
  (mass p' == Qsum (map p'))%Q.
Proof.
  intros Hlb. unfold erode. cbv zeta.
  set (n := sz (width p * height p)).
  destruct (memcpy (replicate (Z.to_nat n) 0%Q) 0 (map p) 0 _) as [tmp0|] eqn:M0;
    cbn [mbind option_bind]; [|discriminate].
  apply memcpy_whole in M0. destruct M0 as (_ & _ & Hlen0 & _).
  rewrite length_replicate in Hlen0.
  destruct (for_each (tops_body p lower_bound) _ []) as [sources|];
    cbn [mbind option_bind]; [|discriminate].
  destruct (river _ p lower_bound sources _ tmp0) as [tmp1|];
    cbn [mbind option_bind]; [|discriminate].
  destruct (for_each noise_body _ _) as [[g tmp2]|];
    cbn [mbind option_bind]; [|discriminate].
  destruct (memcpy (map p) 0 tmp2 0 n) as [map'|] eqn:M1;
    cbn [mbind option_bind]; [|discriminate].
  apply memcpy_whole in M1. destruct M1 as (-> & Hn & Hlen1 & Hlen2).
  match goal with
  | |- context [for_each (erode_body ?p1 _) ?cs ?s0] =>
    destruct (for_each (erode_body p1 lower_bound) cs s0) as [st|] eqn:Hloop;
      cbn [mbind option_bind]; [|discriminate]
  end.
  assert (Hst : (Qsum (es_tmp st) == es_mass st)%Q /\
                length (es_tmp st) = Z.to_nat n).
  { refine (for_each_inv
              (fun s => (Qsum (es_tmp s) == es_mass s)%Q /\
                        length (es_tmp s) = Z.to_nat n) _ _ _ _ _ _ Hloop).
    - simpl. rewrite Qsum_replicate_0, length_replicate. split; reflexivity.
    - intros c s0 s1 _ [Hs Hl] Hb.
      destruct (erode_body_inv _ _ _ _ _ Hlb Hb Hs) as [Hs1 Hl1].
      split; [exact Hs1 | congruence]. }
  destruct Hst as [Hsum Hlen].
  simpl map.
  destruct (memcpy _ 0 (es_tmp st) 0 n) as [map''|] eqn:M2;
    cbn [mbind option_bind]; [|discriminate].
  apply memcpy_whole in M2. destruct M2 as (-> & _ & _ & _).
  intros Heq. injection Heq as <-.
  assert (Hfinal : take (Z.to_nat n) (es_tmp st)
                   ++ drop (Z.to_nat n)
                        (take (Z.to_nat n) tmp2 ++ drop (Z.to_nat n) (map p))
                   = es_tmp st).
  { rewrite take_ge by lia. rewrite drop_ge; [apply app_nil_r|].
    rewrite length_app, length_take, length_drop. lia. }
  destruct (Qltb 0 (es_mass st)); simpl; rewrite Hfinal, Hsum; reflexivity.
Qed.

Lemma move_keeps_rasters `{Platform} p p' :
  move p = Some p' -> mass p' = mass p /\ map p' = map p.
Proof.
  unfold move. intros Hm.
  destruct (negb (world_contains _ (left p) (top p))); [discriminate|].
  match type of Hm with (if negb ?c then _ else _) = _ => destruct c end;
    [|discriminate].
  injection Hm as <-. split; reflexivity.
Qed.

Lemma resetSegments_keeps_rasters p p' :
  resetSegments p = Some p' -> mass p' = mass p /\ map p' = map p.
Proof.
  unfold resetSegments. destruct (memset _ _ _); simpl; [|discriminate].
  intros Heq. injection Heq as <-. split; reflexivity.
Qed.

(** C4: after any sequence of [move], [erode] (with a lower bound that is not
    negative) and [resetSegments] calls on a plate whose mass field is the sum
    of its height raster, the mass field is again that sum, exactly; and
    [erode] alone makes it so on any plate, because it recomputes the mass
    from the noised raster and its redistribution adds to the lower
    neighbours exactly what it removes from each cell. *)
Theorem mass_is_sum_of_heights `{Platform} (ops : list plate_op) (p p' : plate) :
  (forall lower_bound, OpErode lower_bound ∈ ops -> (0 <= lower_bound)%Q) ->
  run_ops ops p = Some p' ->
  ((mass p == Qsum (map p))%Q -> (mass p' == Qsum (map p'))%Q) /\
  (forall q lower_bound q',
     (0 <= lower_bound)%Q -> erode q lower_bound = Some q' ->
     (mass q' == Qsum (map q'))%Q).
Proof.
  intros Hlb Hrun. split; [|intros q lb q'; apply erode_mass].
  intros Hinv. unfold run_ops in Hrun.
  refine (for_each_inv (fun s => (mass s == Qsum (map s))%Q) _ _ _ _ Hinv _ Hrun).
  intros o s0 s1 Hin Hs Hop. destruct o as [|lb|]; simpl in Hop.
  - destruct (move_keeps_rasters _ _ Hop) as [-> ->]. exact Hs.
  - apply (erode_mass _ _ _ (Hlb lb Hin) Hop).
  - destruct (resetSegments_keeps_rasters _ _ Hop) as [-> ->]. exact Hs.
Qed.

Lemma mass_is_sum_of_heights_witness :
  exists p',
    run_ops (H := example_platform)
      [OpErode 0; OpMove; OpResetSegments; OpErode (1 # 2)]
      (E5_plate 3 3 (fun n => Z.of_nat n * 1000000007)) = Some p' /\
    (mass p' == Qsum (map p'))%Q.
Proof.
  destruct (run_ops (H := example_platform) _ _) as [p'|] eqn:Hrun;
    [|vm_compute in Hrun; discriminate Hrun].
  exists p'. split; [reflexivity|].
  refine (proj1 (mass_is_sum_of_heights (H := example_platform) _ _ _ _ Hrun) _).
  - intros lb Hin. repeat (apply elem_of_cons in Hin as [Hin | Hin];
      [try discriminate Hin; injection Hin as ->; lra|]).
    apply elem_of_nil in Hin. contradiction.
  - reflexivity.
Defined.

(** ** Cells and their indices *)

Lemma rows_lookup (w : Z) (n : nat) (m : Z) (k : nat) (x y : Z) :
  0 <= w ->
  (seqZ m (Z.of_nat n) ≫= (fun y => (fun x => (x, y)) <$> seqZ 0 w)) !! k
    = Some (x, y) ->
  Z.of_nat k = (y - m) * w + x /\ 0 <= x < w.
Proof.
  intros Hw. revert m k. induction n as [|n IH]; intros m k Hk.
  - simpl in Hk. discriminate.
  - rewrite (seqZ_cons m) in Hk by lia. rewrite bind_cons in Hk.
    replace (Z.pred (Z.of_nat (Datatypes.S n))) with (Z.of_nat n) in Hk by lia.
    destruct (decide (k < Z.to_nat w)%nat) as [Hlt | Hge].
    + rewrite lookup_app_l in Hk by (rewrite length_fmap, length_seqZ; lia).
      rewrite list_lookup_fmap in Hk.
      rewrite lookup_seqZ_lt in Hk by lia. simpl in Hk.
      injection Hk as <- <-. lia.
    + rewrite lookup_app_r in Hk by (rewrite length_fmap, length_seqZ; lia).
      rewrite length_fmap, length_seqZ in Hk.
      apply IH in Hk. lia.
Qed.

Lemma cells_lookup w h k x y :
  0 <= w -> 0 <= h ->
  cells w h !! k = Some (x, y) ->
  Z.of_nat k = y * w + x /\ 0 <= x < w /\ 0 <= y < h.
Proof.
  intros Hw Hh Hk. unfold cells in Hk.
  assert (Hin : (x, y) ∈ cells w h) by (eapply list_elem_of_lookup_2; exact Hk).
  apply cells_elem in Hin.
  replace h with (Z.of_nat (Z.to_nat h)) in Hk by lia.
  apply rows_lookup in Hk; [|exact Hw]. lia.
Qed.

Lemma cell_index w h x y :
  0 < w < 2 ^ 32 -> 0 < h < 2 ^ 32 -> 0 <= x < w -> 0 <= y < h ->
  sz (sz (y * w) + x) = y * w + x /\ 0 <= y * w + x < w * h.
Proof.
  intros Hw Hh Hx Hy.
  assert (0 <= y * w + x < w * h) by nia.
  assert (w * h < 2 ^ 64) by nia.
  rewrite (sz_small (y * w)) by nia. rewrite sz_small by lia. auto.
Qed.

Lemma mask_is_ones b : (mask b =? SIZE_MAX) = b.
Proof. destruct b; reflexivity. Qed.

Lemma neighbour_lo W w x :
  0 < W < 2 ^ 32 -> 0 < w <= W -> 0 <= x < w ->
  0 <= (if mask ((0 <? x) || (w =? W)) =? SIZE_MAX
        then sz (sz (x - 1) + W) mod W else 0) < w.
Proof.
  intros HW Hw Hx. rewrite mask_is_ones.
  destruct (Z.eqb_spec w W) as [-> | Hne].
  - rewrite orb_true_r. apply Z.mod_pos_bound. lia.
  - rewrite orb_false_r. destruct (Z.ltb_spec 0 x); [|lia].
    rewrite (sz_small (x - 1)) by lia. rewrite sz_small by lia.
    replace (x - 1 + W) with (x - 1 + 1 * W) by lia.
    rewrite Z.mod_add by lia. rewrite Z.mod_small by lia. lia.
Qed.

Lemma neighbour_hi W w x :
  0 < W < 2 ^ 32 -> 0 < w <= W -> 0 <= x < w ->
  0 <= (if mask ((x <? sz (w - 1)) || (w =? W)) =? SIZE_MAX
        then sz (sz (x + 1) + W) mod W else 0) < w.
Proof.
  intros HW Hw Hx. rewrite mask_is_ones.
  destruct (Z.eqb_spec w W) as [-> | Hne].
  - rewrite orb_true_r. apply Z.mod_pos_bound. lia.
  - rewrite orb_false_r. rewrite (sz_small (w - 1)) by lia.
    destruct (Z.ltb_spec x (w - 1)); [|lia].
    rewrite (sz_small (x + 1)) by lia. rewrite sz_small by lia.
    replace (x + 1 + W) with (x + 1 + 1 * W) by lia.
    rewrite Z.mod_add by lia. rewrite Z.mod_small by lia. lia.
Qed.

(** On a well-formed plate [calculateCrust] reads inside the raster. *)
Lemma calculateCrust_total p x y :
  plate_wf p -> 0 <= x < width p -> 0 <= y < height p ->
  exists cr, calculateCrust p x y (y * width p + x) = Some cr /\
    0 <= w_idx cr < width p * height p /\ 0 <= e_idx cr < width p * height p /\
    0 <= n_idx cr < width p * height p /\ 0 <= s_idx cr < width p * height p.
Proof.
  intros ((HW & HH & Hw & Hh) & (Hm & _ & _) & Hw0 & Hh0) Hx Hy.
  unfold calculateCrust, xMod, yMod. cbv zeta.
  pose proof (neighbour_lo _ _ _ HW (conj Hw0 (proj2 Hw)) Hx) as Nw.
  pose proof (neighbour_hi _ _ _ HW (conj Hw0 (proj2 Hw)) Hx) as Ne.
  pose proof (neighbour_lo _ _ _ HH (conj Hh0 (proj2 Hh)) Hy) as Nn.
  pose proof (neighbour_hi _ _ _ HH (conj Hh0 (proj2 Hh)) Hy) as Ns.
  revert Nw Ne Nn Ns.
  generalize (if mask ((0 <? x) || (width p =? getWidth (_worldDimension p))) =? SIZE_MAX
              then sz (sz (x - 1) + getWidth (_worldDimension p))
                   mod getWidth (_worldDimension p) else 0) as xw.
  generalize (if mask ((x <? sz (width p - 1)) || (width p =? getWidth (_worldDimension p))) =? SIZE_MAX
              then sz (sz (x + 1) + getWidth (_worldDimension p))
                   mod getWidth (_worldDimension p) else 0) as xe.
  generalize (if mask ((0 <? y) || (height p =? getHeight (_worldDimension p))) =? SIZE_MAX
              then sz (sz (y - 1) + getHeight (_worldDimension p))
                   mod getHeight (_worldDimension p) else 0) as yn.
  generalize (if mask ((y <? sz (height p - 1)) || (height p =? getHeight (_worldDimension p))) =? SIZE_MAX
              then sz (sz (y + 1) + getHeight (_worldDimension p))
                   mod getHeight (_worldDimension p) else 0) as ys.
  intros ys yn xe xw Nw Ne Nn Ns.
  assert (Hwb : 0 < width p < 2 ^ 32) by lia.
  assert (Hhb : 0 < height p < 2 ^ 32) by lia.
  destruct (cell_index _ _ x y Hwb Hhb Hx Hy) as [_ I0].
  destruct (cell_index _ _ xw y Hwb Hhb Nw Hy) as [-> I1].
  destruct (cell_index _ _ xe y Hwb Hhb Ne Hy) as [-> I2].
  destruct (cell_index _ _ x yn Hwb Hhb Hx Nn) as [-> I3].
  destruct (cell_index _ _ x ys Hwb Hhb Hx Ns) as [-> I4].
  destruct (rd_Some (map p) (y * width p + x)) as [v0 ->]; [lia|].
  destruct (rd_Some (map p) (y * width p + xw)) as [v1 ->]; [lia|].
  destruct (rd_Some (map p) (y * width p + xe)) as [v2 ->]; [lia|].
  destruct (rd_Some (map p) (yn * width p + x)) as [v3 ->]; [lia|].
  destruct (rd_Some (map p) (ys * width p + x)) as [v4 ->]; [lia|].
  cbn [mbind option_bind]. eexists. split; [reflexivity|]. simpl. lia.
Qed.

(** ** Erosion of a single peak *)

Lemma rd_val (a : list Q) i v : rd a i = Some v -> val a (Z.to_nat i) = v.
Proof.
  unfold rd, val. destruct (0 <=? i); [|discriminate]. intros ->. reflexivity.
Qed.

Lemma filter_zero m here msk :
  ((m == 0)%Q \/ ~ (m < here)%Q) ->
  (m * inject_Z (Z.land (mask msk) (Z.b2z (Qltb m here))) == 0)%Q.
Proof.
  intros [Hz | Hn].
  - generalize (inject_Z (Z.land (mask msk) (Z.b2z (Qltb m here)))).
    intros X. rewrite Hz. ring.
  - destruct (Qltb m here) eqn:Hlt; [apply Qltb_lt in Hlt; contradiction|].
    simpl Z.b2z. rewrite Z.land_0_r. change (inject_Z 0) with 0%Q. ring.
Qed.

Lemma single_peak_neighbour m c i k here mk :
  single_peak m c -> rd m i = Some here -> rd m k = Some mk ->
  (mk == 0)%Q \/ ~ (mk < here)%Q.
Proof.
  intros [Hc Hflat] Hi Hk. apply rd_val in Hi, Hk.
  destruct (decide (Z.to_nat k = c)) as [Hkc | Hkc].
  - right. destruct (decide (Z.to_nat i = c)) as [Hic | Hic].
    + rewrite <- Hi, <- Hk, Hkc, Hic. apply Qlt_irrefl.
    + specialize (Hflat _ Hic). rewrite Hi in Hflat.
      rewrite Hkc in Hk. rewrite Hk in Hc. rewrite Hflat. lra.
  - left. specialize (Hflat _ Hkc). rewrite Hk in Hflat. exact Hflat.
Qed.

Lemma calculateCrust_flat p x y index cr c :
  single_peak (map p) c ->
  calculateCrust p x y index = Some cr ->
  (w_crust cr == 0)%Q /\ (e_crust cr == 0)%Q /\
  (n_crust cr == 0)%Q /\ (s_crust cr == 0)%Q.
Proof.
  intros Hpeak. unfold calculateCrust. cbv zeta. intros Hc.
  destruct (rd (map p) index) as [here|] eqn:H0;
    cbn [mbind option_bind] in Hc; [|discriminate Hc].
  repeat match type of Hc with
  | (mbind _ (rd (map p) ?i)) = Some _ =>
    let v := fresh "v" in let E := fresh "E" in
    destruct (rd (map p) i) as [v|] eqn:E;
      cbn [mbind option_bind] in Hc; [|discriminate Hc]
  end.
  injection Hc as <-. simpl.
  repeat split; apply filter_zero; eapply single_peak_neighbour; eauto.
Qed.

Lemma val_insert (l : list Q) (i j : nat) (v : Q) :
  (i < length l)%nat ->
  val (<[i := v]> l) j = if decide (j = i) then v else val l j.
Proof.
  intros Hi. unfold val. destruct (decide (j = i)) as [-> | Hne].
  - rewrite list_lookup_insert_eq by exact Hi. reflexivity.
  - rewrite list_lookup_insert_ne by congruence. reflexivity.
Qed.

Lemma wr_val (a a' : list Q) i v j :
  wr a i v = Some a' ->
  val a' j = if decide (j = Z.to_nat i) then v else val a j.
Proof.
  unfold wr. destruct (Z.leb_spec 0 i); simpl; [|discriminate].
  destruct (Z.ltb_spec i (Z.of_nat (length a))); [|discriminate].
  intros Heq. injection Heq as <-. apply val_insert. lia.
Qed.

Lemma memcpy_full {A} (dst src : list A) n :
  Z.of_nat (length dst) = n -> Z.of_nat (length src) = n ->
  memcpy dst 0 src 0 n = Some src.
Proof.
  intros Hd Hs. unfold memcpy.
  destruct (Z.leb_spec 0 0); [|lia]. destruct (Z.leb_spec 0 n); [|lia].
  rewrite Z.add_0_l.
  destruct (Z.leb_spec n (Z.of_nat (length dst))); [|lia].
  destruct (Z.leb_spec n (Z.of_nat (length src))); [|lia]. simpl.
  change (Z.to_nat 0) with O. rewrite drop_0.
  rewrite take_ge by lia. rewrite drop_ge by lia. rewrite app_nil_r. reflexivity.
Qed.

Lemma Qeqb_zero (a : Q) : (a == 0)%Q -> Qeqb a 0 = true.
Proof. intros Ha. apply Qeq_bool_iff. exact Ha. Qed.

(** On a single peak no cell is a top: the scan leaves [sources] empty. *)
Lemma tops_single_peak p lower_bound c :
  plate_wf p -> single_peak (map p) c ->
  for_each (tops_body p lower_bound) (cells (width p) (height p)) [] = Some [].
Proof.
  intros Hwf Hpeak.
  destruct (for_each_ind (fun _ s => s = [])
              (tops_body p lower_bound) (cells (width p) (height p)) [])
    as (s & Hs & ->); [reflexivity | | exact Hs].
  intros i [x y] s0 Hi ->.
  pose proof Hwf as ((HW & HH & Hw & Hh) & (Hm & _ & _) & Hw0 & Hh0).
  apply cells_lookup in Hi; [|lia|lia]. destruct Hi as (_ & Hx & Hy).
  destruct (cell_index (width p) (height p) x y) as [Hidx Hr]; try lia.
  unfold tops_body. rewrite Hidx.
  destruct (rd_Some (map p) (y * width p + x)) as [here Hh']; [lia|].
  rewrite Hh'. cbn [mbind option_bind].
  destruct (Qltb here lower_bound); [eauto|].
  destruct (calculateCrust_total p x y Hwf Hx Hy) as (cr & Hc & _).
  rewrite Hc. cbn [mbind option_bind].
  destruct (calculateCrust_flat _ _ _ _ _ _ Hpeak Hc) as (Ew & Ee & En & Es).
  rewrite Qeqb_zero; [eauto|]. rewrite Ew. ring.
Qed.

(** The noise loop multiplies every cell by [11/10 - alpha], with [alpha]
    drawn for that cell, and draws once per cell. *)
Lemma noise_loop (g : mt19937) (tmp : list Q) :
  exists g' tmp',
    for_each noise_body (seqZ 0 (Z.of_nat (length tmp))) (g, tmp)
      = Some (g', tmp') /\
    length tmp' = length tmp /\
    draws g' = draws g /\ drawn g' = (drawn g + length tmp)%nat /\
    forall j, (j < length tmp)%nat ->
      (val tmp' j ==
       val tmp j * ((11 # 10) - noise_alpha (draws g (drawn g + j)%nat)))%Q.
Proof.
  destruct (for_each_ind
    (fun i (s : mt19937 * list Q) =>
       length (snd s) = length tmp /\ draws (fst s) = draws g /\
       drawn (fst s) = (drawn g + i)%nat /\
       forall j, (val (snd s) j ==
                  if decide (j < i)%nat
                  then val tmp j * ((11 # 10)
                                    - noise_alpha (draws g (drawn g + j)%nat))
                  else val tmp j)%Q)
    noise_body (seqZ 0 (Z.of_nat (length tmp))) (g, tmp))
    as ([g' tmp'] & Hrun & Hl & Hd & Hn & Hv).
  - simpl. repeat split; try reflexivity; try lia.
  - intros i a [g0 t0] Hi (Hl & Hd & Hn & Hv). simpl in Hl, Hd, Hn, Hv.
    assert (Hlt : (i < length tmp)%nat).
    { apply lookup_lt_Some in Hi. rewrite length_seqZ in Hi. lia. }
    rewrite lookup_seqZ_lt in Hi by lia. injection Hi as <-.
    unfold noise_body, rand_next.
    destruct (rd_Some t0 (0 + Z.of_nat i)) as [t Ht]; [lia|].
    rewrite Ht. cbn [mbind option_bind].
    match goal with |- context [wr t0 ?k ?v] =>
      destruct (wr_Some t0 k v) as (t1 & Hw & Hl1); [lia|] end.
    rewrite Hw. cbn [mbind option_bind]. eexists. split; [reflexivity|].
    simpl. split; [congruence|]. split; [exact Hd|]. split; [lia|].
    intros j. rewrite (wr_val _ _ _ _ j Hw).
    replace (Z.to_nat (0 + Z.of_nat i)) with i by lia.
    apply rd_val in Ht. replace (Z.to_nat (0 + Z.of_nat i)) with i in Ht by lia.
    destruct (decide (j = i)) as [-> | Hne].
    + destruct (decide (i < Datatypes.S i)%nat); [|lia].
      specialize (Hv i). destruct (decide (i < i)%nat); [lia|].
      rewrite Ht in Hv. rewrite Hd, Hn. unfold noise_alpha.
      rewrite <- Hv. ring.
    + specialize (Hv j).
      destruct (decide (j < i)%nat), (decide (j < Datatypes.S i)%nat);
        try lia; exact Hv.
  - exists g', tmp'. rewrite length_seqZ, Nat2Z.id in *. simpl in *.
    split; [exact Hrun|]. split; [exact Hl|]. split; [exact Hd|].
    split; [exact Hn|]. intros j Hj. specialize (Hv j).
    destruct (decide (j < length tmp)%nat); [exact Hv | lia].
Qed.

Lemma val_outside (l : list Q) j : (length l <= j)%nat -> val l j = 0%Q.
Proof. intros Hj. unfold val. rewrite lookup_ge_None_2 by exact Hj. reflexivity. Qed.

Lemma val_replicate_0 n j : (val (replicate n 0%Q) j == 0)%Q.
Proof.
  unfold val. destruct (replicate n 0%Q !! j) as [v|] eqn:Hl; simpl; [|reflexivity].
  apply lookup_replicate in Hl as [-> _]. reflexivity.
Qed.

(** On a single peak the redistribution scan hands nothing on: [tmp] ends as
    a copy of the raster. *)
Lemma redistribution_single_peak p lower_bound c :
  plate_wf p -> single_peak (map p) c ->
  exists st,
    for_each (erode_body p lower_bound) (cells (width p) (height p))
      {| es_mass := 0; es_cx := 0; es_cy := 0;
         es_tmp := replicate (Z.to_nat (width p * height p)) 0%Q |} = Some st /\
    length (es_tmp st) = Z.to_nat (width p * height p) /\
    forall j, (val (es_tmp st) j == val (map p) j)%Q.
Proof.
  intros Hwf Hpeak.
  pose proof Hwf as ((HW & HH & Hw & Hh) & (Hm & _ & _) & Hw0 & Hh0).
  destruct (for_each_ind
    (fun k st =>
       length (es_tmp st) = Z.to_nat (width p * height p) /\
       forall j, (val (es_tmp st) j ==
                  if decide (j < k)%nat then val (map p) j else 0)%Q)
    (erode_body p lower_bound) (cells (width p) (height p))
    {| es_mass := 0; es_cx := 0; es_cy := 0;
       es_tmp := replicate (Z.to_nat (width p * height p)) 0%Q |})
    as (st & Hrun & Hl & Hv).
  - simpl. rewrite length_replicate. split; [reflexivity|]. intros j.
    destruct (decide (j < 0)%nat); [lia|]. apply val_replicate_0.
  - intros k [x y] st Hk (Hl & Hv).
    apply cells_lookup in Hk; [|lia|lia]. destruct Hk as (Hkk & Hx & Hy).
    destruct (cell_index (width p) (height p) x y) as [Hidx Hr]; try lia.
    unfold erode_body. rewrite Hidx.
    destruct (rd_Some (map p) (y * width p + x)) as [here Hh']; [lia|].
    rewrite Hh'. cbn [mbind option_bind]. unfold add_at.
    destruct (rd_Some (es_tmp st) (y * width p + x)) as [old Ho]; [lia|].
    rewrite Ho. cbn [mbind option_bind].
    destruct (wr_Some (es_tmp st) (y * width p + x) (old + here)%Q)
      as (tmp' & Hw' & Hl'); [lia|].
    rewrite Hw'. cbn [mbind option_bind].
    assert (Hinv : length tmp' = Z.to_nat (width p * height p) /\
              forall j, (val tmp' j ==
                if decide (j < Datatypes.S k)%nat then val (map p) j else 0)%Q).
    { split; [congruence|]. intros j. rewrite (wr_val _ _ _ _ j Hw').
      apply rd_val in Hh', Ho.
      replace (Z.to_nat (y * width p + x)) with k in * by lia.
      specialize (Hv j).
      destruct (decide (j = k)) as [-> | Hne].
      - destruct (decide (k < Datatypes.S k)%nat); [|lia].
        destruct (decide (k < k)%nat); [lia|].
        rewrite Ho in Hv. rewrite Hv, Hh'. ring.
      - destruct (decide (j < k)%nat), (decide (j < Datatypes.S k)%nat);
          try lia; exact Hv. }
    destruct (Qltb here lower_bound); [eexists; split; [reflexivity | exact Hinv]|].
    destruct (calculateCrust_total p x y Hwf Hx Hy) as (cr & Hc & _).
    rewrite Hc. cbn [mbind option_bind].
    destruct (calculateCrust_flat _ _ _ _ _ _ Hpeak Hc) as (Ew & Ee & En & Es).
    rewrite Qeqb_zero; [eexists; split; [reflexivity | exact Hinv]|].
    rewrite Ew, Ee, En, Es. reflexivity.
  - exists st. split; [exact Hrun|]. split; [exact Hl|]. intros j.
    specialize (Hv j). rewrite cells_length in Hv by lia.
    destruct (decide (j < Z.to_nat (width p * height p))%nat); [exact Hv|].
    rewrite Hv. rewrite val_outside by lia. reflexivity.
Qed.

Lemma noise_alpha_range r : (0 <= noise_alpha r <= 2 # 10)%Q.
Proof.
  unfold noise_alpha, rand_max.
  pose proof (Z.mod_pos_bound r (2 ^ 32) ltac:(lia)) as Hr.
  set (m := r mod 2 ^ 32) in *.
  assert (H0 : (0 <= inject_Z m)%Q) by (rewrite <- (Zle_Qle 0); lia).
  assert (H1 : (inject_Z m <= inject_Z (2 ^ 32 - 1))%Q)
    by (rewrite <- Zle_Qle; lia).
  assert (Hpos : (0 < inject_Z (2 ^ 32 - 1))%Q) by reflexivity.
  split.
  - apply Qle_shift_div_l; [exact Hpos|]. lra.
  - apply Qle_shift_div_r; [exact Hpos|]. lra.
Qed.

Lemma Qsum_zero (l : list Q) : (forall j, val l j == 0)%Q -> (Qsum l == 0)%Q.
Proof.
  induction l as [|a l IH]; intros Hz; simpl; [reflexivity|].
  rewrite IH by (intros j; apply (Hz (Datatypes.S j))).
  pose proof (Hz O) as H0. unfold val in H0. simpl in H0. rewrite H0. ring.
Qed.

Lemma Qsum_single_peak (l : list Q) (c : nat) :
  (forall j, j <> c -> val l j == 0)%Q -> (Qsum l == val l c)%Q.
Proof.
  revert c. induction l as [|a l IH]; intros c Hz; [destruct c; reflexivity|].
  destruct c as [|c]; simpl.
  - rewrite Qsum_zero by (intros j; apply (Hz (Datatypes.S j)); lia).
    unfold val. simpl. ring.
  - rewrite (IH c) by (intros j Hj; apply (Hz (Datatypes.S j)); lia).
    pose proof (Hz O ltac:(lia)) as H0. unfold val in H0 |- *. simpl in *.
    rewrite H0. ring.
Qed.

(** Erosion of a well-formed plate with a single peak returns, and all it
    does to the raster is the noise: every cell is multiplied by
    [11/10 - alpha], with [alpha] drawn for the cell. *)
Lemma erode_single_peak p lower_bound c :
  plate_wf p -> single_peak (map p) c ->
  exists p',
    erode p lower_bound = Some p' /\
    length (map p') = length (map p) /\
    forall j, (j < length (map p))%nat ->
      (val (map p') j ==
       val (map p) j
       * ((11 # 10) - noise_alpha (draws (_randsource p)
                                     (drawn (_randsource p) + j)%nat)))%Q.
Proof.
  intros Hwf Hpeak.
  pose proof Hwf as ((HW & HH & Hw & Hh) & (Hm & Ha & Hs) & Hw0 & Hh0).
  assert (Hn : sz (width p * height p) = width p * height p)
    by (apply sz_small; nia).
  destruct (noise_loop (_randsource p) (map p))
    as (g' & tmp2 & Hnoise & Hl2 & _ & _ & Hv2).
  rewrite Hm in Hnoise.
  set (p1 := with_randsource
               (with_rasters p tmp2 (age_map p) (segment p) (seg_data p) 0%Q) g').
  assert (Hwf1 : plate_wf p1).
  { unfold plate_wf, fits_world, rasters_sized. simpl. rewrite Hl2. tauto. }
  assert (Hpeak1 : single_peak (map p1) c).
  { destruct Hpeak as [Hc Hflat]. simpl. split.
    - destruct (decide (c < length (map p))%nat) as [Hlt | Hge].
      + rewrite (Hv2 c Hlt).
        pose proof (noise_alpha_range
                      (draws (_randsource p) (drawn (_randsource p) + c)%nat)).
        apply Qmult_le_0_compat; [exact Hc | lra].
      + rewrite val_outside by lia. lra.
    - intros j Hj. destruct (decide (j < length (map p))%nat) as [Hlt | Hge].
      + rewrite (Hv2 j Hlt), (Hflat j Hj). ring.
      + rewrite val_outside by lia. reflexivity. }
  destruct (redistribution_single_peak p1 lower_bound c Hwf1 Hpeak1)
    as (st & Hloop & Hlst & Hvst).
  simpl width in Hloop, Hlst. simpl height in Hloop, Hlst.
  exists (if Qltb 0 (es_mass st)
          then with_centre
                 (with_rasters p1 (es_tmp st) (age_map p) (segment p) (seg_data p)
                    (es_mass st))
                 (es_cx st / es_mass st)%Q (es_cy st / es_mass st)%Q
          else with_centre
                 (with_rasters p1 (es_tmp st) (age_map p) (segment p) (seg_data p)
                    (es_mass st))
                 (es_cx st) (es_cy st)).
  split.
  - unfold erode. cbv zeta. rewrite Hn.
    rewrite memcpy_full; [|rewrite length_replicate; lia | lia].
    cbn [mbind option_bind].
    rewrite (tops_single_peak p lower_bound c Hwf Hpeak).
    cbn [mbind option_bind river].
    rewrite Hnoise. cbn [mbind option_bind].
    rewrite (memcpy_full (map p) tmp2) by lia. cbn [mbind option_bind].
    fold p1. rewrite Hloop. cbn [mbind option_bind].
    rewrite (memcpy_full (map p1) (es_tmp st)) by (simpl; lia).
    reflexivity.
  - destruct (Qltb 0 (es_mass st)); simpl; (split; [lia|]);
      intros j Hj; rewrite (Hvst j); simpl; apply (Hv2 j Hj).
Qed.

Lemma E5_plate_wf W H g :
  3 <= W < 2 ^ 32 -> 3 <= H < 2 ^ 32 -> plate_wf (E5_plate W H g).
Proof.
  intros HW HH. unfold plate_wf, fits_world, rasters_sized. simpl. lia.
Qed.

Lemma E5_single_peak W H g : single_peak (map (E5_plate W H g)) 4.
Proof.
  split; [vm_compute; discriminate|].
  intros j Hj. do 9 (destruct j as [|j]; [try reflexivity; lia|]). reflexivity.
Qed.

(** C5, as stated, fails: when the generator returns 0 the centre of the E5
    plate ends at 11, its four neighbours stay at 0 and the mass is 11. *)
Lemma erode_E5_expectation_fails :
  exists p', erode (E5_plate 3 3 (fun _ => 0)) 0 = Some p' /\
    ~ (val (map p') 4 < 10)%Q /\
    ~ (0 < val (map p') 1)%Q /\ ~ (0 < val (map p') 3)%Q /\
    ~ (0 < val (map p') 5)%Q /\ ~ (0 < val (map p') 7)%Q /\
    ~ (mass p' - mass (E5_plate 3 3 (fun _ => 0%Z)) <= 1 # 10000)%Q.
Proof.
  eexists. split; [vm_compute; reflexivity|].
  repeat split; intros Hc; vm_compute in Hc;
    first [discriminate Hc | apply Hc; reflexivity].
Qed.

(** C5, amended: for the 3 x 3 plate with heights [0,0,0; 0,10,0; 0,0,0], in
    any world that holds it, [erode(0)] returns; afterwards every cell but the
    centre still has height 0, the centre has height 10 * (11/10 - alpha)
    where alpha = 0.2 * r / max is the noise drawn for it (the fifth draw), so
    it lies between 9 and 11 and is below 10 exactly when alpha > 1/10, and
    the mass of the plate equals the centre's new height. *)
Theorem erode_E5 (W H : Z) (g : nat -> Z) :
  3 <= W < 2 ^ 32 -> 3 <= H < 2 ^ 32 ->
  exists p',
    erode (E5_plate W H g) 0 = Some p' /\
    (forall j, j <> 4%nat -> val (map p') j == 0)%Q /\
    (val (map p') 4 == 10 * ((11 # 10) - noise_alpha (g 4%nat)))%Q /\
    (9 <= val (map p') 4 <= 11)%Q /\
    ((val (map p') 4 < 10)%Q <-> (1 # 10 < noise_alpha (g 4%nat))%Q) /\
    (mass p' == val (map p') 4)%Q.
Proof.
  intros HW HH.
  destruct (erode_single_peak (E5_plate W H g) 0 4
              (E5_plate_wf W H g HW HH) (E5_single_peak W H g))
    as (p' & He & Hl & Hv).
  exists p'. split; [exact He|].
  assert (Hflat : forall j, j <> 4%nat -> (val (map p') j == 0)%Q).
  { intros j Hj. destruct (decide (j < 9)%nat) as [Hlt | Hge].
    - rewrite (Hv j Hlt).
      destruct (E5_single_peak W H g) as [_ Hz]. rewrite (Hz j Hj). ring.
    - rewrite val_outside by (rewrite Hl; simpl; lia). reflexivity. }
  assert (Hc : (val (map p') 4 == 10 * ((11 # 10) - noise_alpha (g 4%nat)))%Q).
  { rewrite (Hv 4%nat) by (simpl; lia). reflexivity. }
  pose proof (noise_alpha_range (g 4%nat)) as Hr.
  split; [exact Hflat|]. split; [exact Hc|].
  split; [rewrite Hc; lra|]. split; [rewrite Hc; split; intros; lra|].
  rewrite (erode_mass _ _ _ (Qle_refl 0) He).
  apply Qsum_single_peak. exact Hflat.
Qed.

Lemma erode_E5_witness :
  exists p',
    erode (E5_plate 8 8 (fun _ => 2 ^ 32 - 1)) 0 = Some p' /\
    (val (map p') 1 == 0)%Q /\ (9 <= val (map p') 4 <= 11)%Q /\
    (mass p' == val (map p') 4)%Q.
Proof.
  destruct (erode_E5 8 8 (fun _ => 2 ^ 32 - 1))
    as (p' & He & Hflat & _ & Hr & _ & Hm); [lia | lia |].
  exists p'. split; [exact He|]. split; [apply Hflat; lia|].
  split; [exact Hr | exact Hm].
Defined.

(** ** Truncation of floats *)

Lemma float_to_int_floor (q : Q) : (0 <= q)%Q -> float_to_int q = Qfloor q.
Proof.
  intros Hq. unfold float_to_int, Qfloor. destruct q as [n d]. simpl.
  apply Z.quot_div_nonneg; [|lia].
  unfold Qle in Hq. simpl in Hq. lia.
Qed.

Lemma Qfloor_unique (q : Q) (n : Z) :
  (inject_Z n <= q)%Q -> (q < inject_Z (n + 1))%Q -> Qfloor q = n.
Proof.
  intros Hlo Hhi.
  pose proof (Qfloor_le q) as H1. pose proof (Qlt_floor q) as H2.
  assert (Ha : (inject_Z n < inject_Z (Qfloor q + 1))%Q) by lra.
  assert (Hb : (inject_Z (Qfloor q) < inject_Z (n + 1))%Q) by lra.
  rewrite <- Zlt_Qlt in Ha, Hb. lia.
Qed.

(** The integer origin after [left -= d; left += left >= 0 ? 0 : W]. *)
Lemma shifted_origin (l : Q) (d W : Z) :
  (0 <= l)%Q -> (l < inject_Z W)%Q -> 0 < W -> 0 <= d <= W ->
  let l1 := (l - inject_Z d)%Q in
  let l2 := (l1 + (if Qle_bool 0 l1 then 0 else inject_Z W))%Q in
  (0 <= l2)%Q /\ (l2 < inject_Z W)%Q /\
  0 <= Qfloor l2 < W /\ (Qfloor l2 - (Qfloor l - d)) mod W = 0.
Proof.
  intros Hl0 HlW HW Hd l1 l2.
  pose proof (Qfloor_le l) as F1. pose proof (Qlt_floor l) as F2.
  rewrite inject_Z_plus in F2. change (inject_Z 1) with 1%Q in F2.
  assert (HdQ : (inject_Z 0 <= inject_Z d <= inject_Z W)%Q)
    by (split; rewrite <- Zle_Qle; lia).
  change (inject_Z 0) with 0%Q in HdQ.
  subst l2 l1. destruct (Qle_bool 0 (l - inject_Z d)) eqn:Hc.
  - apply Qle_bool_iff in Hc.
    assert (Hf : Qfloor (l - inject_Z d + 0) = Qfloor l - d).
    { apply Qfloor_unique; unfold Z.sub;
        rewrite ?inject_Z_plus, ?inject_Z_opp; change (inject_Z 1) with 1%Q; lra. }
    rewrite Hf. split; [lra|]. split; [lra|].
    assert (Hge : (inject_Z d <= inject_Z (Qfloor l + 1))%Q)
      by (rewrite inject_Z_plus; change (inject_Z 1) with 1%Q; lra).
    assert (Hlt : (inject_Z (Qfloor l) < inject_Z W)%Q) by lra.
    assert (Hge' : (inject_Z d < inject_Z (Qfloor l + 1))%Q)
      by (rewrite inject_Z_plus; change (inject_Z 1) with 1%Q; lra).
    rewrite <- Zlt_Qlt in Hlt, Hge'.
    split; [lia|]. rewrite Z.sub_diag. reflexivity.
  - assert (Hneg : (l - inject_Z d < 0)%Q).
    { apply Qnot_le_lt. intros Hle. apply Qle_bool_iff in Hle. congruence. }
    assert (Hf : Qfloor (l - inject_Z d + inject_Z W) = Qfloor l - d + W).
    { apply Qfloor_unique; unfold Z.sub;
        rewrite ?inject_Z_plus, ?inject_Z_opp; change (inject_Z 1) with 1%Q; lra. }
    rewrite Hf. split; [lra|]. split; [lra|].
    assert (Hlt : (inject_Z (Qfloor l) < inject_Z d)%Q) by lra.
    assert (H0 : (inject_Z 0 <= inject_Z (Qfloor l + 1))%Q)
      by (rewrite inject_Z_plus; change (inject_Z 1) with 1%Q;
          change (inject_Z 0) with 0%Q; lra).
    assert (H0' : (inject_Z 0 < inject_Z (Qfloor l + 1))%Q)
      by (rewrite inject_Z_plus; change (inject_Z 1) with 1%Q;
          change (inject_Z 0) with 0%Q; lra).
    rewrite <- Zlt_Qlt in Hlt, H0'.
    split; [lia|].
    replace (Qfloor l - d + W - (Qfloor l - d)) with (1 * W) by lia.
    apply Z.mod_mul. lia.
Qed.

Lemma Qfloor_range (q : Q) (W : Z) :
  (0 <= q)%Q -> (q < inject_Z W)%Q -> 0 <= Qfloor q < W.
Proof.
  intros H0 HW. pose proof (Qfloor_le q) as F1. pose proof (Qlt_floor q) as F2.
  assert (Ha : (inject_Z (Qfloor q) < inject_Z W)%Q) by lra.
  assert (Hb : (inject_Z 0 < inject_Z (Qfloor q + 1))%Q)
    by (change (inject_Z 0) with 0%Q; lra).
  rewrite <- Zlt_Qlt in Ha, Hb. lia.
Qed.

(** The local coordinates of a world point in a plate whose origin lies in
    the world. *)
Lemma getMapIndex_spec p x y :
  fits_world p ->
  (0 <= left p)%Q -> (left p < inject_Z (getWidth (_worldDimension p)))%Q ->
  (0 <= top p)%Q -> (top p < inject_Z (getHeight (_worldDimension p)))%Q ->
  let a := (wrapX (_worldDimension p) x - Qfloor (left p))
             mod getWidth (_worldDimension p) in
  let b := (wrapY (_worldDimension p) y - Qfloor (top p))
             mod getHeight (_worldDimension p) in
  getMapIndex p x y =
    if (a <? width p) && (b <? height p)
    then (b * width p + a, a, b) else (SIZE_MAX, x, y).
Proof.
  intros (HW & HH & Hw & Hh) Hl0 HlW Ht0 HtH a b.
  pose proof (Qfloor_range _ _ Hl0 HlW) as Fl.
  pose proof (Qfloor_range _ _ Ht0 HtH) as Ft.
  unfold getMapIndex, Rectangle_getMapIndex. simpl.
  rewrite !float_to_int_floor by assumption.
  rewrite (sz_small (Qfloor (left p))), (sz_small (Qfloor (top p))) by lia.
  rewrite (sz_small (Qfloor (left p) + width p)) by lia.
  rewrite (sz_small (Qfloor (top p) + height p)) by lia.
  replace (Qfloor (left p) + width p - Qfloor (left p)) with (width p) by lia.
  replace (Qfloor (top p) + height p - Qfloor (top p)) with (height p) by lia.
  fold a b.
  destruct (Z.ltb_spec a (width p)); [|reflexivity].
  destruct (Z.ltb_spec b (height p)); [|reflexivity]. simpl.
  assert (0 <= a) by (apply Z.mod_pos_bound; lia).
  assert (0 <= b) by (apply Z.mod_pos_bound; lia).
  rewrite sz_small by nia. reflexivity.
Qed.

(** ** Copying the old raster into the grown one *)

Lemma memcpy_lookup {A} (dst src r : list A) (di si n : Z) (k : nat) :
  memcpy dst di src si n = Some r ->
  length r = length dst /\
  r !! k = if (di <=? Z.of_nat k) && (Z.of_nat k <? di + n)
           then src !! Z.to_nat (si + (Z.of_nat k - di)) else dst !! k.
Proof.
  unfold memcpy. destruct (_ && _) eqn:Hc; [|discriminate].
  intros Heq. injection Heq as <-.
  rewrite !andb_true_iff in Hc. destruct Hc as ((((H1 & H2) & H3) & H4) & H5).
  apply Z.leb_le in H1, H2, H3, H4, H5.
  split.
  - rewrite !length_app, length_take, length_take, !length_drop. lia.
  - destruct (Z.leb_spec di (Z.of_nat k)); simpl.
    + rewrite lookup_app_r by (rewrite length_take; lia).
      rewrite length_take.
      destruct (Z.ltb_spec (Z.of_nat k) (di + n)).
      * rewrite lookup_app_l by (rewrite length_take, length_drop; lia).
        rewrite lookup_take_lt by lia. rewrite lookup_drop. f_equal. lia.
      * rewrite lookup_app_r by (rewrite length_take, length_drop; lia).
        rewrite length_take, length_drop, lookup_drop. f_equal. lia.
    + rewrite lookup_app_l by (rewrite length_take; lia).
      apply lookup_take_lt. lia.
Qed.

Lemma memcpy_Forall {A} (P : A -> Prop) (dst src r : list A) (di si n : Z) :
  memcpy dst di src si n = Some r -> Forall P dst -> Forall P src -> Forall P r.
Proof.
  unfold memcpy. destruct (_ && _); [|discriminate].
  intros Heq Hd Hs. injection Heq as <-.
  repeat apply Forall_app_2; auto using Forall_take, Forall_drop.
Qed.

(** After the rows are copied, a cell of the new height raster is 0 unless it
    lies in the window that received the old raster; no cell is negative. *)
Lemma copy_rows_heights p dl dt w' fh fa fs th ta ts :
  copy_rows p dl dt w' (fh, fa, fs) = Some (th, ta, ts) ->
  0 <= dl -> 0 <= dt -> 0 <= width p -> dl + width p <= w' < 2 ^ 32 ->
  dt + height p < 2 ^ 32 ->
  Forall (Qle 0) (map p) ->
  (forall k v, fh !! k = Some v -> v = 0%Q) ->
  length th = length fh /\ Forall (Qle 0) th /\
  forall k v, th !! k = Some v ->
    v = 0%Q \/
    exists j i, 0 <= j < height p /\ 0 <= i < width p /\
                Z.of_nat k = (dt + j) * w' + dl + i.
Proof.
  intros Hcopy Hdl Hdt Hw Hw' Hh' Hnn Hfresh. unfold copy_rows in Hcopy.
  refine (for_each_inv
    (fun s : list Q * list Z * list Z =>
       length (fst (fst s)) = length fh /\ Forall (Qle 0) (fst (fst s)) /\
       forall k v, fst (fst s) !! k = Some v ->
         v = 0%Q \/
         exists j i, 0 <= j < height p /\ 0 <= i < width p /\
                     Z.of_nat k = (dt + j) * w' + dl + i)
    _ _ (fh, fa, fs) (th, ta, ts) _ _ Hcopy).
  - simpl. split; [reflexivity|]. split.
    + apply Forall_lookup. intros k v Hk. rewrite (Hfresh k v Hk). apply Qle_refl.
    + intros k v Hk. left. eauto.
  - intros j [[h0 a0] s0] [[h1 a1] s1] Hj (Hl & Hf & Hz) Hb. simpl in Hl, Hf, Hz.
    apply elem_of_seqZ in Hj.
    destruct (memcpy h0 _ (map p) _ (width p)) as [h0'|] eqn:M1;
      cbn [mbind option_bind] in Hb; [|discriminate Hb].
    destruct (memcpy a0 _ _ _ _); cbn [mbind option_bind] in Hb; [|discriminate Hb].
    destruct (memcpy s0 _ _ _ _); cbn [mbind option_bind] in Hb; [|discriminate Hb].
    injection Hb as <- <- <-. simpl.
    assert (Hdest : sz (sz ((dt + j) * w') + dl) = (dt + j) * w' + dl).
    { rewrite (sz_small ((dt + j) * w')) by nia. apply sz_small. nia. }
    rewrite Hdest in M1.
    split; [rewrite <- Hl; apply (memcpy_lookup _ _ _ _ _ _ O M1)|].
    split; [apply (memcpy_Forall _ _ _ _ _ _ _ M1 Hf Hnn)|].
    intros k v Hk.
    destruct (memcpy_lookup _ _ _ _ _ _ k M1) as [_ Hlk]. rewrite Hlk in Hk.
    destruct (Z.leb_spec ((dt + j) * w' + dl) (Z.of_nat k));
      destruct (Z.ltb_spec (Z.of_nat k) ((dt + j) * w' + dl + width p));
      simpl in Hk; try (apply (Hz k v Hk)).
    right. exists j, (Z.of_nat k - ((dt + j) * w' + dl)). lia.
Qed.

Lemma window_back (X F F2 dl i W w : Z) :
  0 < W -> (F2 - (F - dl)) mod W = 0 -> (X - F2) mod W = dl + i ->
  0 <= i < w -> w <= W -> (X - F) mod W = i.
Proof.
  intros HW Hk Ha Hi Hw.
  apply Zmod_divides in Hk; [|lia]. destruct Hk as [k Hk].
  pose proof (Z.div_mod (X - F2) W ltac:(lia)) as Hq. rewrite Ha in Hq.
  symmetry. apply (Z.mod_unique _ _ ((X - F2) / W + k)); [lia|]. lia.
Qed.

Lemma row_column_unique (w' a b c d : Z) :
  0 <= a < w' -> 0 <= c < w' -> b * w' + a = d * w' + c -> a = c /\ b = d.
Proof.
  intros Ha Hc Heq.
  assert (Hbd : b = d).
  { destruct (Z.lt_trichotomy b d) as [Hlt | [Heq' | Hgt]]; [|exact Heq'|].
    - assert ((b + 1) * w' <= d * w') by (apply Z.mul_le_mono_nonneg_r; lia). lia.
    - assert ((d + 1) * w' <= b * w') by (apply Z.mul_le_mono_nonneg_r; lia). lia. }
  subst d. lia.
Qed.

(** The growth path yields a plate that can receive crust, of the same mass,
    in which the cell of the point that was outside the raster is empty. *)
Lemma grow_receiver p x y z p1 :
  receiver_wf p ->
  grow p x y z = Some p1 ->
  receiver_wf p1 /\ mass p1 = mass p /\
  (sz (width p * height p) <= fst (fst (getMapIndex p x y)) ->
   forall v, rd (map p1) (fst (fst (getMapIndex p1 x y))) = Some v ->
     fst (fst (getMapIndex p1 x y)) < sz (width p1 * height p1) -> v = 0%Q).
Proof.
  intros Hrw Hg.
  pose proof Hrw as (Hfit & Hlen & Hl0 & HlW & Ht0 & HtH & Hnn).
  pose proof Hfit as (HW & HH & Hw & Hh).
  pose proof (getMapIndex_spec p x y Hfit Hl0 HlW Ht0 HtH) as Hold.
  unfold grow, normalize in Hg.
  destruct (negb (Qltb 0 z)); [discriminate|].
  destruct (grow_distances p _ _) as [[[dl dr] dt] db] eqn:Hgd.
  destruct (grow_distances_spec _ _ _ _ _ _ _ Hfit Hgd)
    as ((Hdl & Hdr & Hwb & _) & (Hdt & Hdb & Hhb & _)).
  destruct (sz (dl + dr + dt + db) =? 0); [discriminate|].
  rewrite (sz_small (dl + dr)), (sz_small (dt + db)) in Hg by lia.
  rewrite (sz_small (width p + (dl + dr))) in Hg by lia.
  rewrite (sz_small (height p + (dt + db))) in Hg by lia.
  rewrite (sz_small ((width p + (dl + dr)) * (height p + (dt + db)))) in Hg by nia.
  destruct (copy_rows _ _ _ _ _) as [[[tmph tmpa] tmps]|] eqn:Hcopy;
    cbn [mbind option_bind] in Hg; [|discriminate Hg].
  injection Hg as <-.
  destruct (copy_rows_heights _ _ _ _ _ _ _ _ _ _ Hcopy)
    as (Hlh & Hfh & Hwin); try lia; try assumption.
  { intros k v Hk. apply lookup_replicate in Hk as [-> _]. reflexivity. }
  rewrite length_replicate in Hlh.
  destruct (shifted_origin (left p) dl (getWidth (_worldDimension p)))
    as (L0 & LW & LF & Lmod); try assumption; try lia.
  destruct (shifted_origin (top p) dt (getHeight (_worldDimension p)))
    as (T0 & TH & TF & Tmod); try assumption; try lia.
  assert (Hrw1 : receiver_wf
    {| _randsource := _randsource p; width := width p + (dl + dr);
       height := height p + (dt + db); mass := mass p;
       left := (left p - inject_Z dl
                + (if Qle_bool 0 (left p - inject_Z dl) then 0
                   else inject_Z (getWidth (_worldDimension p))))%Q;
       top := (top p - inject_Z dt
               + (if Qle_bool 0 (top p - inject_Z dt) then 0
                  else inject_Z (getHeight (_worldDimension p))))%Q;
       cx := cx p; cy := cy p; dx := dx p; dy := dy p; vx := vx p; vy := vy p;
       velocity := velocity p; rot_dir := rot_dir p;
       map := tmph; age_map := tmpa; segment := tmps;
       seg_data := (fun s => shift s dl dt) <$> seg_data p;
       _worldDimension := _worldDimension p |}).
  { unfold receiver_wf, fits_world. simpl.
    repeat split; try assumption; try lia. }
  split; [exact Hrw1|]. split; [reflexivity|].
  intros Hout v.
  pose proof Hrw1 as (Hfit1 & _ & L0' & LW' & T0' & TH' & _).
  rewrite (getMapIndex_spec _ x y Hfit1 L0' LW' T0' TH'). simpl.
  match goal with
  | |- context [(?u <? width p + (dl + dr)) && (?v <? height p + (dt + db))] =>
    set (a' := u); set (b' := v)
  end.
  destruct (Z.ltb_spec a' (width p + (dl + dr))) as [Ha'|];
    [|simpl; rewrite sz_small by nia; unfold SIZE_MAX; intros; nia].
  destruct (Z.ltb_spec b' (height p + (dt + db))) as [Hb'|];
    [|simpl; rewrite sz_small by nia; unfold SIZE_MAX; intros; nia].
  simpl. intros Hrd _.
  assert (Ha0 : 0 <= a') by (apply Z.mod_pos_bound; lia).
  assert (Hb0 : 0 <= b') by (apply Z.mod_pos_bound; lia).
  unfold rd in Hrd. destruct (Z.leb_spec 0 (b' * (width p + (dl + dr)) + a'));
    [|discriminate].
  destruct (Hwin _ _ Hrd) as [-> | (j & i & Hj & Hi & Hk)]; [reflexivity|].
  exfalso. rewrite Z2Nat.id in Hk by lia.
  destruct (row_column_unique (width p + (dl + dr)) a' b' (dl + i) (dt + j))
    as [Ea Eb]; [lia | lia | lia |].
  pose proof (window_back _ _ _ _ _ _ (width p) (proj1 HW) Lmod Ea Hi (proj2 Hw)) as Xa.
  pose proof (window_back _ _ _ _ _ _ (height p) (proj1 HH) Tmod Eb Hj (proj2 Hh)) as Xb.
  rewrite Hold in Hout. rewrite Xa, Xb in Hout.
  destruct (Z.ltb_spec i (width p)); [|lia].
  destruct (Z.ltb_spec j (height p)); [|lia].
  simpl in Hout.
  assert (Hrow : (j + 1) * width p <= height p * width p)
    by (apply Z.mul_le_mono_nonneg_r; lia).
  assert (Hp0 : 0 <= j * width p) by (apply Z.mul_nonneg_nonneg; lia).
  assert (Hcap : width p * height p <= (2 ^ 32 - 1) * (2 ^ 32 - 1))
    by (apply Z.mul_le_mono_nonneg; lia).
  rewrite sz_small in Hout by lia. lia.
Qed.

(** ** Mass bookkeeping of the crust transfers *)

Lemma getMapIndex_outside p x y :
  receiver_wf p ->
  sz (width p * height p) <= fst (fst (getMapIndex p x y)) ->
  fst (fst (getMapIndex p x y)) = SIZE_MAX.
Proof.
  intros (Hfit & _ & Hl0 & HlW & Ht0 & HtH & _) Hout.
  pose proof Hfit as (HW & HH & Hw & Hh).
  rewrite (getMapIndex_spec p x y Hfit Hl0 HlW Ht0 HtH) in *.
  cbv zeta in *.
  match goal with
  | |- context [(?u <? width p) && (?v <? height p)] =>
    destruct (Z.ltb_spec u (width p)); [|reflexivity];
    destruct (Z.ltb_spec v (height p)); [|reflexivity];
    assert (0 <= u) by (apply Z.mod_pos_bound; lia);
    assert (0 <= v) by (apply Z.mod_pos_bound; lia);
    simpl in *;
    assert ((v + 1) * width p <= height p * width p)
      by (apply Z.mul_le_mono_nonneg_r; lia);
    assert (0 <= v * width p) by (apply Z.mul_nonneg_nonneg; lia);
    assert (width p * height p <= (2 ^ 32 - 1) * (2 ^ 32 - 1))
      by (apply Z.mul_le_mono_nonneg; lia);
    rewrite sz_small in Hout by lia; lia
  end.
Qed.

Lemma with_rasters_receiver p m a s sd ms :
  receiver_wf p -> length m = length (map p) -> Forall (Qle 0) m ->
  receiver_wf (with_rasters p m a s sd ms).
Proof.
  intros (Hfit & Hlen & Hl0 & HlW & Ht0 & HtH & Hnn) Hl Hf.
  unfold receiver_wf, fits_world in *. simpl. rewrite Hl. tauto.
Qed.

Lemma wr_Forall {A} (P : A -> Prop) (a a' : list A) i v :
  wr a i v = Some a' -> Forall P a -> P v -> Forall P a'.
Proof.
  unfold wr. destruct (_ && _); [|discriminate].
  intros Heq Hf Hv. injection Heq as <-. apply Forall_insert; assumption.
Qed.

Lemma rd_Forall {A} (P : A -> Prop) (a : list A) i v :
  rd a i = Some v -> Forall P a -> P v.
Proof.
  unfold rd. destruct (0 <=? i); [|discriminate].
  intros Hl Hf. rewrite Forall_lookup in Hf. eapply Hf; eauto.
Qed.

(** Adding [z >= 0] on top of what a cell holds raises the mass by [z],
    whether or not the raster has to grow for it. *)
Lemma setCrust_adds p x y c z t p' :
  receiver_wf p -> getCrust p x y = Some c -> (0 <= z)%Q ->
  setCrust p x y (c + z) t = Some p' ->
  receiver_wf p' /\ (mass p' == mass p + z)%Q.
Proof.
  intros Hrw Hc Hz Hset. unfold getCrust in Hc. unfold setCrust in Hset.
  pose proof (getMapIndex_outside p x y Hrw) as Hout.
  destruct (getMapIndex p x y) as [[index lx] ly] eqn:Hidx. simpl in Hout.
  destruct (Z.leb_spec (sz (width p * height p)) index) as [Hge | Hlt].
  - (* the raster grows *)
    specialize (Hout Hge). subst index.
    change (SIZE_MAX <? SIZE_MAX) with false in Hc. injection Hc as <-.
    assert (Hclamp : Qltb (0 + z) 0 = false) by (apply Qltb_ge; lra).
    rewrite Hclamp in Hset.
    destruct (grow p x y (0 + z)) as [p1|] eqn:Hg;
      cbn [mbind option_bind] in Hset; [|discriminate Hset].
    destruct (grow_receiver _ _ _ _ _ Hrw Hg) as (Hrw1 & Hm1 & Hzero).
    rewrite Hidx in Hzero. simpl in Hzero. specialize (Hzero Hge).
    destruct (getMapIndex p1 x y) as [[index' lx'] ly'] eqn:Hidx'.
    simpl in Hzero.
    destruct (Z.ltb_spec index' (sz (width p1 * height p1))); [|discriminate Hset].
    cbn [mbind option_bind] in Hset.
    destruct (rd (map p1) index') as [h|] eqn:Hh;
      cbn [mbind option_bind] in Hset; [|discriminate Hset].
    destruct (rd (age_map p1) index') as [a|];
      cbn [mbind option_bind] in Hset; [|discriminate Hset].
    destruct (wr (age_map p1) index' _) as [age'|];
      cbn [mbind option_bind] in Hset; [|discriminate Hset].
    destruct (wr (map p1) index' (0 + z)%Q) as [map'|] eqn:Hw;
      cbn [mbind option_bind] in Hset; [|discriminate Hset].
    injection Hset as <-. rewrite (Hzero h eq_refl) by assumption.
    split.
    + apply with_rasters_receiver; [exact Hrw1 | eapply wr_length; eauto|].
      eapply wr_Forall; [exact Hw | apply Hrw1 | lra].
    + simpl. rewrite Hm1. ring.
  - (* the cell is inside the raster *)
    cbn [mbind option_bind] in Hset.
    pose proof (getMapIndex_nonneg _ _ _ _ _ _ Hidx) as H0.
    pose proof (sz_range (width p * height p)) as Hr.
    destruct (Z.ltb_spec index SIZE_MAX); [|unfold SIZE_MAX in *; lia].
    rewrite Hc in Hset. cbn [mbind option_bind] in Hset.
    destruct (rd (age_map p) index) as [a|];
      cbn [mbind option_bind] in Hset; [|discriminate Hset].
    destruct (wr (age_map p) index _) as [age'|];
      cbn [mbind option_bind] in Hset; [|discriminate Hset].
    assert (Hc0 : (0 <= c)%Q) by (eapply rd_Forall; [exact Hc | apply Hrw]).
    assert (Hclamp : Qltb (c + z) 0 = false) by (apply Qltb_ge; lra).
    rewrite Hclamp in Hset.
    destruct (wr (map p) index (c + z)%Q) as [map'|] eqn:Hw;
      cbn [mbind option_bind] in Hset; [|discriminate Hset].
    injection Hset as <-. split.
    + apply with_rasters_receiver; [exact Hrw | eapply wr_length; eauto|].
      eapply wr_Forall; [exact Hw | apply Hrw | lra].
    + simpl. ring.
Qed.

Lemma addCrustByCollision_adds p x y z t id p' :
  receiver_wf p -> (0 <= z)%Q ->
  addCrustByCollision p x y z t id = Some p' ->
  receiver_wf p' /\ (mass p' == mass p + z)%Q.
Proof.
  intros Hrw Hz Ha. unfold addCrustByCollision in Ha.
  destruct (getCrust p x y) as [c|] eqn:Hc;
    cbn [mbind option_bind] in Ha; [|discriminate Ha].
  destruct (setCrust p x y (c + z) t) as [p1|] eqn:Hs;
    cbn [mbind option_bind] in Ha; [|discriminate Ha].
  destruct (setCrust_adds _ _ _ _ _ _ _ Hrw Hc Hz Hs) as [Hrw1 Hm1].
  destruct (getMapIndex p1 x y) as [[index lx] ly].
  destruct (wr (segment p1) index id) as [seg'|];
    cbn [mbind option_bind] in Ha; [|discriminate Ha].
  destruct (rd (seg_data p1) id) as [d|];
    cbn [mbind option_bind] in Ha; [|discriminate Ha].
  destruct (wr (seg_data p1) id _) as [sd'|];
    cbn [mbind option_bind] in Ha; [|discriminate Ha].
  injection Ha as <-. split.
  - apply with_rasters_receiver; [exact Hrw1 | reflexivity | apply Hrw1].
  - simpl. exact Hm1.
Qed.

Lemma for_each_inv_idx {S A} (P : nat -> S -> Prop) (body : S -> A -> option S)
    (l : list A) (s s' : S) :
  P O s ->
  (forall i a s0 s1, l !! i = Some a -> P i s0 -> body s0 a = Some s1 ->
     P (Datatypes.S i) s1) ->
  for_each body l s = Some s' -> P (length l) s'.
Proof.
  revert P s. induction l as [|a l IH]; intros P s H0 Hstep Hf; simpl in Hf.
  - injection Hf as <-. exact H0.
  - destruct (body s a) as [s1|] eqn:Hb; simpl in Hf; [|discriminate].
    apply (IH (fun i => P (Datatypes.S i)) s1); [| |exact Hf].
    + apply (Hstep O a s s1 eq_refl H0 Hb).
    + intros i b s0 s2 Hi. apply (Hstep (Datatypes.S i) b s0 s2 Hi).
Qed.

Lemma aggregate_body_inv A B seg_id active wx wy lx ly st c st' :
  aggregate_inv A B st ->
  aggregate_body seg_id active wx wy lx ly st c = Some st' ->
  aggregate_inv A B st'.
Proof.
  destruct st as [self p], c as [x y]. intros Hinv Hb.
  pose proof Hinv as (Hrw & Hsum & Hk & Hself & Hlen).
  unfold aggregate_body in Hb. cbv zeta in Hb.
  destruct (rd (segment self) _) as [s|];
    cbn [mbind option_bind] in Hb; [|discriminate Hb].
  destruct (s =? seg_id); [|injection Hb as <-; exact Hinv].
  destruct (rd (map self) _) as [h|] eqn:Hh;
    cbn [mbind option_bind] in Hb; [|discriminate Hb].
  destruct (Qltb 0 h) eqn:Hpos; [|injection Hb as <-; exact Hinv].
  apply Qltb_lt in Hpos.
  destruct (rd (age_map self) _) as [a|];
    cbn [mbind option_bind] in Hb; [|discriminate Hb].
  destruct (addCrustByCollision p _ _ h a active) as [p'|] eqn:Ha;
    cbn [mbind option_bind] in Hb; [|discriminate Hb].
  destruct (wr (map self) _ 0%Q) as [map'|] eqn:Hw;
    cbn [mbind option_bind] in Hb; [|discriminate Hb].
  injection Hb as <-.
  destruct (addCrustByCollision_adds _ _ _ _ _ _ _ Hrw (Qlt_le_weak _ _ Hpos) Ha)
    as [Hrw' Hm'].
  unfold aggregate_inv. simpl. split; [exact Hrw'|].
  split; [lra|].
  split; [pose proof (Qsum_wr _ _ _ _ _ Hh Hw); lra|].
  split.
  - rewrite Hself. reflexivity.
  - rewrite <- Hlen. eapply wr_length; eauto.
Qed.

(** What a returning [aggregateCrust] leaves. *)
Lemma aggregateCrust_inv A B wx wy A' B' r :
  receiver_wf B ->
  aggregateCrust A B wx wy = Some (A', B', r) ->
  receiver_wf B' /\
  (mass A' + mass B' == mass A + mass B)%Q /\
  (r == mass A - mass A')%Q /\
  (Qsum (map A) - Qsum (map A') == r)%Q /\
  exists seg_id d,
    rd (segment A) (fst (fst (getMapIndex A wx wy))) = Some seg_id /\
    rd (seg_data A') seg_id = Some d /\ area d = 0 /\
    segment A' = segment A /\
    getMapIndex A' wx wy = getMapIndex A wx wy.
Proof.
  intros Hrw Hag. unfold aggregateCrust in Hag.
  destruct (getMapIndex A wx wy) as [[index lx] ly] eqn:Hidx.
  destruct (rd (segment A) index) as [seg_id|] eqn:Hseg;
    cbn [mbind option_bind] in Hag; [|discriminate Hag].
  destruct (rd (seg_data A) seg_id) as [d|] eqn:Hd;
    cbn [mbind option_bind] in Hag; [|discriminate Hag].
  destruct (isEmpty d) eqn:He.
  { injection Hag as <- <- <-. split; [exact Hrw|].
    split; [reflexivity|]. split; [ring|]. split; [ring|].
    exists seg_id, d. simpl. unfold isEmpty in He.
    apply Z.eqb_eq in He. auto. }
  destruct (selectCollisionSegment B wx wy) as [active|];
    cbn [mbind option_bind] in Hag; [|discriminate Hag].
  destruct (for_each _ (box_cells d) (A, B)) as [[self p]|] eqn:Hloop;
    cbn [mbind option_bind] in Hag; [|discriminate Hag].
  assert (Hinv : aggregate_inv A B (self, p)).
  { refine (for_each_inv (aggregate_inv A B) _ _ _ _ _ _ Hloop).
    - unfold aggregate_inv. split; [exact Hrw|]. split; [reflexivity|].
      split; [reflexivity|]. split; [destruct A; reflexivity | reflexivity].
    - intros c s0 s1 _ H0 Hb. eapply aggregate_body_inv; eauto. }
  destruct Hinv as (Hrw' & Hsum & Hk & Hself & Hlen).
  destruct (rd (seg_data self) seg_id) as [d'|] eqn:Hd';
    cbn [mbind option_bind] in Hag; [|discriminate Hag].
  destruct (wr (seg_data self) seg_id (set_area d' 0)) as [sd'|] eqn:Hw;
    cbn [mbind option_bind] in Hag; [|discriminate Hag].
  injection Hag as <- <- <-. simpl.
  split; [exact Hrw'|]. split; [exact Hsum|]. split; [reflexivity|].
  split; [lra|].
  exists seg_id, (set_area d' 0). simpl.
  split; [exact Hseg|].
  split; [eapply rd_wr_same; eauto|]. split; [reflexivity|].
  rewrite Hself. simpl. split; [reflexivity|].
  rewrite getMapIndex_with_rasters. rewrite Hself.
  rewrite getMapIndex_with_rasters. exact Hidx.
Qed.

(** ** Aggregation *)

(** X1: [aggregateCrust] moves mass from one plate to the other without
    creating or losing any: the two mass fields add up to the same, the
    returned value is what the calling plate's mass field lost, which is what
    its height raster lost and what the other plate's mass field gained. *)
Theorem aggregateCrust_conserves_mass (A B A' B' : plate) (wx wy : Z) (r : Q) :
  receiver_wf B ->
  aggregateCrust A B wx wy = Some (A', B', r) ->
  (mass A' + mass B' == mass A + mass B)%Q /\
  (r == mass A - mass A')%Q /\
  (r == Qsum (map A) - Qsum (map A'))%Q /\
  (r == mass B' - mass B)%Q /\
  receiver_wf B'.
Proof.
  intros Hrw Hag.
  destruct (aggregateCrust_inv _ _ _ _ _ _ _ Hrw Hag)
    as (Hrw' & Hsum & Hr & Hq & _).
  repeat split; try assumption; try apply Hrw'; lra.
Qed.

Lemma E4_B_receiver : receiver_wf (E4_B 3 2).
Proof.
  unfold receiver_wf, fits_world. simpl.
  repeat split; try lia; try reflexivity; try discriminate.
  let t := eval vm_compute in (raster_of 2 2 (fun _ _ : Z => 0%Q)) in
  change (raster_of 2 2 (fun _ _ : Z => 0%Q)) with t.
  repeat (apply List.Forall_cons; [apply Qle_refl|]). apply List.Forall_nil.
Qed.

Lemma aggregateCrust_conserves_mass_witness :
  exists A' B' r,
    aggregateCrust E4_A (E4_B 3 2) 3 3 = Some (A', B', r) /\
    (mass A' + mass B' == mass E4_A + mass (E4_B 3 2))%Q /\
    (r == mass E4_A - mass A')%Q /\ (r == mass B' - mass (E4_B 3 2))%Q.
Proof.
  destruct (aggregateCrust E4_A (E4_B 3 2) 3 3) as [[[A' B'] r]|] eqn:Hag;
    [|vm_compute in Hag; discriminate Hag].
  exists A', B', r. split; [reflexivity|].
  destruct (aggregateCrust_conserves_mass _ _ _ _ _ _ _ E4_B_receiver Hag)
    as (Hsum & Hr & _ & Hb & _).
  repeat split; assumption.
Defined.

Lemma aggregate_body_frame A seg_id active wx wy lx ly self p c self' p' :
  aggregate_frame A seg_id self ->
  aggregate_body seg_id active wx wy lx ly (self, p) c = Some (self', p') ->
  aggregate_frame A seg_id self' /\
  (forall i h, rd (map self) i = Some h -> (h <= 0)%Q ->
     exists h', rd (map self') i = Some h' /\ (h' <= 0)%Q) /\
  (rd (segment A) (cell_of A (fst c) (snd c)) = Some seg_id ->
   exists h, rd (map self') (cell_of A (fst c) (snd c)) = Some h /\ (h <= 0)%Q).
Proof.
  destruct c as [x y]. intros HF Hb. pose proof HF as (Hself & Hother & Hzero).
  assert (Hstay : forall i h, rd (map self) i = Some h -> (h <= 0)%Q ->
            exists h', rd (map self) i = Some h' /\ (h' <= 0)%Q) by eauto.
  unfold aggregate_body in Hb. cbv zeta in Hb.
  assert (Hw : width self = width A) by (rewrite Hself; reflexivity).
  assert (Hs : segment self = segment A) by (rewrite Hself; reflexivity).
  rewrite Hw, Hs in Hb. fold (cell_of A x y) in Hb. simpl fst. simpl snd.
  destruct (rd (segment A) (cell_of A x y)) as [s|] eqn:Hseg;
    cbn [mbind option_bind] in Hb; [|discriminate Hb].
  destruct (Z.eqb_spec s seg_id) as [-> | Hne].
  2:{ injection Hb as <- <-. split; [exact HF|]. split; [exact Hstay|].
      intros Heq. congruence. }
  destruct (rd (map self) (cell_of A x y)) as [h|] eqn:Hh;
    cbn [mbind option_bind] in Hb; [|discriminate Hb].
  destruct (Qltb 0 h) eqn:Hpos.
  2:{ injection Hb as <- <-. apply Qltb_ge in Hpos.
      split; [exact HF|]. split; [exact Hstay|]. eauto. }
  destruct (rd (age_map self) _) as [a|];
    cbn [mbind option_bind] in Hb; [|discriminate Hb].
  destruct (addCrustByCollision p _ _ h a active) as [p1|];
    cbn [mbind option_bind] in Hb; [|discriminate Hb].
  destruct (wr (map self) (cell_of A x y) 0%Q) as [map'|] eqn:Hwr;
    cbn [mbind option_bind] in Hb; [|discriminate Hb].
  injection Hb as <- <-. simpl.
  assert (Hrd : forall i, rd map' i =
            if decide (i = cell_of A x y) then Some 0%Q else rd (map self) i).
  { intros i. destruct (decide (i = cell_of A x y)) as [-> | Hi].
    - eapply rd_wr_same; eauto.
    - eapply rd_wr_other; eauto. }
  split; [|split].
  - split; [rewrite Hself; reflexivity|]. split.
    + intros i Hi. rewrite Hrd. destruct (decide (i = cell_of A x y)) as [-> | _];
        [congruence | apply Hother; exact Hi].
    + intros i h' Hi. rewrite Hrd in Hi.
      destruct (decide (i = cell_of A x y)) as [-> | _];
        [left; congruence | apply Hzero; exact Hi].
  - intros i h' Hi Hle. rewrite Hrd.
    destruct (decide (i = cell_of A x y)); [exists 0%Q; split; [reflexivity | lra]|eauto].
  - intros _. exists 0%Q. rewrite Hrd. destruct (decide _); [|congruence].
    split; [reflexivity | lra].
Qed.

Lemma aggregate_loop_frame A seg_id active wx wy lx ly cs p self' p' :
  for_each (aggregate_body seg_id active wx wy lx ly) cs (A, p)
    = Some (self', p') ->
  aggregate_frame A seg_id self' /\
  forall x y, (x, y) ∈ cs ->
    rd (segment A) (cell_of A x y) = Some seg_id ->
    exists h, rd (map self') (cell_of A x y) = Some h /\ (h <= 0)%Q.
Proof.
  intros Hloop.
  pose proof (for_each_inv_idx
    (fun k (st : plate * plate) =>
       aggregate_frame A seg_id (fst st) /\
       forall j x y, (j < k)%nat -> cs !! j = Some (x, y) ->
         rd (segment A) (cell_of A x y) = Some seg_id ->
         exists h, rd (map (fst st)) (cell_of A x y) = Some h /\ (h <= 0)%Q)
    (aggregate_body seg_id active wx wy lx ly) cs (A, p) (self', p')) as Hind.
  destruct Hind as [HF Hdone]; [| |exact Hloop|].
  - simpl. split; [|intros; lia].
    split; [destruct A; reflexivity|]. split; [reflexivity | auto].
  - intros k c [s0 q0] [s1 q1] Hk [HF Hprev] Hb. simpl in HF, Hprev |- *.
    destruct (aggregate_body_frame _ _ _ _ _ _ _ _ _ _ _ _ HF Hb)
      as (HF1 & Hkeep & Hnow).
    split; [exact HF1|]. intros j x y Hj Hjc Hseg.
    destruct (decide (j = k)) as [-> | Hne].
    + rewrite Hk in Hjc. injection Hjc as ->. apply Hnow. exact Hseg.
    + destruct (Hprev j x y ltac:(lia) Hjc Hseg) as (h & Hh & Hle). eauto.
  - simpl in HF, Hdone. split; [exact HF|]. intros x y Hin Hseg.
    apply list_elem_of_lookup in Hin as [j Hj].
    apply (Hdone j x y); [eapply lookup_lt_Some; eauto | exact Hj | exact Hseg].
Qed.

(** X2: [aggregateCrust] only clears cells of the continent it moves.  With
    [seg_id] the continent at the point and [d] its (live) descriptor: after
    the call no cell of that continent inside its bounding box has a positive
    height, the cells of other continents keep their heights, every changed
    cell holds 0, and the age raster, the segment array and the geometry of the
    calling plate are as before; the continent's descriptor is a tombstone. *)
Theorem aggregateCrust_clears_continent (A B A' B' : plate) (wx wy : Z) (r : Q)
    (seg_id : Z) (d : segmentData) :
  rd (segment A) (fst (fst (getMapIndex A wx wy))) = Some seg_id ->
  rd (seg_data A) seg_id = Some d -> isEmpty d = false ->
  aggregateCrust A B wx wy = Some (A', B', r) ->
  (forall x y, (x, y) ∈ box_cells d ->
     rd (segment A) (cell_of A x y) = Some seg_id ->
     exists h, rd (map A') (cell_of A x y) = Some h /\ (h <= 0)%Q) /\
  (forall i, rd (segment A) i <> Some seg_id -> rd (map A') i = rd (map A) i) /\
  (forall i h, rd (map A') i = Some h -> h = 0%Q \/ rd (map A) i = Some h) /\
  (exists d', rd (seg_data A') seg_id = Some d' /\ isEmpty d' = true) /\
  exists sd, A' = with_rasters A (map A') (age_map A) (segment A) sd (mass A').
Proof.
  intros Hseg Hd He Hag. unfold aggregateCrust in Hag.
  destruct (getMapIndex A wx wy) as [[index lx] ly] eqn:Hidx. simpl in Hseg.
  rewrite Hseg in Hag. cbn [mbind option_bind] in Hag.
  rewrite Hd in Hag. cbn [mbind option_bind] in Hag. rewrite He in Hag.
  destruct (selectCollisionSegment B wx wy) as [active|];
    cbn [mbind option_bind] in Hag; [|discriminate Hag].
  destruct (for_each _ (box_cells d) (A, B)) as [[self p]|] eqn:Hloop;
    cbn [mbind option_bind] in Hag; [|discriminate Hag].
  destruct (aggregate_loop_frame _ _ _ _ _ _ _ _ _ _ _ Hloop)
    as ((Hself & Hother & Hzero) & Hclear).
  destruct (rd (seg_data self) seg_id) as [d'|] eqn:Hd';
    cbn [mbind option_bind] in Hag; [|discriminate Hag].
  destruct (wr (seg_data self) seg_id (set_area d' 0)) as [sd'|] eqn:Hw;
    cbn [mbind option_bind] in Hag; [|discriminate Hag].
  injection Hag as <- <- <-. simpl.
  split; [exact Hclear|]. split; [exact Hother|]. split; [exact Hzero|].
  split.
  - exists (set_area d' 0). split; [eapply rd_wr_same; eauto | reflexivity].
  - exists sd'. rewrite Hself. reflexivity.
Qed.

Lemma aggregateCrust_clears_continent_witness :
  exists A' B' r h,
    aggregateCrust E4_A (E4_B 2 4) 3 3 = Some (A', B', r) /\
    rd (map A') (cell_of E4_A 2 2) = Some h /\ (h <= 0)%Q /\
    rd (map A') 0 = rd (map E4_A) 0.
Proof.
  destruct (aggregateCrust E4_A (E4_B 2 4) 3 3) as [[[A' B'] r]|] eqn:Hag;
    [|vm_compute in Hag; discriminate Hag].
  destruct (aggregateCrust_clears_continent E4_A (E4_B 2 4) A' B' 3 3 r 0
              {| x0 := 2; y0 := 2; x1 := 4; y1 := 4; area := 9; coll_count := 1 |}
              eq_refl eq_refl eq_refl Hag) as (Hclear & Hother & _).
  destruct (Hclear 2 2) as (h & Hh & Hle).
  - vm_compute. apply list_elem_of_here.
  - reflexivity.
  - exists A', B', r, h. split; [reflexivity|]. split; [exact Hh|].
    split; [exact Hle|]. apply Hother. vm_compute. discriminate.
Defined.

(** X3: a continent is aggregated once.  After a call of [aggregateCrust] that
    returned, a second call at the same point, whatever the receiving plate,
    changes neither plate and returns 0: the tombstone check stops it. *)
Theorem aggregateCrust_second_call (A B A' B' B2 : plate) (wx wy : Z) (r : Q) :
  aggregateCrust A B wx wy = Some (A', B', r) ->
  aggregateCrust A' B2 wx wy = Some (A', B2, 0%Q).
Proof.
  intros Hag.
  assert (Hfacts : exists seg_id d',
    rd (segment A') (fst (fst (getMapIndex A' wx wy))) = Some seg_id /\
    rd (seg_data A') seg_id = Some d' /\ isEmpty d' = true).
  { unfold aggregateCrust in Hag.
    destruct (getMapIndex A wx wy) as [[index lx] ly] eqn:Hidx.
    destruct (rd (segment A) index) as [seg_id|] eqn:Hseg;
      cbn [mbind option_bind] in Hag; [|discriminate Hag].
    destruct (rd (seg_data A) seg_id) as [d|] eqn:Hd;
      cbn [mbind option_bind] in Hag; [|discriminate Hag].
    destruct (isEmpty d) eqn:He.
    { injection Hag as <- <- <-. exists seg_id, d. rewrite Hidx. auto. }
    destruct (selectCollisionSegment B wx wy) as [active|];
      cbn [mbind option_bind] in Hag; [|discriminate Hag].
    destruct (for_each _ (box_cells d) (A, B)) as [[self p]|] eqn:Hloop;
      cbn [mbind option_bind] in Hag; [|discriminate Hag].
    destruct (aggregate_loop_frame _ _ _ _ _ _ _ _ _ _ _ Hloop)
      as ((Hself & _) & _).
    destruct (rd (seg_data self) seg_id) as [d'|] eqn:Hd';
      cbn [mbind option_bind] in Hag; [|discriminate Hag].
    destruct (wr (seg_data self) seg_id (set_area d' 0)) as [sd'|] eqn:Hw;
      cbn [mbind option_bind] in Hag; [|discriminate Hag].
    injection Hag as <- <- <-. exists seg_id, (set_area d' 0).
    rewrite getMapIndex_with_rasters. rewrite Hself.
    rewrite getMapIndex_with_rasters. rewrite Hidx. simpl.
    split; [exact Hseg|]. split; [eapply rd_wr_same; eauto | reflexivity]. }
  destruct Hfacts as (seg_id & d' & Hseg & Hd & He).
  unfold aggregateCrust.
  destruct (getMapIndex A' wx wy) as [[index lx] ly]. simpl in Hseg.
  rewrite Hseg. cbn [mbind option_bind]. rewrite Hd. cbn [mbind option_bind].
  rewrite He. reflexivity.
Qed.

Lemma aggregateCrust_second_call_witness :
  exists A' B' r,
    aggregateCrust E4_A (E4_B 2 4) 3 3 = Some (A', B', r) /\
    aggregateCrust A' B' 3 3 = Some (A', B', 0%Q).
Proof.
  destruct (aggregateCrust E4_A (E4_B 2 4) 3 3) as [[[A' B'] r]|] eqn:Hag;
    [|vm_compute in Hag; discriminate Hag].
  exists A', B', r. split; [reflexivity|].
  apply (aggregateCrust_second_call _ _ _ _ _ _ _ _ Hag).
Defined.

(** ** Friction *)

(** X4: [applyFriction] never leaves a negative speed.  On a plate of positive
    mass the new velocity is the old one less the smaller of
    [2 * deformed_mass / mass] and the old velocity, hence not negative, and
    not above the old one when the deformed mass is not negative; nothing else
    changes; a plate without positive mass is left as it is. *)
Theorem applyFriction_velocity (p : plate) (deformed_mass : Q) :
  let p' := applyFriction p deformed_mass in
  ((0 < mass p)%Q ->
   (0 <= velocity p')%Q /\
   (velocity p' ==
    velocity p - Qmin (2 * deformed_mass / mass p) (velocity p))%Q /\
   ((0 <= deformed_mass)%Q -> (0 <= velocity p)%Q ->
    (velocity p' <= velocity p)%Q) /\
   p' = with_motion p (left p) (top p) (vx p) (vy p) (velocity p')) /\
  (~ (0 < mass p)%Q -> p' = p).
Proof.
  intros p'. subst p'. unfold applyFriction, DEFORMATION_WEIGHT. split.
  - intros Hm. apply Qltb_lt in Hm. rewrite Hm.
    destruct (Qltb (2 * deformed_mass / mass p) (velocity p)) eqn:Hc; simpl.
    + apply Qltb_lt in Hc. split; [lra|]. split.
      * rewrite Q.min_l by lra. reflexivity.
      * split; [|reflexivity]. intros Hd Hv.
        apply Qltb_lt in Hm.
        assert (0 <= 2 * deformed_mass / mass p)%Q
          by (apply Qle_shift_div_l; [exact Hm | lra]).
        lra.
    + apply Qltb_ge in Hc. split; [lra|]. split.
      * rewrite Q.min_r by lra. reflexivity.
      * split; [|reflexivity]. intros. lra.
  - intros Hm. destruct (Qltb 0 (mass p)) eqn:Hc; [|reflexivity].
    apply Qltb_lt in Hc. contradiction.
Qed.

Lemma applyFriction_velocity_witness :
  (0 <= velocity (applyFriction E3_A 100))%Q /\
  (velocity (applyFriction E3_A 100) <= velocity E3_A)%Q.
Proof.
  destruct (applyFriction_velocity E3_A 100) as [Hpos _].
  destruct Hpos as (H0 & _ & Hle & _); [reflexivity|].
  split; [exact H0|]. apply Hle; discriminate.
Defined.

(** ** Setting crust *)

(** What a returning [setCrust] has done: on the plate [p0] -- the plate
    itself when the cell is inside the raster, the grown plate otherwise -- it
    has replaced height and age of one cell and adjusted the mass. *)
Lemma setCrust_cases p x y z t p' :
  setCrust p x y z t = Some p' ->
  exists p0 index h a age' map',
    ((p0 = p /\ index < sz (width p * height p)) \/
     (grow p x y (clamp z) = Some p0 /\
      sz (width p * height p) <= fst (fst (getMapIndex p x y)) /\
      index < sz (width p0 * height p0))) /\
    index = fst (fst (getMapIndex p0 x y)) /\
    rd (map p0) index = Some h /\ rd (age_map p0) index = Some a /\
    wr (age_map p0) index (setCrust_age h a (clamp z) t) = Some age' /\
    wr (map p0) index (clamp z) = Some map' /\
    p' = with_rasters p0 map' age' (segment p0) (seg_data p0)
           (mass p0 - h + clamp z)%Q.
Proof.
  unfold setCrust. fold (clamp z). intros Hset.
  destruct (getMapIndex p x y) as [[index lx] ly] eqn:Hidx.
  destruct (Z.leb_spec (sz (width p * height p)) index) as [Hge | Hlt].
  - destruct (grow p x y (clamp z)) as [p1|] eqn:Hg;
      cbn [mbind option_bind] in Hset; [|discriminate Hset].
    destruct (getMapIndex p1 x y) as [[index' lx'] ly'] eqn:Hidx'.
    destruct (Z.ltb_spec index' (sz (width p1 * height p1))); [|discriminate Hset].
    cbn [mbind option_bind] in Hset.
    destruct (rd (map p1) index') as [h|] eqn:Hh;
      cbn [mbind option_bind] in Hset; [|discriminate Hset].
    destruct (rd (age_map p1) index') as [a|] eqn:Ha;
      cbn [mbind option_bind] in Hset; [|discriminate Hset].
    fold (setCrust_age h a (clamp z) t) in Hset.
    destruct (wr (age_map p1) index' _) as [age'|] eqn:Hwa;
      cbn [mbind option_bind] in Hset; [|discriminate Hset].
    destruct (wr (map p1) index' (clamp z)) as [map'|] eqn:Hwm;
      cbn [mbind option_bind] in Hset; [|discriminate Hset].
    injection Hset as <-. exists p1, index', h, a, age', map'.
    rewrite Hidx'. simpl. repeat split; auto.
  - cbn [mbind option_bind] in Hset.
    destruct (rd (map p) index) as [h|] eqn:Hh;
      cbn [mbind option_bind] in Hset; [|discriminate Hset].
    destruct (rd (age_map p) index) as [a|] eqn:Ha;
      cbn [mbind option_bind] in Hset; [|discriminate Hset].
    fold (setCrust_age h a (clamp z) t) in Hset.
    destruct (wr (age_map p) index _) as [age'|] eqn:Hwa;
      cbn [mbind option_bind] in Hset; [|discriminate Hset].
    destruct (wr (map p) index (clamp z)) as [map'|] eqn:Hwm;
      cbn [mbind option_bind] in Hset; [|discriminate Hset].
    injection Hset as <-. exists p, index, h, a, age', map'.
    rewrite Hidx. simpl. repeat split; auto.
Qed.

(** X5: what [setCrust] writes, [getCrust] reads back.  After a returning
    [setCrust(x, y, z, t)] the crust at (x, y) is [z], or 0 when [z] was
    negative -- also when the raster had to grow for the cell. *)
Theorem setCrust_getCrust (p p' : plate) (x y : Z) (z : Q) (t : Z) :
  setCrust p x y z t = Some p' ->
  getCrust p' x y = Some (if Qltb z 0 then 0%Q else z).
Proof.
  intros Hset.
  destruct (setCrust_cases _ _ _ _ _ _ Hset)
    as (p0 & index & h & a & age' & map' & Hcase & Hidx & Hh & Ha & Hwa & Hwm & ->).
  unfold getCrust. rewrite getMapIndex_with_rasters.
  destruct (getMapIndex p0 x y) as [[i lx] ly]. simpl in Hidx. subst i. simpl.
  assert (Hlt : index < SIZE_MAX).
  { destruct Hcase as [[-> Hlt] | (_ & _ & Hlt)];
      [pose proof (sz_range (width p * height p))
      |pose proof (sz_range (width p0 * height p0))];
      unfold SIZE_MAX; lia. }
  destruct (Z.ltb_spec index SIZE_MAX); [|lia].
  apply (rd_wr_same _ _ _ _ Hwm).
Qed.

Lemma setCrust_getCrust_witness :
  exists p', setCrust (E4_B 3 2) 2 2 (7 # 2) 5 = Some p' /\
    getCrust p' 2 2 = Some (7 # 2)%Q /\ width p' = 8.
Proof.
  destruct (setCrust (E4_B 3 2) 2 2 (7 # 2) 5) as [p'|] eqn:Hs;
    [|vm_compute in Hs; discriminate Hs].
  exists p'. split; [reflexivity|].
  split; [apply (setCrust_getCrust _ _ _ _ _ _ Hs)|].
  assert (Hv : Some p' = setCrust (E4_B 3 2) 2 2 (7 # 2) 5) by (symmetry; exact Hs).
  vm_compute in Hv. injection Hv as ->. reflexivity.
Defined.






(** ** The mass field is the sum of the heights *)

Lemma Qsum_app (a b : list Q) : (Qsum (a ++ b) == Qsum a + Qsum b)%Q.
Proof.
  induction a as [|v a IH]; simpl; [ring|]. rewrite IH. ring.
Qed.

Lemma Qsum_all_zero (l : list Q) :
  (forall k v, l !! k = Some v -> v = 0%Q) -> (Qsum l == 0)%Q.
Proof.
  intros Hz. apply Qsum_zero. intros j. unfold val.
  destruct (l !! j) as [v|] eqn:Hl; simpl; [|reflexivity].
  rewrite (Hz j v Hl). reflexivity.
Qed.

Lemma memcpy_sum (dst src r : list Q) (di si n : Z) :
  memcpy dst di src si n = Some r ->
  (forall k v, di <= Z.of_nat k -> dst !! k = Some v -> v = 0%Q) ->
  (Qsum r == Qsum dst + Qsum (take (Z.to_nat n) (drop (Z.to_nat si) src)))%Q.
Proof.
  unfold memcpy. destruct (_ && _) eqn:Hc; [|discriminate].
  intros Heq Hz. injection Heq as <-.
  rewrite !andb_true_iff in Hc. destruct Hc as ((((H1 & H2) & H3) & H4) & H5).
  apply Z.leb_le in H1, H2, H3, H4, H5.
  rewrite !Qsum_app.
  rewrite <- (take_drop (Z.to_nat di) dst) at 3.
  rewrite <- (take_drop (Z.to_nat n) (drop (Z.to_nat di) dst)).
  rewrite !Qsum_app. rewrite drop_drop.
  replace (Z.to_nat di + Z.to_nat n)%nat with (Z.to_nat (di + n)) by lia.
  rewrite (Qsum_all_zero (take (Z.to_nat n) (drop (Z.to_nat di) dst))).
  - ring.
  - intros k v Hk. apply lookup_take_Some in Hk as [Hk _].
    rewrite lookup_drop in Hk. eapply Hz; [|exact Hk]. lia.
Qed.

(** The rows copied into the fresh raster carry the whole old raster: the
    sum of the heights is the same. *)
Lemma copy_rows_sum p dl dt w' n fa fs th ta ts :
  copy_rows p dl dt w' (replicate n 0%Q, fa, fs) = Some (th, ta, ts) ->
  0 <= dl -> 0 <= dt -> 0 <= width p -> 0 <= height p ->
  dl + width p <= w' < 2 ^ 32 -> dt + height p < 2 ^ 32 ->
  Z.of_nat (length (map p)) = width p * height p ->
  (Qsum th == Qsum (map p))%Q.
Proof.
  intros Hcopy Hdl Hdt Hw Hh Hw' Hh' Hlen. unfold copy_rows in Hcopy.
  assert (Hind : (forall k v, (dt + Z.of_nat (length (seqZ 0 (height p)))) * w'
                     <= Z.of_nat k -> th !! k = Some v -> v = 0%Q) /\
     (Qsum th == Qsum (take (Z.to_nat (Z.of_nat (length (seqZ 0 (height p)))
                                        * width p)) (map p)))%Q).
  { refine (for_each_inv_idx
      (fun j (s : list Q * list Z * list Z) =>
         (forall k v, (dt + Z.of_nat j) * w' <= Z.of_nat k ->
            fst (fst s) !! k = Some v -> v = 0%Q) /\
         (Qsum (fst (fst s))
          == Qsum (take (Z.to_nat (Z.of_nat j * width p)) (map p)))%Q)
      _ _ _ (th, ta, ts) _ _ Hcopy).
    - simpl. split.
      + intros k v _ Hk. apply lookup_replicate in Hk as [-> _]. reflexivity.
      + rewrite Qsum_replicate_0. reflexivity.
    - intros j a [[h0 a0] s0] [[h1 a1] s1] Hj [Hz Hs] Hb. simpl in Hz, Hs |- *.
    assert (Hjh : Z.of_nat j < height p).
    { apply lookup_lt_Some in Hj. rewrite length_seqZ in Hj. lia. }
    rewrite lookup_seqZ_lt in Hj by lia. injection Hj as <-. simpl in Hb.
    destruct (memcpy h0 _ (map p) _ (width p)) as [h0'|] eqn:M1;
      cbn [mbind option_bind] in Hb; [|discriminate Hb].
    destruct (memcpy a0 _ _ _ _); cbn [mbind option_bind] in Hb; [|discriminate Hb].
    destruct (memcpy s0 _ _ _ _); cbn [mbind option_bind] in Hb; [|discriminate Hb].
    injection Hb as <- <- <-.
    assert (Hp1 : 0 <= (dt + Z.of_nat j) * w') by (apply Z.mul_nonneg_nonneg; lia).
    assert (Hp2 : (dt + Z.of_nat j) * w' <= (2 ^ 32 - 1) * (2 ^ 32 - 1))
      by (apply Z.mul_le_mono_nonneg; lia).
    assert (Hp3 : 0 <= Z.of_nat j * width p) by (apply Z.mul_nonneg_nonneg; lia).
    assert (Hp4 : Z.of_nat j * width p <= (2 ^ 32 - 1) * (2 ^ 32 - 1))
      by (apply Z.mul_le_mono_nonneg; lia).
    rewrite Z.add_0_l in *.
    assert (Hdest : sz (sz ((dt + Z.of_nat j) * w') + dl)
                    = (dt + Z.of_nat j) * w' + dl).
    { rewrite (sz_small ((dt + Z.of_nat j) * w')) by lia. apply sz_small. lia. }
    assert (Hsrc : sz (Z.of_nat j * width p) = Z.of_nat j * width p)
      by (apply sz_small; lia).
    rewrite Hdest, Hsrc in M1.
    split.
    + intros k v Hk Hlk.
      destruct (memcpy_lookup _ _ _ _ _ _ k M1) as [_ Hlk']. rewrite Hlk' in Hlk.
      assert (Hnext : (dt + Z.of_nat (Datatypes.S j)) * w'
                      = (dt + Z.of_nat j) * w' + w') by lia.
      destruct (Z.leb_spec ((dt + Z.of_nat j) * w' + dl) (Z.of_nat k));
        destruct (Z.ltb_spec (Z.of_nat k) ((dt + Z.of_nat j) * w' + dl + width p));
        simpl in Hlk; try lia.
      apply (Hz k v); [lia | exact Hlk].
    + rewrite (memcpy_sum _ _ _ _ _ _ M1).
      * rewrite Hs. rewrite <- Qsum_app. rewrite take_take_drop.
        replace (Z.to_nat (Z.of_nat j * width p) + Z.to_nat (width p))%nat
          with (Z.to_nat (Z.of_nat (Datatypes.S j) * width p)) by lia.
        reflexivity.
      * intros k v Hk Hlk. apply (Hz k v); [lia | exact Hlk].
  }
  rewrite length_seqZ in Hind. rewrite Z2Nat.id in Hind by lia.
  destruct Hind as [_ Hsum]. rewrite Hsum. rewrite take_ge by lia. reflexivity.
Qed.

(** Growing the raster moves the heights and adds none. *)
Lemma grow_sum p x y z p1 :
  receiver_wf p -> grow p x y z = Some p1 ->
  (Qsum (map p1) == Qsum (map p))%Q.
Proof.
  intros Hrw Hg.
  pose proof Hrw as (Hfit & Hlen & Hl0 & HlW & Ht0 & HtH & Hnn).
  pose proof Hfit as (HW & HH & Hw & Hh).
  unfold grow, normalize in Hg.
  destruct (negb (Qltb 0 z)); [discriminate|].
  destruct (grow_distances p _ _) as [[[dl dr] dt] db] eqn:Hgd.
  destruct (grow_distances_spec _ _ _ _ _ _ _ Hfit Hgd)
    as ((Hdl & Hdr & Hwb & _) & (Hdt & Hdb & Hhb & _)).
  destruct (sz (dl + dr + dt + db) =? 0); [discriminate|].
  rewrite (sz_small (dl + dr)), (sz_small (dt + db)) in Hg by lia.
  rewrite (sz_small (width p + (dl + dr))) in Hg by lia.
  rewrite (sz_small (height p + (dt + db))) in Hg by lia.
  destruct (copy_rows _ _ _ _ _) as [[[tmph tmpa] tmps]|] eqn:Hcopy;
    cbn [mbind option_bind] in Hg; [|discriminate Hg].
  injection Hg as <-. simpl.
  apply (copy_rows_sum _ _ _ _ _ _ _ _ _ _ Hcopy); lia.
Qed.

(** A [setCrust] that returns keeps the books, also through a growth. *)
Lemma setCrust_books (p p' : plate) (x y : Z) (z : Q) (t : Z) :
  receiver_wf p -> booked p ->
  setCrust p x y z t = Some p' ->
  receiver_wf p' /\ booked p'.
Proof.
  intros Hrw Hbk Hset.
  destruct (setCrust_cases _ _ _ _ _ _ Hset)
    as (p0 & index & h & a & age' & map' & Hcase & _ & Hrd & _ & _ & Hwr & ->).
  assert (H0 : receiver_wf p0 /\ booked p0).
  { destruct Hcase as [[-> _] | (Hg & _ & _)]; [split; assumption|].
    destruct (grow_receiver _ _ _ _ _ Hrw Hg) as (Hrw0 & Hm & _).
    split; [exact Hrw0|]. unfold booked in *.
    rewrite Hm, (grow_sum _ _ _ _ _ Hrw Hg). exact Hbk. }
  destruct H0 as [Hrw0 Hbk0].
  assert (Hc : (0 <= clamp z)%Q).
  { unfold clamp. destruct (Qltb z 0) eqn:Hz; [apply Qle_refl|].
    apply Qltb_ge in Hz. exact Hz. }
  split.
  - apply with_rasters_receiver; [exact Hrw0| |].
    + apply (wr_length _ _ _ _ Hwr).
    + apply (wr_Forall _ _ _ _ _ Hwr); [|exact Hc].
      destruct Hrw0 as (_ & _ & _ & _ & _ & _ & Hnn). exact Hnn.
  - unfold booked in *. simpl. rewrite (Qsum_wr _ _ _ _ _ Hrd Hwr), Hbk0.
    reflexivity.
Qed.

(** X8: a [setCrust] that returns keeps invariant 1, also through a growth of
    the raster: on a plate in its world with heights that are not negative,
    whose mass is the sum of its heights, the mass is again the sum of the
    heights afterwards (and the plate is again such a plate). *)
Theorem setCrust_keeps_books (p p' : plate) (x y : Z) (z : Q) (t : Z) :
  receiver_wf p -> booked p ->
  setCrust p x y z t = Some p' ->
  receiver_wf p' /\ booked p'.
Proof. apply setCrust_books. Qed.

Lemma setCrust_keeps_books_witness :
  exists p', setCrust (E4_B 3 2) 1 1 5 0 = Some p' /\
    width p' = 8 /\ receiver_wf p' /\ booked p'.
Proof.
  destruct (setCrust (E4_B 3 2) 1 1 5 0) as [p'|] eqn:Hs;
    [|vm_compute in Hs; discriminate Hs].
  exists p'. split; [reflexivity|]. split.
  - assert (Hv : Some (width p') = width <$> setCrust (E4_B 3 2) 1 1 5 0)
      by (rewrite Hs; reflexivity).
    vm_compute in Hv. injection Hv as Hv. exact Hv.
  - apply (setCrust_keeps_books (E4_B 3 2) p' 1 1 5 0 E4_B_receiver);
      [vm_compute; reflexivity | exact Hs].
Defined.

Lemma addCrustByCollision_books p x y z t id p' :
  receiver_wf p -> booked p ->
  addCrustByCollision p x y z t id = Some p' ->
  receiver_wf p' /\ booked p'.
Proof.
  intros Hrw Hbk Ha. unfold addCrustByCollision in Ha.
  destruct (getCrust p x y) as [c|] eqn:Hc;
    cbn [mbind option_bind] in Ha; [|discriminate Ha].
  destruct (setCrust p x y (c + z) t) as [p1|] eqn:Hs;
    cbn [mbind option_bind] in Ha; [|discriminate Ha].
  destruct (setCrust_books _ _ _ _ _ _ Hrw Hbk Hs) as [Hrw1 Hbk1].
  destruct (getMapIndex p1 x y) as [[index lx] ly].
  destruct (wr (segment p1) index id) as [seg'|];
    cbn [mbind option_bind] in Ha; [|discriminate Ha].
  destruct (rd (seg_data p1) id) as [d|];
    cbn [mbind option_bind] in Ha; [|discriminate Ha].
  destruct (wr (seg_data p1) id _) as [sd'|];
    cbn [mbind option_bind] in Ha; [|discriminate Ha].
  injection Ha as <-. split.
  - apply with_rasters_receiver; [exact Hrw1 | reflexivity | apply Hrw1].
  - exact Hbk1.
Qed.

Lemma aggregate_body_books seg_id active wx wy lx ly st c st' :
  receiver_wf (snd st) /\ booked (snd st) ->
  aggregate_body seg_id active wx wy lx ly st c = Some st' ->
  receiver_wf (snd st') /\ booked (snd st').
Proof.
  destruct st as [self p], c as [x y]. intros Hinv Hb.
  unfold aggregate_body in Hb. cbv zeta in Hb.
  destruct (rd (segment self) _) as [s|];
    cbn [mbind option_bind] in Hb; [|discriminate Hb].
  destruct (s =? seg_id); [|injection Hb as <-; exact Hinv].
  destruct (rd (map self) _) as [h|] eqn:Hh;
    cbn [mbind option_bind] in Hb; [|discriminate Hb].
  destruct (Qltb 0 h) eqn:Hpos; [|injection Hb as <-; exact Hinv].
  destruct (rd (age_map self) _) as [a|];
    cbn [mbind option_bind] in Hb; [|discriminate Hb].
  destruct (addCrustByCollision p _ _ h a active) as [p'|] eqn:Ha;
    cbn [mbind option_bind] in Hb; [|discriminate Hb].
  destruct (wr (map self) _ 0%Q) as [map'|] eqn:Hw;
    cbn [mbind option_bind] in Hb; [|discriminate Hb].
  injection Hb as <-. simpl in *.
  destruct Hinv as [Hrw Hbk].
  apply (addCrustByCollision_books _ _ _ _ _ _ _ Hrw Hbk Ha).
Qed.

(** X9: [aggregateCrust] keeps invariant 1 on both plates: when the mass of
    each plate is the sum of its heights before the call, it is so after it,
    for the plate that gives its continent and for the plate that receives
    it. *)
Theorem aggregateCrust_keeps_books (A B A' B' : plate) (wx wy : Z) (r : Q) :
  receiver_wf B -> booked A -> booked B ->
  aggregateCrust A B wx wy = Some (A', B', r) ->
  booked A' /\ booked B' /\ receiver_wf B'.
Proof.
  intros Hrw HbA HbB Hag.
  destruct (aggregateCrust_inv _ _ _ _ _ _ _ Hrw Hag)
    as (_ & _ & Hr & Hq & _).
  split; [unfold booked in *; lra|].
  unfold aggregateCrust in Hag.
  destruct (getMapIndex A wx wy) as [[index lx] ly] eqn:Hidx.
  destruct (rd (segment A) index) as [seg_id|] eqn:Hseg;
    cbn [mbind option_bind] in Hag; [|discriminate Hag].
  destruct (rd (seg_data A) seg_id) as [d|] eqn:Hd;
    cbn [mbind option_bind] in Hag; [|discriminate Hag].
  destruct (isEmpty d) eqn:He.
  { injection Hag as <- <- <-. split; assumption. }
  destruct (selectCollisionSegment B wx wy) as [active|];
    cbn [mbind option_bind] in Hag; [|discriminate Hag].
  destruct (for_each _ (box_cells d) (A, B)) as [[self p]|] eqn:Hloop;
    cbn [mbind option_bind] in Hag; [|discriminate Hag].
  assert (Hinv : receiver_wf (snd (self, p)) /\ booked (snd (self, p))).
  { refine (for_each_inv (fun st => receiver_wf (snd st) /\ booked (snd st))
              _ _ _ _ _ _ Hloop).
    - split; assumption.
    - intros c s0 s1 _ H0 Hb. eapply aggregate_body_books; eauto. }
  destruct (rd (seg_data self) seg_id) as [d'|] eqn:Hd';
    cbn [mbind option_bind] in Hag; [|discriminate Hag].
  destruct (wr (seg_data self) seg_id (set_area d' 0)) as [sd'|] eqn:Hw;
    cbn [mbind option_bind] in Hag; [|discriminate Hag].
  injection Hag as <- <- <-. simpl in Hinv. tauto.
Qed.

Lemma aggregateCrust_keeps_books_witness :
  exists A' B' r,
    aggregateCrust E4_A (E4_B 3 2) 3 3 = Some (A', B', r) /\
    booked A' /\ booked B' /\ receiver_wf B'.
Proof.
  destruct (aggregateCrust E4_A (E4_B 3 2) 3 3) as [[[A' B'] r]|] eqn:Hag;
    [|vm_compute in Hag; discriminate Hag].
  exists A', B', r. split; [reflexivity|].
  apply (aggregateCrust_keeps_books E4_A (E4_B 3 2) A' B' 3 3 r E4_B_receiver);
    [vm_compute; reflexivity | vm_compute; reflexivity | exact Hag].
Defined.

(** ** Subduction *)

(** X10: on a well-formed plate [addCrustBySubduction] always returns, and it
    changes nothing but the generator (advanced by exactly two draws), the
    height and age rasters and the mass: the raster never grows and no
    continent is touched.  The mass field and the sum of the heights change by
    the same amount, which is [z] or nothing. *)
Theorem addCrustBySubduction_effect (p : plate) (x y : Z) (z : Q) (t : Z)
    (dx dy : Q) :
  plate_wf p ->
  exists p',
    addCrustBySubduction p x y z t dx dy = Some p' /\
    p' = with_rasters
           (with_randsource p (snd (rand_next (snd (rand_next (_randsource p))))))
           (map p') (age_map p') (segment p) (seg_data p) (mass p') /\
    plate_wf p' /\
    (mass p' - mass p == Qsum (map p') - Qsum (map p))%Q /\
    (mass p' = mass p \/ mass p' = (mass p + z)%Q).
Proof.
  intros (Hfit & (Hlm & Hla & Hls) & Hw & Hh).
  pose proof Hfit as (HW & HH & Hww & Hhh).
  unfold addCrustBySubduction.
  destruct (getMapIndex p x y) as [[i0 lx] ly].
  destruct (rand_next (_randsource p)) as [r1 g1] eqn:Hr1.
  change (snd (r1, g1)) with g1.
  destruct (rand_next g1) as [r2 g2] eqn:Hr2.
  change (snd (r2, g2)) with g2.
  destruct (subduction_offset _ _) as [ox oy].
  set (xx := if width p =? _ then _ else _).
  set (yy := if height p =? _ then _ else _).
  cbn [width height map age_map with_randsource].
  assert (Hwh : sz (width p * height p) = width p * height p).
  { apply sz_small. split; [apply Z.mul_nonneg_nonneg; lia|].
    assert (width p * height p <= (2 ^ 32 - 1) * (2 ^ 32 - 1))
      by (apply Z.mul_le_mono_nonneg; lia). lia. }
  rewrite Hwh.
  assert (Hself : forall q : plate, q = with_randsource p g2 ->
    q = with_rasters (with_randsource p g2) (map q) (age_map q)
          (segment p) (seg_data p) (mass q) /\ plate_wf q /\
    (mass q - mass p == Qsum (map q) - Qsum (map p))%Q /\
    (mass q = mass p \/ mass q = (mass p + z)%Q)).
  { intros q ->. split; [reflexivity|]. split.
    - unfold plate_wf, fits_world, rasters_sized. simpl. tauto.
    - simpl. split; [ring | left; reflexivity]. }
  set (index := sz (sz (yy * width p) + xx)).
  assert (Hi0 : 0 <= index) by (apply sz_range).
  destruct (Z.ltb_spec index (width p * height p)) as [Hlt|];
    [|eexists; split; [reflexivity|]; apply Hself; reflexivity].
  destruct (rd_Some (map p) index) as [h Hrd]; [lia|]. rewrite Hrd.
  cbn [mbind option_bind].
  destruct (Qltb 0 h);
    [|eexists; split; [reflexivity|]; apply Hself; reflexivity].
  destruct (rd_Some (age_map p) index) as [a Hra]; [lia|]. rewrite Hra.
  cbn [mbind option_bind].
  destruct (wr_Some (age_map p) index
              (sz (float_to_size ((h * inject_Z a + z * inject_Z t) / (h + z))
                   * Z.b2z (Qltb 0 z)))) as [age' [Hwa _]]; [lia|].
  rewrite Hwa. cbn [mbind option_bind].
  destruct (wr_Some (map p) index (h + z)%Q) as [map' [Hwm _]]; [lia|].
  rewrite Hwm. cbn [mbind option_bind].
  eexists. split; [reflexivity|]. simpl.
  split; [reflexivity|]. split.
  - unfold plate_wf, fits_world, rasters_sized. simpl.
    rewrite (wr_length _ _ _ _ Hwm), (wr_length _ _ _ _ Hwa). tauto.
  - split; [|right; reflexivity].
    rewrite (Qsum_wr _ _ _ _ _ Hrd Hwm). ring.
Qed.

Lemma addCrustBySubduction_effect_witness :
  exists p',
    addCrustBySubduction (E5_plate 8 8 (fun _ => 0)) 1 1 2 5 1 0 = Some p' /\
    drawn (_randsource p') = 2%nat /\ segment p' = segment (E5_plate 8 8 (fun _ => 0)) /\
    (mass p' - 10 == Qsum (map p') - 10)%Q.
Proof.
  destruct (addCrustBySubduction_effect (E5_plate 8 8 (fun _ => 0)) 1 1 2 5 1 0)
    as (p' & Hs & Hf & _ & Hm & _).
  - apply E5_plate_wf; lia.
  - exists p'. split; [exact Hs|]. rewrite Hf. simpl.
    split; [reflexivity|]. split; [reflexivity|]. rewrite Hf in Hm. exact Hm.
Defined.

(** ** Movement *)

Lemma move_unfold `{Platform} (p : plate) :
  move p =
  let '(vx', vy', vel) := move_velocity p in
  if negb (world_contains (_worldDimension p) (left p) (top p)) then None else
  let l := wrap_coordinate (getWidth (_worldDimension p)) (left p + vx' * vel) in
  let t := wrap_coordinate (getHeight (_worldDimension p)) (top p + vy' * vel) in
  if negb (world_contains (_worldDimension p) l t) then None else
  Some (with_motion (with_impulse p 0 0) l t vx' vy' vel).
Proof. reflexivity. Qed.

Lemma world_contains_spec wd x y :
  world_contains wd x y = true <->
  (0 <= x)%Q /\ (x < inject_Z (getWidth wd))%Q /\
  (0 <= y)%Q /\ (y < inject_Z (getHeight wd))%Q.
Proof.
  unfold world_contains. rewrite !andb_true_iff, !Qltb_lt, !Qle_bool_iff. tauto.
Qed.


(** X11: what a returning [move] guarantees: the scalar velocity is not
    negative (it is the old one plus the length of the new direction minus one,
    or zero when that is negative), and the origin lay in the world before and
    lies in it after. *)
Theorem move_postcondition `{Platform} (p p' : plate) :
  move p = Some p' ->
  (0 <= velocity p')%Q /\
  world_contains (_worldDimension p) (left p) (top p) = true /\
  (0 <= left p')%Q /\ (left p' < inject_Z (getWidth (_worldDimension p)))%Q /\
  (0 <= top p')%Q /\ (top p' < inject_Z (getHeight (_worldDimension p)))%Q.
Proof.
  rewrite move_unfold. intros Hm.
  destruct (move_velocity p) as [[vx' vy'] vel] eqn:Hv.
  cbv beta iota zeta in Hm.
  destruct (world_contains _ (left p) (top p)) eqn:H0;
    simpl negb in Hm; cbv beta iota zeta in Hm; [|discriminate Hm].
  match type of Hm with (if negb ?c then _ else _) = _ =>
    destruct c eqn:H1 end;
    simpl negb in Hm; cbv beta iota zeta in Hm; [|discriminate Hm].
  injection Hm as <-. simpl.
  apply world_contains_spec in H1. split; [|tauto].
  unfold move_velocity in Hv. injection Hv as _ _ <-.
  match goal with |- (0 <= ?v * b2q (Qltb 0 ?v))%Q =>
    destruct (Qltb 0 v) eqn:Hp end.
  - apply Qltb_lt in Hp. change (b2q true) with 1%Q. lra.
  - change (b2q false) with 0%Q. lra.
Qed.

Lemma move_postcondition_witness :
  exists p', move (H := example_platform) E3_A = Some p' /\
    (0 <= velocity p')%Q /\ (0 <= left p')%Q /\ (left p' < 8)%Q.
Proof.
  destruct (move (H := example_platform) E3_A) as [p'|] eqn:Hm;
    [|vm_compute in Hm; discriminate Hm].
  exists p'. split; [reflexivity|].
  destruct (move_postcondition (H := example_platform) E3_A p' Hm)
    as (Hv & _ & Hl & Hr & _).
  repeat split; assumption.
Defined.



(** ** The constructor *)

Lemma wr_inv {A} (a a' : list A) i v :
  wr a i v = Some a' ->
  0 <= i < Z.of_nat (length a) /\ a' = <[Z.to_nat i := v]> a.
Proof.
  unfold wr. destruct (Z.leb_spec 0 i), (Z.ltb_spec i (Z.of_nat (length a)));
    simpl; try discriminate.
  intros Heq. injection Heq as <-. split; [lia | reflexivity].
Qed.

Lemma rd_inv {A} (a : list A) i v :
  rd a i = Some v -> 0 <= i < Z.of_nat (length a) /\ a !! Z.to_nat i = Some v.
Proof.
  unfold rd. destruct (Z.leb_spec 0 i); [|discriminate].
  intros Hl. split; [|exact Hl]. apply lookup_lt_Some in Hl. lia.
Qed.

(** Filling cell [i] of a buffer whose first [i] cells are filled. *)
Lemma fill_next {A} (done : list A) (n : nat) (z v : A) :
  (length done < n)%nat ->
  <[length done := v]> (done ++ replicate (n - length done) z)
  = (done ++ [v]) ++ replicate (n - Datatypes.S (length done)) z.
Proof.
  intros Hlt. rewrite insert_app_r_alt by lia.
  replace (length done - length done)%nat with O by lia.
  replace (n - length done)%nat with (Datatypes.S (n - Datatypes.S (length done)))
    by lia.
  simpl. rewrite <- app_assoc. reflexivity.
Qed.

(** What the copy loop of the constructor has done after [i] cells. *)
Lemma ctor_loop_inv buf w h plate_age n s :
  0 < w -> 0 < h -> 0 <= plate_age < 2 ^ 64 ->
  for_each (ctor_body buf w plate_age) (cells w h)
    {| cs_k := 0; cs_mass := 0; cs_cx := 0; cs_cy := 0;
       cs_map := replicate n 0%Q; cs_age := replicate n 0 |} = Some s ->
  n = Z.to_nat (w * h) ->
  cs_map s = take n buf /\ length (cs_map s) = n /\
  cs_age s = (fun v => if Qltb 0 v then plate_age else 0) <$> cs_map s /\
  (cs_mass s == Qsum (cs_map s))%Q.
Proof.
  intros Hw Hh Hage Hloop Hn.
  set (f := fun v : Q => if Qltb 0 v then plate_age else 0).
  assert (Hinv :
    cs_k s = Z.of_nat (length (cells w h)) /\
    length (take (length (cells w h)) buf) = length (cells w h) /\
    cs_map s = take (length (cells w h)) buf
               ++ replicate (n - length (cells w h)) 0%Q /\
    cs_age s = (f <$> take (length (cells w h)) buf)
               ++ replicate (n - length (cells w h)) 0 /\
    (cs_mass s == Qsum (take (length (cells w h)) buf))%Q).
  { refine (for_each_inv_idx
      (fun i s => cs_k s = Z.of_nat i /\ length (take i buf) = i /\
         cs_map s = take i buf ++ replicate (n - i) 0%Q /\
         cs_age s = (f <$> take i buf) ++ replicate (n - i) 0 /\
         (cs_mass s == Qsum (take i buf))%Q)
      _ _ _ s _ _ Hloop).
    - simpl. rewrite Nat.sub_0_r. repeat split; reflexivity.
    - intros i [x y] s0 s1 Hc (Hk & Hlen & Hm & Ha & Hs) Hb.
      destruct (cells_lookup _ _ _ _ _ (Z.lt_le_incl _ _ Hw) (Z.lt_le_incl _ _ Hh) Hc) as (Hi & Hx & Hy).
      assert (Hlt : (i < length (cells w h))%nat) by (eapply lookup_lt_Some; eauto).
      rewrite cells_length in Hlt by lia.
      unfold ctor_body in Hb. rewrite Hk in Hb.
      destruct (rd buf (Z.of_nat i)) as [mk|] eqn:Hrd;
        cbn [mbind option_bind] in Hb; [|discriminate Hb].
      destruct (wr (cs_map s0) (Z.of_nat i) mk) as [map'|] eqn:Hwm;
        cbn [mbind option_bind] in Hb; [|discriminate Hb].
      destruct (wr (cs_age s0) (y * w + x) _) as [age'|] eqn:Hwa;
        cbn [mbind option_bind] in Hb; [|discriminate Hb].
      injection Hb as <-. simpl.
      apply rd_inv in Hrd as [Hib Hbi]. rewrite Nat2Z.id in Hbi.
      apply wr_inv in Hwm as [_ ->]. apply wr_inv in Hwa as [_ ->].
      rewrite <- Hi, Nat2Z.id. rewrite (land_mask _ _ Hage).
      rewrite (take_S_r _ _ _ Hbi).
      split; [lia|]. split; [rewrite length_app, Hlen; simpl; lia|].
      split; [|split].
      + rewrite Hm. rewrite <- Hlen at 1 3 4. rewrite fill_next by lia.
        rewrite Hlen. reflexivity.
      + rewrite Ha. rewrite fmap_app. simpl.
        assert (Hlf : length (f <$> take i buf) = i)
          by (rewrite length_fmap; exact Hlen).
        rewrite <- Hlf at 1 3 4. rewrite fill_next by lia.
        rewrite Hlf. reflexivity.
      + rewrite Qsum_app, Hs. simpl. ring. }
  rewrite cells_length in Hinv by lia. rewrite <- Hn in Hinv.
  rewrite Nat.sub_diag in Hinv. simpl in Hinv. rewrite !app_nil_r in Hinv.
  destruct Hinv as (_ & Hlen & Hm & Ha & Hs).
  rewrite Hm. repeat split; assumption.
Qed.

(** X13: what the constructor builds when it returns a plate (for arguments
    that are values of [size_t], with [w * h] not wrapping): the height raster
    is a copy of the first [w * h] heights given, every cell with crust has
    the age [plate_age] and every other cell the age 0, the mass is the sum of
    the heights, no cell belongs to a continent and no continent is known, the
    plate stands at [(_x, _y)] with velocity 1 and no pending impulse, and two
    values have been drawn from the generator. *)
Theorem plate_new_postcondition `{Platform} (seed : Z) (buf : list Q)
    (w h _x _y plate_age : Z) (wd : WorldDimension) (p : plate) :
  w * h < 2 ^ 64 -> plate_age < 2 ^ 64 ->
  plate_new seed (Some buf) w h _x _y plate_age wd = Ok p ->
  map p = take (Z.to_nat (w * h)) buf /\
  age_map p = (fun v => if Qltb 0 v then plate_age else 0) <$> map p /\
  booked p /\
  segment p = replicate (Z.to_nat (w * h)) SIZE_MAX /\ seg_data p = [] /\
  rasters_sized p /\
  width p = w /\ height p = h /\ left p = inject_Z _x /\ top p = inject_Z _y /\
  _worldDimension p = wd /\
  velocity p = 1%Q /\ dx p = 0%Q /\ dy p = 0%Q /\
  drawn (_randsource p) = 2%nat.
Proof.
  intros Hsz Hage Hnew. unfold plate_new in Hnew.
  destruct (Z.leb_spec w 0); [discriminate|].
  destruct (Z.leb_spec h 0); [discriminate|].
  destruct (Z.ltb_spec _x 0); [discriminate|].
  destruct (Z.ltb_spec _y 0); [discriminate|].
  destruct (Z.ltb_spec plate_age 0); [discriminate|]. simpl in Hnew.
  assert (Harea : sz (w * h) = w * h) by (apply sz_small; nia).
  rewrite Harea in Hnew.
  destruct (for_each _ _ _) as [s|] eqn:Hloop; [|discriminate].
  injection Hnew as <-. simpl.
  assert (Hw : 0 < w) by lia. assert (Hh : 0 < h) by lia.
  assert (Hag : 0 <= plate_age < 2 ^ 64) by lia.
  destruct (ctor_loop_inv _ _ _ _ _ _ Hw Hh Hag Hloop eq_refl)
    as (Hm & Hlen & Ha & Hs).
  unfold booked, rasters_sized. simpl.
  assert (Hla : length (cs_age s) = Z.to_nat (w * h))
    by (rewrite Ha, length_fmap; exact Hlen).
  rewrite length_replicate, Hlen, Hla.
  repeat split; try assumption; try reflexivity; nia.
Qed.

Lemma plate_new_postcondition_witness :
  exists p,
    plate_new (H := example_platform) 7 (Some [0; 2; 2; 0]%Q) 2 2 0 0 100
      {| getWidth := 4; getHeight := 4 |} = Ok p /\
    map p = [0; 2; 2; 0]%Q /\ age_map p = [0; 100; 100; 0] /\
    (mass p == 4)%Q.
Proof.
  assert (Hok : match plate_new (H := example_platform) 7
                         (Some [0; 2; 2; 0]%Q) 2 2 0 0 100
                         {| getWidth := 4; getHeight := 4 |}
                 with Ok _ => true | _ => false end = true)
    by (vm_compute; reflexivity).
  destruct (plate_new (H := example_platform) 7 (Some [0; 2; 2; 0]%Q) 2 2 0 0 100
              {| getWidth := 4; getHeight := 4 |}) as [p| |] eqn:Hnew;
    [|discriminate Hok..].
  exists p. split; [reflexivity|].
  destruct (plate_new_postcondition (H := example_platform) 7 [0; 2; 2; 0]%Q
              2 2 0 0 100 {| getWidth := 4; getHeight := 4 |} p)
    as (Hm & Ha & Hb & _); [lia | lia | exact Hnew |].
  split; [rewrite Hm; reflexivity|].
  split; [rewrite Ha, Hm; reflexivity|].
  unfold booked in Hb. rewrite Hb, Hm. reflexivity.
Defined.

(** ** Erosion always returns *)

Lemma unmarked_mark (isDone : list Z) (i : nat) :
  isDone !! i = Some 0 ->
  (unmarked (<[i := 1%Z]> isDone) + 1 = unmarked isDone)%nat.
Proof.
  unfold unmarked. revert i. induction isDone as [|d l IH]; intros [|i] Hl;
    try discriminate.
  - injection Hl as ->. change (<[0%nat := 1]> (0 :: l)) with (1 :: l).
    rewrite (filter_cons_False (fun d => d = 0) 1 l) by discriminate.
    rewrite (filter_cons_True (fun d => d = 0) 0 l) by reflexivity.
    simpl. lia.
  - change (<[Datatypes.S i := 1]> (d :: l)) with (d :: <[i := 1]> l).
    change ((d :: l) !! Datatypes.S i) with (l !! i) in Hl.
    specialize (IH i Hl).
    destruct (decide (d = 0)) as [Hd | Hd].
    + rewrite !(filter_cons_True (fun d => d = 0) d) by exact Hd. simpl. lia.
    + rewrite !(filter_cons_False (fun d => d = 0) d) by exact Hd. exact IH.
Qed.

Lemma unmarked_replicate (n : nat) : unmarked (replicate n 0) = n.
Proof.
  unfold unmarked. induction n as [|n IH]; [reflexivity|].
  change (replicate (Datatypes.S n) 0) with (0 :: replicate n 0).
  rewrite (filter_cons_True (fun d => d = 0) 0) by reflexivity.
  simpl. rewrite IH. reflexivity.
Qed.

Lemma bit_factor msk b :
  Z.land (mask msk) (Z.b2z b) = 0 \/ Z.land (mask msk) (Z.b2z b) = 1.
Proof. destruct msk, b; vm_compute; auto. Qed.

Lemma filter_height_nonneg m msk b :
  (0 <= m)%Q -> (0 <= m * inject_Z (Z.land (mask msk) (Z.b2z b)))%Q.
Proof.
  intros Hm. destruct (bit_factor msk b) as [-> | ->].
  - change (inject_Z 0) with 0%Q. lra.
  - change (inject_Z 1) with 1%Q. lra.
Qed.

Lemma calculateCrust_nonneg p x y index cr :
  Forall (Qle 0) (map p) ->
  calculateCrust p x y index = Some cr ->
  (0 <= w_crust cr)%Q /\ (0 <= e_crust cr)%Q /\
  (0 <= n_crust cr)%Q /\ (0 <= s_crust cr)%Q.
Proof.
  intros Hnn Hc. unfold calculateCrust in Hc. cbv zeta in Hc.
  bind_step Hc here Hh. bind_step Hc mw Hw. bind_step Hc me He.
  bind_step Hc mn Hn. bind_step Hc ms Hs.
  injection Hc as <-. simpl.
  pose proof (rd_Forall _ _ _ _ Hw Hnn). pose proof (rd_Forall _ _ _ _ He Hnn).
  pose proof (rd_Forall _ _ _ _ Hn Hnn). pose proof (rd_Forall _ _ _ _ Hs Hnn).
  repeat split; apply filter_height_nonneg; assumption.
Qed.

Lemma plate_wf_area p :
  plate_wf p ->
  sz (width p * height p) = width p * height p /\ 0 < width p * height p /\
  0 < width p < 2 ^ 32 /\ 0 < height p < 2 ^ 32.
Proof.
  intros ((HW & HH & Hw & Hh) & _ & Hw0 & Hh0).
  assert (0 < width p * height p) by (apply Z.mul_pos_pos; lia).
  assert (width p * height p <= (2 ^ 32 - 1) * (2 ^ 32 - 1))
    by (apply Z.mul_le_mono_nonneg; lia).
  split; [apply sz_small; lia|]. lia.
Qed.

(** The scan for tops reads inside the raster only, and every source it
    collects is a cell of the raster. *)
Lemma tops_total p lower_bound :
  plate_wf p ->
  exists sources,
    for_each (tops_body p lower_bound) (cells (width p) (height p)) []
      = Some sources /\ Forall (in_raster p) sources.
Proof.
  intros Hwf. pose proof Hwf as (_ & (Hlm & _ & _) & _ & _).
  destruct (plate_wf_area p Hwf) as (Hsz & Hpos & Hw & Hh).
  destruct (for_each_ind (fun _ srcs => Forall (in_raster p) srcs)
              (tops_body p lower_bound) (cells (width p) (height p)) [])
    as (srcs & Hf & Hs).
  - apply List.Forall_nil.
  - intros i [x y] s0 Hc Hs0.
    destruct (cells_lookup _ _ _ _ _ (Z.lt_le_incl _ _ (proj1 Hw))
                (Z.lt_le_incl _ _ (proj1 Hh)) Hc) as (Hi & Hx & Hy).
    destruct (cell_index _ _ x y Hw Hh Hx Hy) as [Hidx Hrange].
    unfold tops_body. rewrite Hidx.
    destruct (rd_Some (map p) (y * width p + x)) as [here ->]; [lia|].
    cbn [mbind option_bind].
    destruct (Qltb here lower_bound); [eexists; split; [reflexivity | exact Hs0]|].
    destruct (calculateCrust_total p x y Hwf Hx Hy) as (cr & -> & _).
    cbn [mbind option_bind].
    destruct (Qeqb _ 0); eexists; (split; [reflexivity|]); [exact Hs0|].
    apply List.Forall_cons; [exact Hrange | exact Hs0].
  - exists srcs. split; assumption.
Qed.


Lemma mark_total p base sinks isDone (dest : Z) :
  plate_wf p -> 0 <= dest ->
  Forall (in_raster p) sinks ->
  Z.of_nat (length isDone) = width p * height p ->
  (unmarked isDone + length sinks = base)%nat ->
  exists sinks' isDone',
    (if dest <? sz (width p * height p) then
       done ← rd isDone dest;
       if done =? 0 then
         isDone' ← wr isDone dest 1; Some (dest :: sinks, isDone')
       else Some (sinks, isDone)
     else Some (sinks, isDone)) = Some (sinks', isDone') /\
    Forall (in_raster p) sinks' /\
    Z.of_nat (length isDone') = width p * height p /\
    (unmarked isDone' + length sinks' = base)%nat.
Proof.
  intros Hwf Hd Hs Hl Hb.
  destruct (plate_wf_area p Hwf) as (-> & _).
  destruct (Z.ltb_spec dest (width p * height p)) as [Hlt|];
    [|exists sinks, isDone; auto].
  destruct (rd_Some isDone dest) as [done Hrd]; [lia|]. rewrite Hrd.
  cbn [mbind option_bind].
  destruct (Z.eqb_spec done 0) as [-> |]; [|exists sinks, isDone; auto].
  destruct (wr_Some isDone dest 1) as (isDone' & Hwr & Hlen); [lia|].
  rewrite Hwr. cbn [mbind option_bind].
  exists (dest :: sinks), isDone'. split; [reflexivity|].
  split; [apply List.Forall_cons; [split; assumption | exact Hs]|].
  split; [rewrite Hlen; exact Hl|].
  apply wr_inv in Hwr as [_ ->]. apply rd_inv in Hrd as [_ Hrd].
  pose proof (unmarked_mark _ _ Hrd). simpl. lia.
Qed.

(** One turn of the river loop on a source inside the raster: no read or
    write leaves the buffers, and [river_inv] is kept. *)
Lemma river_body_total p lower_bound base st index :
  plate_wf p -> (0 <= lower_bound)%Q -> in_raster p index ->
  river_inv p base st ->
  exists st', river_body p lower_bound st index = Some st' /\
    river_inv p base st'.
Proof.
  intros Hwf Hlb Hin Hinv. destruct st as [[sinks isDone] tmp].
  pose proof Hinv as (Hs & Hld & Hlt & Hb & Hnn).
  pose proof Hwf as (_ & (Hlm & _ & _) & _ & _).
  destruct (plate_wf_area p Hwf) as (Hsz & Hpos & Hw & Hh).
  unfold in_raster in Hin.
  unfold river_body. cbv zeta.
  set (y := index / width p).
  assert (Hy : 0 <= y < height p).
  { subst y. split; [apply Z.div_pos; lia|].
    apply Z.div_lt_upper_bound; lia. }
  assert (Hyw : 0 <= y * width p <= index).
  { subst y. split; [apply Z.mul_nonneg_nonneg; lia|].
    rewrite Z.mul_comm. apply Z.mul_div_le. lia. }
  assert (Hbig : width p * height p <= (2 ^ 32 - 1) * (2 ^ 32 - 1))
    by (apply Z.mul_le_mono_nonneg; lia).
  rewrite (sz_small (y * width p)) by lia.
  rewrite (sz_small (index - y * width p)) by lia.
  set (x := index - y * width p).
  assert (Hx : 0 <= x < width p).
  { subst x y. pose proof (Z.mod_pos_bound index (width p) ltac:(lia)) as Hm.
    rewrite Z.mod_eq in Hm by lia. lia. }
  assert (Hidx : index = y * width p + x) by (subst x; lia).
  destruct (rd_Some (map p) index) as [here Hhere]; [lia|]. rewrite Hhere.
  cbn [mbind option_bind].
  destruct (Qltb here lower_bound);
    [eexists; split; [reflexivity | exact Hinv]|].
  destruct (calculateCrust_total p x y Hwf Hx Hy) as (cr & Hcr & _).
  rewrite <- Hidx in Hcr. rewrite Hcr. cbn [mbind option_bind].
  destruct (Qeqb _ 0); [eexists; split; [reflexivity | exact Hinv]|].
  destruct (rd_Some tmp index) as [t Ht]; [lia|].
  destruct (wr_Some tmp index (t - (t - lower_bound) * (2 # 10))%Q)
    as (tmp' & Hwr & Hlen'); [lia|].
  assert (Hnn' : Forall (Qle 0) tmp').
  { apply (wr_Forall _ _ _ _ _ Hwr Hnn).
    pose proof (rd_Forall _ _ _ _ Ht Hnn) as Ht0. simpl in Ht0. lra. }
  repeat match goal with
         | |- context [if Qltb ?a ?b then _ else _] => destruct (Qltb a b)
         end;
    match goal with
    | |- context [rd isDone ?d] =>
      destruct (mark_total p base sinks isDone d Hwf (proj1 (sz_range _)) Hs Hld Hb)
        as (sinks' & isDone' & -> & Hs' & Hld' & Hb')
    end;
    cbn [mbind option_bind]; rewrite Ht; cbn [mbind option_bind];
    rewrite Hwr; cbn [mbind option_bind];
    (eexists; split; [reflexivity|]); unfold river_inv;
    rewrite Hlen'; auto.
Qed.

(** The river loop stops: every round but the first starts from sinks that
    were unmarked before, so it ends within [unmarked isDone + 2] rounds. *)
Lemma river_total p lower_bound (fuel : nat) :
  plate_wf p -> (0 <= lower_bound)%Q ->
  forall sources isDone tmp,
    Forall (in_raster p) sources ->
    Z.of_nat (length isDone) = width p * height p ->
    Z.of_nat (length tmp) = width p * height p ->
    Forall (Qle 0) tmp ->
    (sources = [] /\ (1 <= fuel)%nat) \/ (unmarked isDone + 2 <= fuel)%nat ->
    exists tmp',
      river fuel p lower_bound sources isDone tmp = Some tmp' /\
      Z.of_nat (length tmp') = width p * height p /\ Forall (Qle 0) tmp'.
Proof.
  intros Hwf Hlb. induction fuel as [|fuel IH];
    intros sources isDone tmp Hsrc Hld Hlt Hnn Hfuel; [lia|].
  destruct (decide (sources = [])) as [-> | Hne].
  { exists tmp. simpl. auto. }
  destruct Hfuel as [[Hnil _] | Hfuel]; [congruence|].
  assert (Hround : exists st',
    for_each (river_body p lower_bound) sources ([], isDone, tmp) = Some st' /\
    river_inv p (unmarked isDone) st').
  { destruct (for_each_ind (fun _ st => river_inv p (unmarked isDone) st)
                (river_body p lower_bound) sources ([], isDone, tmp))
      as (st' & Hf & Hinv).
    - unfold river_inv. simpl. repeat split; try assumption; try lia.
      apply List.Forall_nil.
    - intros i a st Ha Hst.
      apply (river_body_total p lower_bound _ st a Hwf Hlb); [|exact Hst].
      rewrite Forall_lookup in Hsrc. apply (Hsrc i a Ha).
    - exists st'. split; assumption. }
  destruct Hround as ([[sinks isDone'] tmp'] & Hf & Hs & Hld' & Hlt' & Hb & Hnn').
  destruct (IH sinks isDone' tmp' Hs Hld' Hlt' Hnn') as (r & Hr & Hlr & Hnr).
  { destruct sinks as [|k sinks]; [left; split; [reflexivity | lia]|].
    right. simpl in Hb. lia. }
  exists r. split; [|split; assumption].
  assert (Hunf : river (Datatypes.S fuel) p lower_bound sources isDone tmp
                 = ('(sinks, isDone', tmp') ←
                      for_each (river_body p lower_bound) sources
                        ([], isDone, tmp);
                    river fuel p lower_bound sinks isDone' tmp'))
    by (destruct sources; [congruence | reflexivity]).
  rewrite Hunf, Hf. cbn [mbind option_bind]. exact Hr.
Qed.

Lemma val_nonneg (l : list Q) (j : nat) : Forall (Qle 0) l -> (0 <= val l j)%Q.
Proof.
  intros Hnn. unfold val. destruct (l !! j) as [v|] eqn:Hl; simpl; [|lra].
  rewrite Forall_lookup in Hnn. apply (Hnn j v Hl).
Qed.

(** [a[i] += v] with [v >= 0]: inside the buffer, nothing becomes negative and
    no cell shrinks. *)
Lemma add_at_pos (a : list Q) (i : Z) (v : Q) :
  0 <= i < Z.of_nat (length a) -> Forall (Qle 0) a -> (0 <= v)%Q ->
  exists a', add_at a i v = Some a' /\ length a' = length a /\
    Forall (Qle 0) a' /\ forall j, (val a j <= val a' j)%Q.
Proof.
  intros Hi Hnn Hv. unfold add_at.
  destruct (rd_Some a i Hi) as [old Hrd]. rewrite Hrd. cbn [mbind option_bind].
  destruct (wr_Some a i (old + v)%Q Hi) as (a' & Hwr & Hlen).
  exists a'. split; [exact Hwr|]. split; [exact Hlen|].
  pose proof (rd_Forall _ _ _ _ Hrd Hnn) as Hold. simpl in Hold.
  split; [apply (wr_Forall _ _ _ _ _ Hwr Hnn); lra|].
  intros j. rewrite (wr_val _ _ _ _ j Hwr).
  destruct (decide (j = Z.to_nat i)) as [-> |]; [|lra].
  rewrite (rd_val _ _ _ Hrd). lra.
Qed.

(** [a[i] -= m] where the cell holds at least [m]. *)
Lemma add_at_neg (a : list Q) (i : Z) (m : Q) :
  0 <= i < Z.of_nat (length a) -> Forall (Qle 0) a ->
  (m <= val a (Z.to_nat i))%Q ->
  exists a', add_at a i (- m)%Q = Some a' /\ length a' = length a /\
    Forall (Qle 0) a'.
Proof.
  intros Hi Hnn Hm. unfold add_at.
  destruct (rd_Some a i Hi) as [old Hrd]. rewrite Hrd. cbn [mbind option_bind].
  destruct (wr_Some a i (old + - m)%Q Hi) as (a' & Hwr & Hlen).
  exists a'. split; [exact Hwr|]. split; [exact Hlen|].
  rewrite (rd_val _ _ _ Hrd) in Hm.
  apply (wr_Forall _ _ _ _ _ Hwr Hnn). lra.
Qed.

Lemma min_step_le (m e : Q) :
  (m - (m - e) * b2q (Qltb e m) <= m /\ m - (m - e) * b2q (Qltb e m) <= e)%Q.
Proof.
  destruct (Qltb e m) eqn:Hlt; unfold b2q; simpl Z.b2z.
  - apply Qltb_lt in Hlt. change (inject_Z 1) with 1%Q. lra.
  - apply Qltb_ge in Hlt. change (inject_Z 0) with 0%Q. lra.
Qed.

Lemma Qdiv_nonneg (a b : Q) : (0 <= a -> 0 <= b -> 0 <= a / b)%Q.
Proof.
  intros Ha Hb. unfold Qdiv. apply Qmult_le_0_compat; [exact Ha|].
  apply Qinv_le_0_compat. exact Hb.
Qed.

Ltac nonneg_amount :=
  first [ lra
        | apply Qmult_le_0_compat;
          [first [assumption | lra
                 | apply Qmult_le_0_compat; [assumption | lra]] | lra] ].

Ltac add_pos_step idx :=
  match goal with
  | |- context [add_at ?a ?i ?v] =>
    let a' := fresh "tmp" in
    let Hl := fresh "Hl" in let Hn := fresh "Hn" in let Hm := fresh "Hm" in
    destruct (add_at_pos a i v) as (a' & -> & Hl & Hn & Hm);
    [ lia | assumption | nonneg_amount | ];
    specialize (Hm (Z.to_nat idx)); cbn [mbind option_bind]
  end.

Ltac add_neg_step :=
  match goal with
  | |- context [add_at ?a ?i (- ?m)%Q] =>
    let a' := fresh "tmp" in
    let Hl := fresh "Hl" in let Hn := fresh "Hn" in
    destruct (add_at_neg a i m) as (a' & -> & Hl & Hn);
    [ lia | assumption | lra | ]; cbn [mbind option_bind]
  end.

(** The redistribution of one cell never fails: the difference sum is not
    negative, every write is inside the buffer, and no height becomes
    negative. *)
Lemma redistribute_total here cr index tmp :
  (0 <= here)%Q ->
  filtered here (w_crust cr) -> filtered here (e_crust cr) ->
  filtered here (n_crust cr) -> filtered here (s_crust cr) ->
  (0 <= w_crust cr)%Q -> (0 <= e_crust cr)%Q ->
  (0 <= n_crust cr)%Q -> (0 <= s_crust cr)%Q ->
  0 <= index < Z.of_nat (length tmp) ->
  0 <= w_idx cr < Z.of_nat (length tmp) -> 0 <= e_idx cr < Z.of_nat (length tmp) ->
  0 <= n_idx cr < Z.of_nat (length tmp) -> 0 <= s_idx cr < Z.of_nat (length tmp) ->
  Forall (Qle 0) tmp -> (here <= val tmp (Z.to_nat index))%Q ->
  exists tmp', redistribute here cr index tmp = Some tmp' /\
    length tmp' = length tmp /\ Forall (Qle 0) tmp'.
Proof.
  intros Hh Fw Fe Fn Fs Cw Ce Cn Cs Ii Iw Ie In Is Hnn Hval.
  unfold redistribute. cbv zeta.
  pose proof (diff_nonneg _ _ Hh Fw) as Dw. pose proof (diff_nonneg _ _ Hh Fe) as De.
  pose proof (diff_nonneg _ _ Hh Fn) as Dn. pose proof (diff_nonneg _ _ Hh Fs) as Ds.
  assert (Uw : (here - w_crust cr <= here)%Q) by lra.
  remember (here - w_crust cr)%Q as dw. remember (here - e_crust cr)%Q as de.
  remember (here - n_crust cr)%Q as dn. remember (here - s_crust cr)%Q as ds.
  pose proof (min_step_nonneg _ _ Dw De) as M1.
  pose proof (min_step_le dw de) as [L1a L1b].
  remember (dw - (dw - de) * b2q (Qltb de dw))%Q as m1.
  pose proof (min_step_nonneg _ _ M1 Dn) as M2.
  pose proof (min_step_le m1 dn) as [L2a L2b].
  remember (m1 - (m1 - dn) * b2q (Qltb dn m1))%Q as m2.
  pose proof (min_step_nonneg _ _ M2 Ds) as M3.
  pose proof (min_step_le m2 ds) as [L3a L3b].
  remember (m2 - (m2 - ds) * b2q (Qltb ds m2))%Q as m.
  clear Heqm Heqm2 Heqm1 Heqdw Heqde Heqdn Heqds Fw Fe Fn Fs.
  destruct (b2q_cases (Qltb 0 (w_crust cr))) as [Bw | Bw];
  destruct (b2q_cases (Qltb 0 (e_crust cr))) as [Be | Be];
  destruct (b2q_cases (Qltb 0 (n_crust cr))) as [Bn | Bn];
  destruct (b2q_cases (Qltb 0 (s_crust cr))) as [Bs | Bs];
  rewrite Bw, Be, Bn, Bs; clear Bw Be Bn Bs;
  match goal with
  | |- context [negb (Qle_bool 0 ?s)] =>
    let dsum := fresh "dsum" in
    remember s as dsum eqn:Hdsum;
    assert (Hpos : (0 <= dsum)%Q) by (rewrite Hdsum; lra);
    clear Hdsum;
    rewrite (proj2 (Qle_bool_iff 0 dsum) Hpos); simpl negb; cbv iota;
    destruct (Qltb dsum m) eqn:Hcase;
    [ apply Qltb_lt in Hcase | apply Qltb_ge in Hcase ]
  end.
  all: try (match goal with
       | |- context [((?mm - ?s) / ?d)%Q] =>
         assert (Hr : (0 <= (mm - s) / d)%Q) by (apply Qdiv_nonneg; lra);
         remember ((mm - s) / d)%Q as r
       end).
  all: try (match goal with
       | |- context [(?mm / ?s)%Q] =>
         assert (Hu : (0 <= mm / s)%Q) by (apply Qdiv_nonneg; lra);
         remember (mm / s)%Q as u
       end).
  all: repeat first [add_neg_step | add_pos_step index].
  all: eexists; split; [reflexivity|]; split; [lia | assumption].
Qed.

Lemma add_at_self (a a' : list Q) (i : Z) (v : Q) :
  add_at a i v = Some a' ->
  val a' (Z.to_nat i) = (val a (Z.to_nat i) + v)%Q.
Proof.
  unfold add_at. destruct (rd a i) as [old|] eqn:Hrd;
    cbn [mbind option_bind]; [|discriminate].
  intros Hwr. rewrite (wr_val _ _ _ _ (Z.to_nat i) Hwr).
  destruct (decide (Z.to_nat i = Z.to_nat i)); [|congruence].
  rewrite (rd_val _ _ _ Hrd). reflexivity.
Qed.

(** One turn of the redistribution scan on a well-formed plate without
    negative heights never fails and leaves no negative height. *)
Lemma erode_body_total p lower_bound st x y :
  plate_wf p -> Forall (Qle 0) (map p) ->
  0 <= x < width p -> 0 <= y < height p ->
  Z.of_nat (length (es_tmp st)) = width p * height p ->
  Forall (Qle 0) (es_tmp st) ->
  exists st', erode_body p lower_bound st (x, y) = Some st' /\
    Z.of_nat (length (es_tmp st')) = width p * height p /\
    Forall (Qle 0) (es_tmp st').
Proof.
  intros Hwf Hnn Hx Hy Hlen Htmp.
  pose proof Hwf as (_ & (Hlm & _ & _) & _ & _).
  destruct (plate_wf_area p Hwf) as (Hsz & Hpos & Hw & Hh).
  destruct (cell_index _ _ x y Hw Hh Hx Hy) as [Hidx Hrange].
  unfold erode_body. cbv zeta. rewrite Hidx.
  destruct (rd_Some (map p) (y * width p + x)) as [here Hhere]; [lia|].
  rewrite Hhere. cbn [mbind option_bind].
  pose proof (rd_Forall _ _ _ _ Hhere Hnn) as Hh0. simpl in Hh0.
  destruct (add_at_pos (es_tmp st) (y * width p + x) here)
    as (tmp & Hadd & Hl & Hn & _); [lia | exact Htmp | exact Hh0 |].
  rewrite Hadd. cbn [mbind option_bind].
  destruct (Qltb here lower_bound).
  { eexists. split; [reflexivity|]. simpl. split; [lia | exact Hn]. }
  destruct (calculateCrust_total p x y Hwf Hx Hy) as (cr & Hcr & Iw & Ie & In & Is).
  rewrite Hcr. cbn [mbind option_bind].
  destruct (Qeqb _ 0).
  { eexists. split; [reflexivity|]. simpl. split; [lia | exact Hn]. }
  destruct (calculateCrust_filtered _ _ _ _ _ _ Hcr Hhere) as (Fw & Fe & Fn & Fs).
  destruct (calculateCrust_nonneg _ _ _ _ _ Hnn Hcr) as (Cw & Ce & Cn & Cs).
  destruct (redistribute_total here cr (y * width p + x) tmp)
    as (tmp' & Hr & Hl' & Hn'); try assumption; try lia.
  { rewrite (add_at_self _ _ _ _ Hadd).
    pose proof (val_nonneg (es_tmp st) (Z.to_nat (y * width p + x)) Htmp). lra. }
  rewrite Hr. cbn [mbind option_bind].
  eexists. split; [reflexivity|]. simpl. split; [lia | exact Hn'].
Qed.

Lemma redistribution_total p lower_bound :
  plate_wf p -> Forall (Qle 0) (map p) ->
  exists st,
    for_each (erode_body p lower_bound) (cells (width p) (height p))
      {| es_mass := 0; es_cx := 0; es_cy := 0;
         es_tmp := replicate (Z.to_nat (width p * height p)) 0%Q |} = Some st /\
    Z.of_nat (length (es_tmp st)) = width p * height p /\
    Forall (Qle 0) (es_tmp st).
Proof.
  intros Hwf Hnn.
  destruct (plate_wf_area p Hwf) as (Hsz & Hpos & Hw & Hh).
  destruct (for_each_ind
    (fun _ st => Z.of_nat (length (es_tmp st)) = width p * height p /\
                 Forall (Qle 0) (es_tmp st))
    (erode_body p lower_bound) (cells (width p) (height p))
    {| es_mass := 0; es_cx := 0; es_cy := 0;
       es_tmp := replicate (Z.to_nat (width p * height p)) 0%Q |})
    as (st & Hf & Hl & Hn).
  - simpl. rewrite length_replicate. split; [lia|].
    apply Forall_replicate. apply Qle_refl.
  - intros i [x y] st Hc [Hl Hn].
    destruct (cells_lookup _ _ _ _ _ (Z.lt_le_incl _ _ (proj1 Hw))
                (Z.lt_le_incl _ _ (proj1 Hh)) Hc) as (_ & Hx & Hy).
    apply erode_body_total; assumption.
  - exists st. auto.
Qed.

Lemma noise_nonneg g tmp g' tmp' :
  for_each noise_body (seqZ 0 (Z.of_nat (length tmp))) (g, tmp) = Some (g', tmp') ->
  Forall (Qle 0) tmp -> Forall (Qle 0) tmp'.
Proof.
  intros Hrun Hnn.
  destruct (noise_loop g tmp) as (g2 & tmp2 & Hrun2 & Hl & _ & _ & Hv).
  rewrite Hrun in Hrun2. injection Hrun2 as <- <-.
  apply Forall_lookup. intros j v Hj.
  assert (Hlt : (j < length tmp)%nat)
    by (rewrite <- Hl; eapply lookup_lt_Some; exact Hj).
  specialize (Hv j Hlt). unfold val at 1 in Hv. rewrite Hj in Hv. simpl in Hv.
  rewrite Hv. pose proof (val_nonneg tmp j Hnn).
  pose proof (noise_alpha_range (draws g (drawn g + j)%nat)).
  apply Qmult_le_0_compat; lra.
Qed.

(** X14: on a well-formed plate without negative heights, and for a lower
    bound that is not negative, [erode] always returns: the river loop ends,
    the assertion on the difference sum holds at every cell, and no read or
    write leaves a buffer.  The eroded plate is again well-formed and without
    negative heights; its ages, continents, dimensions and origin are those
    before the call, and the generator has advanced by one draw per cell. *)
Theorem erode_returns (p : plate) (lower_bound : Q) :
  plate_wf p -> Forall (Qle 0) (map p) -> (0 <= lower_bound)%Q ->
  exists p',
    erode p lower_bound = Some p' /\
    plate_wf p' /\ Forall (Qle 0) (map p') /\
    age_map p' = age_map p /\ segment p' = segment p /\
    seg_data p' = seg_data p /\
    width p' = width p /\ height p' = height p /\
    left p' = left p /\ top p' = top p /\
    drawn (_randsource p')
    = (drawn (_randsource p) + Z.to_nat (width p * height p))%nat.
Proof.
  intros Hwf Hnn Hlb.
  pose proof Hwf as (Hfit & (Hm & Ha & Hs) & Hw0 & Hh0).
  pose proof Hfit as (HW & HH & Hww & Hhh).
  destruct (plate_wf_area p Hwf) as (Hsz & Hpos & Hw & Hh).
  destruct (tops_total p lower_bound Hwf) as (sources & Htops & Hsrc).
  destruct (river_total p lower_bound
              (Datatypes.S (Datatypes.S (Z.to_nat (width p * height p))))
              Hwf Hlb sources
              (replicate (Z.to_nat (width p * height p)) 0) (map p))
    as (tmp1 & Hriver & Hl1 & Hn1); try assumption.
  { rewrite length_replicate. lia. }
  { right. rewrite unmarked_replicate. lia. }
  destruct (noise_loop (_randsource p) tmp1)
    as (g' & tmp2 & Hnoise & Hl2 & _ & Hdrawn & _).
  pose proof (noise_nonneg _ _ _ _ Hnoise Hn1) as Hn2.
  rewrite Hl1 in Hnoise.
  set (p1 := with_randsource
               (with_rasters p tmp2 (age_map p) (segment p) (seg_data p) 0%Q) g').
  assert (Hwf1 : plate_wf p1).
  { unfold plate_wf, rasters_sized. simpl. rewrite Hl2.
    repeat split; first [exact Hfit | simpl; lia]. }
  destruct (redistribution_total p1 lower_bound Hwf1 Hn2) as (st & Hloop & Hlst & Hnst).
  simpl width in Hloop, Hlst. simpl height in Hloop, Hlst.
  exists (if Qltb 0 (es_mass st)
          then with_centre
                 (with_rasters p1 (es_tmp st) (age_map p) (segment p) (seg_data p)
                    (es_mass st))
                 (es_cx st / es_mass st)%Q (es_cy st / es_mass st)%Q
          else with_centre
                 (with_rasters p1 (es_tmp st) (age_map p) (segment p) (seg_data p)
                    (es_mass st))
                 (es_cx st) (es_cy st)).
  split.
  - unfold erode. cbv zeta. rewrite Hsz.
    rewrite memcpy_full; [|rewrite length_replicate; lia | lia].
    cbn [mbind option_bind]. rewrite Htops. cbn [mbind option_bind].
    rewrite Hriver. cbn [mbind option_bind].
    rewrite Hnoise. cbn [mbind option_bind].
    rewrite (memcpy_full (map p) tmp2) by lia. cbn [mbind option_bind].
    fold p1. rewrite Hloop. cbn [mbind option_bind].
    rewrite (memcpy_full (map p1) (es_tmp st)) by (simpl; lia).
    reflexivity.
  - destruct (Qltb 0 (es_mass st)); simpl;
      (split; [unfold plate_wf, rasters_sized; simpl;
               repeat split; first [exact Hfit | simpl; lia]|]);
      (split; [exact Hnst|]); repeat split; try reflexivity; lia.
Qed.

Lemma erode_returns_witness :
  exists p',
    erode (E5_plate 8 8 (fun _ => 5)) 1 = Some p' /\
    Forall (Qle 0) (map p') /\ drawn (_randsource p') = 9%nat.
Proof.
  destruct (erode_returns (E5_plate 8 8 (fun _ => 5)) 1)
    as (p' & He & _ & Hn & _ & _ & _ & _ & _ & _ & _ & Hd).
  - apply E5_plate_wf; lia.
  - simpl. repeat (apply List.Forall_cons; [discriminate|]). apply List.Forall_nil.
  - discriminate.
  - exists p'. split; [exact He|]. split; [exact Hn | exact Hd].
Defined.

(** ** The neighbours of a cell *)

Lemma neighbour_lo_val W w x :
  0 < W < 2 ^ 32 -> 0 < w <= W -> 0 <= x < w ->
  (if mask ((0 <? x) || (w =? W)) =? SIZE_MAX
   then sz (sz (x - 1) + W) mod W else 0)
  = if 0 <? x then x - 1 else if w =? W then w - 1 else 0.
Proof.
  intros HW Hw Hx. rewrite mask_is_ones.
  destruct (Z.ltb_spec 0 x) as [Hpos | Hz]; simpl orb.
  - rewrite (sz_small (x - 1)) by lia. rewrite sz_small by lia.
    replace (x - 1 + W) with (x - 1 + 1 * W) by lia.
    rewrite Z.mod_add by lia. apply Z.mod_small. lia.
  - assert (x = 0) by lia. subst x.
    destruct (Z.eqb_spec w W) as [-> | Hne]; [|reflexivity].
    change (sz (0 - 1)) with (2 ^ 64 - 1).
    unfold sz. rewrite <- Z.add_sub_swap.
    replace (2 ^ 64 + W - 1) with (W - 1 + 1 * 2 ^ 64) by lia.
    rewrite Z.mod_add by lia. rewrite (Z.mod_small (W - 1) (2 ^ 64)) by lia.
    apply Z.mod_small. lia.
Qed.

Lemma neighbour_hi_val W w x :
  0 < W < 2 ^ 32 -> 0 < w <= W -> 0 <= x < w ->
  (if mask ((x <? sz (w - 1)) || (w =? W)) =? SIZE_MAX
   then sz (sz (x + 1) + W) mod W else 0)
  = if x <? w - 1 then x + 1 else 0.
Proof.
  intros HW Hw Hx. rewrite mask_is_ones. rewrite (sz_small (w - 1)) by lia.
  rewrite (sz_small (x + 1)) by lia. rewrite sz_small by lia.
  destruct (Z.ltb_spec x (w - 1)) as [Hlt | Hge]; simpl orb.
  - replace (x + 1 + W) with (x + 1 + 1 * W) by lia.
    rewrite Z.mod_add by lia. apply Z.mod_small. lia.
  - destruct (Z.eqb_spec w W) as [-> | Hne]; [|reflexivity].
    replace (x + 1 + W) with (0 + 2 * W) by lia.
    rewrite Z.mod_add by lia. reflexivity.
Qed.

Lemma masked_out (m here : Q) (c : bool) :
  c = false ->
  (m * inject_Z (Z.land (mask c) (Z.b2z (Qltb m here))) == 0)%Q.
Proof.
  intros ->. change (mask false) with 0. rewrite Z.land_0_l.
  change (inject_Z 0) with 0%Q. ring.
Qed.

(** X15: [calculateCrust] on a cell of a well-formed plate returns, reading
    inside the raster only.  The neighbour indices are those of the cells to
    the west, east, north and south, wrapping around only when the plate is as
    wide (as high) as the world; every height it reports is zero or strictly
    below the cell's own height; and across an edge of a plate that is
    narrower (lower) than the world it reports zero. *)
Theorem calculateCrust_neighbours (p : plate) (x y : Z) (here : Q) :
  plate_wf p -> 0 <= x < width p -> 0 <= y < height p ->
  rd (map p) (y * width p + x) = Some here ->
  exists cr,
    calculateCrust p x y (y * width p + x) = Some cr /\
    w_idx cr = y * width p
               + (if 0 <? x then x - 1
                  else if width p =? getWidth (_worldDimension p)
                       then width p - 1 else 0) /\
    e_idx cr = y * width p + (if x <? width p - 1 then x + 1 else 0) /\
    n_idx cr = (if 0 <? y then y - 1
                else if height p =? getHeight (_worldDimension p)
                     then height p - 1 else 0) * width p + x /\
    s_idx cr = (if y <? height p - 1 then y + 1 else 0) * width p + x /\
    filtered here (w_crust cr) /\ filtered here (e_crust cr) /\
    filtered here (n_crust cr) /\ filtered here (s_crust cr) /\
    (width p <> getWidth (_worldDimension p) ->
     (x = 0 -> (w_crust cr == 0)%Q) /\ (x = width p - 1 -> (e_crust cr == 0)%Q)) /\
    (height p <> getHeight (_worldDimension p) ->
     (y = 0 -> (n_crust cr == 0)%Q) /\ (y = height p - 1 -> (s_crust cr == 0)%Q)).
Proof.
  intros ((HW & HH & Hw & Hh) & (Hm & _ & _) & Hw0 & Hh0) Hx Hy Hhere.
  assert (Hwb : 0 < width p < 2 ^ 32) by lia.
  assert (Hhb : 0 < height p < 2 ^ 32) by lia.
  pose proof (neighbour_lo _ _ _ HW (conj Hw0 (proj2 Hw)) Hx) as Nw.
  pose proof (neighbour_hi _ _ _ HW (conj Hw0 (proj2 Hw)) Hx) as Ne.
  pose proof (neighbour_lo _ _ _ HH (conj Hh0 (proj2 Hh)) Hy) as Nn.
  pose proof (neighbour_hi _ _ _ HH (conj Hh0 (proj2 Hh)) Hy) as Ns.
  rewrite (neighbour_lo_val _ _ _ HW (conj Hw0 (proj2 Hw)) Hx) in Nw.
  rewrite (neighbour_hi_val _ _ _ HW (conj Hw0 (proj2 Hw)) Hx) in Ne.
  rewrite (neighbour_lo_val _ _ _ HH (conj Hh0 (proj2 Hh)) Hy) in Nn.
  rewrite (neighbour_hi_val _ _ _ HH (conj Hh0 (proj2 Hh)) Hy) in Ns.
  unfold calculateCrust, xMod, yMod. cbv zeta.
  rewrite (neighbour_lo_val _ _ _ HW (conj Hw0 (proj2 Hw)) Hx).
  rewrite (neighbour_hi_val _ _ _ HW (conj Hw0 (proj2 Hw)) Hx).
  rewrite (neighbour_lo_val _ _ _ HH (conj Hh0 (proj2 Hh)) Hy).
  rewrite (neighbour_hi_val _ _ _ HH (conj Hh0 (proj2 Hh)) Hy).
  destruct (cell_index _ _ _ y Hwb Hhb Nw Hy) as [-> I1].
  destruct (cell_index _ _ _ y Hwb Hhb Ne Hy) as [-> I2].
  destruct (cell_index _ _ x _ Hwb Hhb Hx Nn) as [-> I3].
  destruct (cell_index _ _ x _ Hwb Hhb Hx Ns) as [-> I4].
  rewrite Hhere.
  match goal with |- context [rd (map p) ?i ≫= _] =>
    destruct (rd_Some (map p) i) as [v1 ->]; [lia|] end.
  cbn [mbind option_bind].
  match goal with |- context [rd (map p) ?i ≫= _] =>
    destruct (rd_Some (map p) i) as [v2 ->]; [lia|] end.
  cbn [mbind option_bind].
  match goal with |- context [rd (map p) ?i ≫= _] =>
    destruct (rd_Some (map p) i) as [v3 ->]; [lia|] end.
  cbn [mbind option_bind].
  match goal with |- context [rd (map p) ?i ≫= _] =>
    destruct (rd_Some (map p) i) as [v4 ->]; [lia|] end.
  cbn [mbind option_bind].
  eexists. split; [reflexivity|]. cbn [w_idx e_idx n_idx s_idx w_crust e_crust n_crust s_crust].
  do 4 (split; [reflexivity|]).
  do 4 (split; [apply filter_height|]).
  split; intros Hne; split; intros ->; apply masked_out.
  - apply Z.eqb_neq in Hne. rewrite Hne. reflexivity.
  - apply Z.eqb_neq in Hne. rewrite Hne.
    rewrite (sz_small (width p - 1)) by lia. rewrite Z.ltb_irrefl. reflexivity.
  - apply Z.eqb_neq in Hne. rewrite Hne. reflexivity.
  - apply Z.eqb_neq in Hne. rewrite Hne.
    rewrite (sz_small (height p - 1)) by lia. rewrite Z.ltb_irrefl. reflexivity.
Qed.

Lemma calculateCrust_neighbours_witness :
  exists cr,
    calculateCrust (E5_plate 8 8 (fun _ => 0)) 1 1 4 = Some cr /\
    w_idx cr = 3 /\ e_idx cr = 5 /\ n_idx cr = 1 /\ s_idx cr = 7 /\
    filtered 10 (w_crust cr).
Proof.
  destruct (calculateCrust_neighbours (E5_plate 8 8 (fun _ => 0)) 1 1 10)
    as (cr & Hc & Iw & Ie & In & Is & Fw & _).
  - apply E5_plate_wf; lia.
  - simpl. lia.
  - simpl. lia.
  - reflexivity.
  - exists cr. split; [exact Hc|]. rewrite Iw, Ie, In, Is.
    repeat split; try reflexivity. exact Fw.
Defined.

(** ** Forgetting the continents *)

(** X16: on a plate whose rasters have their size, [resetSegments] returns;
    afterwards no cell belongs to a continent and no continent is known, the
    heights, ages, mass and everything else are as before, and
    [getContinentArea] fails at every point until the continents are built
    again. *)
Theorem resetSegments_clears (p : plate) :
  rasters_sized p -> width p * height p < 2 ^ 64 ->
  exists p',
    resetSegments p = Some p' /\
    segment p' = replicate (Z.to_nat (width p * height p)) SIZE_MAX /\
    seg_data p' = [] /\
    p' = with_rasters p (map p) (age_map p) (segment p') [] (mass p) /\
    forall wx wy, getContinentArea p' wx wy = None.
Proof.
  intros (_ & _ & Hs) Hsz.
  assert (H0 : 0 <= width p * height p) by lia.
  unfold resetSegments, memset. rewrite (sz_small (width p * height p)) by lia.
  destruct (Z.leb_spec 0 (width p * height p)); [|lia].
  destruct (Z.leb_spec (width p * height p) (Z.of_nat (length (segment p))));
    [|lia].
  cbn [andb mbind option_bind]. rewrite drop_ge by lia. rewrite app_nil_r.
  eexists. split; [reflexivity|]. cbn [segment seg_data with_rasters].
  do 3 (split; [reflexivity|]).
  intros wx wy. unfold getContinentArea. rewrite getMapIndex_with_rasters.
  destruct (getMapIndex p wx wy) as [[index lx] ly].
  cbn [segment seg_data with_rasters].
  destruct (rd (replicate _ SIZE_MAX) index) as [s|] eqn:Hrd; [|reflexivity].
  cbn [mbind option_bind].
  apply rd_inv in Hrd as [_ Hrd]. apply lookup_replicate in Hrd as [-> _].
  reflexivity.
Qed.

Lemma resetSegments_clears_witness :
  exists p',
    resetSegments E4_A = Some p' /\ seg_data p' = [] /\
    getContinentArea E4_A 3 3 = Some 9 /\ getContinentArea p' 3 3 = None.
Proof.
  destruct (resetSegments_clears E4_A) as (p' & Hr & _ & Hd & _ & Hg).
  - unfold rasters_sized. simpl. repeat split; reflexivity.
  - simpl. lia.
  - exists p'. split; [exact Hr|]. split; [exact Hd|].
    split; [reflexivity | apply Hg].
Defined.

(** ** Membership of a world point *)

Lemma inside_axis (W l w xm : Z) :
  0 < W -> 0 <= l < W -> 0 <= w -> l + w <= W -> 0 <= xm < W ->
  ((xm - l) mod W < w <-> l <= xm < l + w).
Proof.
  intros HW Hl Hw Hfit Hx.
  destruct (Z_le_gt_dec l xm) as [Hle | Hgt].
  - rewrite Z.mod_small by lia. lia.
  - replace (xm - l) with (xm - l + W + (-1) * W) by lia.
    rewrite Z.mod_add by lia. rewrite Z.mod_small by lia. lia.
Qed.

Lemma Qle_bool_inject (q : Q) (l a : Z) :
  (q == inject_Z l)%Q -> (Qle_bool q (inject_Z a) = true <-> l <= a).
Proof.
  intros Hq. rewrite Qle_bool_iff, Hq, <- Zle_Qle. reflexivity.
Qed.

Lemma Qltb_inject (q : Q) (l w a : Z) :
  (q == inject_Z l)%Q ->
  (Qltb (inject_Z a) (q + inject_Z w) = true <-> a < l + w).
Proof.
  intros Hq. rewrite Qltb_lt, Hq, <- inject_Z_plus, <- Zlt_Qlt. reflexivity.
Qed.

(** X17: for a plate whose origin is a cell of the world and whose rectangle
    does not cross the seam of the world, [contains] is true exactly at the
    world points that [getMapIndex] maps into the raster. *)
Theorem contains_iff_getMapIndex (p : plate) (x y l t : Z) :
  fits_world p ->
  (left p == inject_Z l)%Q -> (top p == inject_Z t)%Q ->
  0 <= l < getWidth (_worldDimension p) ->
  0 <= t < getHeight (_worldDimension p) ->
  l + width p <= getWidth (_worldDimension p) ->
  t + height p <= getHeight (_worldDimension p) ->
  0 <= x < 2 ^ 32 -> 0 <= y < 2 ^ 32 ->
  (contains p x y = true <->
   fst (fst (getMapIndex p x y)) < width p * height p).
Proof.
  intros Hfit Hl Ht Hlr Htr Hlw Hth Hx Hy.
  pose proof Hfit as (HW & HH & Hw & Hh).
  assert (Hl0 : (0 <= left p)%Q)
    by (rewrite Hl; change 0%Q with (inject_Z 0); rewrite <- Zle_Qle; lia).
  assert (HlW : (left p < inject_Z (getWidth (_worldDimension p)))%Q)
    by (rewrite Hl, <- Zlt_Qlt; lia).
  assert (Ht0 : (0 <= top p)%Q)
    by (rewrite Ht; change 0%Q with (inject_Z 0); rewrite <- Zle_Qle; lia).
  assert (HtH : (top p < inject_Z (getHeight (_worldDimension p)))%Q)
    by (rewrite Ht, <- Zlt_Qlt; lia).
  rewrite (getMapIndex_spec p x y Hfit Hl0 HlW Ht0 HtH). cbv zeta.
  rewrite (Qfloor_comp _ _ Hl), (Qfloor_comp _ _ Ht), !Qfloor_Z.
  unfold contains, xMod, yMod, wrapX, wrapY.
  set (W := getWidth (_worldDimension p)) in *.
  set (H := getHeight (_worldDimension p)) in *.
  rewrite (sz_small (x + W)), (sz_small (y + H)) by lia.
  assert (Ex : (x + W) mod W = x mod W).
  { replace (x + W) with (x + 1 * W) by lia. apply Z.mod_add. lia. }
  assert (Ey : (y + H) mod H = y mod H).
  { replace (y + H) with (y + 1 * H) by lia. apply Z.mod_add. lia. }
  assert (Ex' : (x mod W + W) mod W = x mod W).
  { replace (x mod W + W) with (x mod W + 1 * W) by lia.
    rewrite Z.mod_add by lia. apply Z.mod_mod. lia. }
  assert (Ey' : (y mod H + H) mod H = y mod H).
  { replace (y mod H + H) with (y mod H + 1 * H) by lia.
    rewrite Z.mod_add by lia. apply Z.mod_mod. lia. }
  rewrite Ex, Ey, Ex', Ey'.
  pose proof (Z.mod_pos_bound x W ltac:(lia)) as Bx.
  pose proof (Z.mod_pos_bound y H ltac:(lia)) as By.
  pose proof (inside_axis W l (width p) (x mod W) ltac:(lia) Hlr ltac:(lia) Hlw Bx) as Ax.
  pose proof (inside_axis H t (height p) (y mod H) ltac:(lia) Htr ltac:(lia) Hth By) as Ay.
  rewrite !andb_true_iff.
  rewrite (Qle_bool_inject _ _ _ Hl), (Qle_bool_inject _ _ _ Ht).
  rewrite (Qltb_inject _ _ _ _ Hl), (Qltb_inject _ _ _ _ Ht).
  pose proof (Z.mod_pos_bound (x mod W - l) W ltac:(lia)) as Ba.
  pose proof (Z.mod_pos_bound (y mod H - t) H ltac:(lia)) as Bb.
  assert (Harea : width p * height p <= (2 ^ 32 - 1) * (2 ^ 32 - 1))
    by (apply Z.mul_le_mono_nonneg; lia).
  destruct (Z.ltb_spec ((x mod W - l) mod W) (width p)) as [Ha | Ha];
    destruct (Z.ltb_spec ((y mod H - t) mod H) (height p)) as [Hb | Hb];
    cbn [andb fst]; unfold SIZE_MAX.
  - split; [intros _|intros _; lia].
    assert ((y mod H - t) mod H * width p + width p <= height p * width p).
    { replace ((y mod H - t) mod H * width p + width p)
        with (((y mod H - t) mod H + 1) * width p) by lia.
      apply Z.mul_le_mono_nonneg_r; lia. }
    lia.
  - split; [lia|]. intros Hc. exfalso. lia.
  - split; [lia|]. intros Hc. exfalso. lia.
  - split; [lia|]. intros Hc. exfalso. lia.
Qed.

Lemma contains_iff_getMapIndex_witness :
  contains (E4_B 3 2) 4 3 = true <->
  fst (fst (getMapIndex (E4_B 3 2) 4 3)) < width (E4_B 3 2) * height (E4_B 3 2).
Proof.
  apply (contains_iff_getMapIndex (E4_B 3 2) 4 3 3 3);
    first [ exact (proj1 E4_B_receiver) | reflexivity | simpl; lia ].
Defined.

(** ** Momentum in a collision *)

Lemma Qmult_nonneg_nonpos (a b : Q) : (0 <= a -> b <= 0 -> a * b <= 0)%Q.
Proof.
  intros Ha Hb. assert (H : (0 <= a * - b)%Q) by (apply Qmult_le_0_compat; lra).
  assert (E : (a * - b == - (a * b))%Q) by ring. rewrite E in H. lra.
Qed.

Lemma Qinv_pos (a : Q) : (0 < a -> 0 < / a)%Q.
Proof. intros Ha. apply Qinv_lt_0_compat. exact Ha. Qed.

(** X18: [collide] balances the two impulses when the other plate is weighed
    with the colliding crust added: the calling plate's mass times its change
    of impulse and [coll_mass + p.mass] times the other plate's change cancel,
    on both axes.  With positive masses the calling plate is never pushed
    along the contact normal. *)
Theorem collide_momentum `{Platform} (A B A' B' : plate) (wx wy : Z)
    (coll_mass : Q) :
  collide A B wx wy coll_mass = Some (A', B') ->
  ~ (mass A == 0)%Q -> ~ (coll_mass + mass B == 0)%Q ->
  (mass A * (dx A' - dx A) + (coll_mass + mass B) * (dx B' - dx B) == 0)%Q /\
  (mass A * (dy A' - dy A) + (coll_mass + mass B) * (dy B' - dy B) == 0)%Q /\
  ((0 < mass A)%Q -> (0 < coll_mass)%Q ->
   ((dx A' - dx A) * fst (unit_normal A B wx wy)
    + (dy A' - dy A) * snd (unit_normal A B wx wy) <= 0)%Q).
Proof.
  intros Hc HmA HmB.
  destruct (collide_cases _ _ _ _ _ _ _ Hc) as [(_ & -> & ->) | (Hcond & -> & ->)].
  - split; [ring|]. split; [ring|]. intros _ _. lra.
  - cbn [dx dy with_impulse].
    destruct (unit_normal A B wx wy) as [nx ny]. cbn [fst snd] in *.
    assert (Hbal : forall n J : Q,
      (mass A * (dx A + n * J / mass A - dx A)
       + (coll_mass + mass B) * (dx B - n * J / (coll_mass + mass B) - dx B)
       == 0)%Q) by (intros n J; field; split; assumption).
    assert (Hbal' : forall n J : Q,
      (mass A * (dy A + n * J / mass A - dy A)
       + (coll_mass + mass B) * (dy B - n * J / (coll_mass + mass B) - dy B)
       == 0)%Q) by (intros n J; field; split; assumption).
    split; [apply Hbal|]. split; [apply Hbal'|].
    intros HA Hcm.
    assert (Hrel : (0 < (vx A - vx B) * nx + (vy A - vy B) * ny)%Q).
    { apply Qnot_le_lt. intros Hle. apply Hcond. right. exact Hle. }
    set (rel := ((vx A - vx B) * nx + (vy A - vy B) * ny)%Q) in *.
    set (S := (nx * nx + ny * ny)%Q).
    set (D := (1 / mass A + 1 / coll_mass)%Q).
    assert (HS : (0 <= S)%Q).
    { unfold S. assert (0 <= nx * nx)%Q by (apply Qsqr_nonneg || nra).
      assert (0 <= ny * ny)%Q by (apply Qsqr_nonneg || nra). lra. }
    assert (HD : (0 <= D)%Q).
    { unfold D. unfold Qdiv. pose proof (Qinv_pos _ HA). pose proof (Qinv_pos _ Hcm).
      lra. }
    assert (HJ : (- (1 + 0) * rel / (S * D) <= 0)%Q).
    { unfold Qdiv. rewrite Qmult_comm. apply Qmult_nonneg_nonpos; [|lra].
      apply Qinv_le_0_compat. apply Qmult_le_0_compat; assumption. }
    set (J := (- (1 + 0) * rel / (S * D))%Q) in *.
    assert (E : ((dx A + nx * J / mass A - dx A) * nx
                 + (dy A + ny * J / mass A - dy A) * ny
                 == (S * / mass A) * J)%Q).
    { unfold S. field. exact HmA. }
    rewrite E. apply Qmult_nonneg_nonpos; [|exact HJ].
    apply Qmult_le_0_compat; [exact HS|]. apply Qlt_le_weak, Qinv_pos, HA.
Qed.

Lemma collide_momentum_witness :
  exists A' B',
    collide (H := example_platform) E3_A E3_B 2 2 10 = Some (A', B') /\
    (10 * (dx A' - 0) + (10 + 100) * (dx B' - 0) == 0)%Q.
Proof.
  destruct (collide (H := example_platform) E3_A E3_B 2 2 10)
    as [[A' B']|] eqn:Hc; [|vm_compute in Hc; discriminate Hc].
  exists A', B'. split; [reflexivity|].
  destruct (collide_momentum (H := example_platform) _ _ _ _ _ _ _ Hc)
    as (Hx & _); [vm_compute; discriminate | vm_compute; discriminate |].
  exact Hx.
Defined.

(** ** Segmentation *)

Section Segmentation.
Context `{Driver}.

Lemma fills_refl p ID seg : fills p ID seg seg.
Proof. split; [reflexivity|]. intros i. left. reflexivity. Qed.

Lemma free_cell_inv p seg ID i :
  free_cell p seg ID i = Some true ->
  exists s, rd seg i = Some s /\ ID < s.
Proof.
  unfold free_cell. destruct (rd seg i) as [s|]; cbn [mbind option_bind];
    [|discriminate].
  destruct (Z.ltb_spec ID s); [|discriminate]. intros _. exists s. auto.
Qed.

Lemma fills_trans p ID seg1 seg2 seg3 :
  fills p ID seg1 seg2 -> fills p ID seg2 seg3 -> fills p ID seg1 seg3.
Proof.
  intros [L12 F12] [L23 F23]. split; [congruence|]. intros i.
  destruct (F23 i) as [E23 | [E23 Free2]].
  - rewrite E23. apply F12.
  - right. split; [exact E23|].
    destruct (F12 i) as [E12 | [E12 _]].
    + unfold free_cell in *. rewrite <- E12. exact Free2.
    + apply free_cell_inv in Free2 as (s & Hs & Hlt). rewrite E12 in Hs.
      injection Hs as <-. lia.
Qed.

Lemma free_cell_total p seg ID i :
  0 <= i < Z.of_nat (length seg) -> length (map p) = length seg ->
  exists b, free_cell p seg ID i = Some b.
Proof.
  intros Hi Hl. unfold free_cell.
  destruct (rd_Some seg i Hi) as [s ->]. cbn [mbind option_bind].
  destruct (ID <? s); [|eauto].
  destruct (rd_Some (map p) i) as [m ->]; [lia|]. cbn [mbind option_bind]. eauto.
Qed.

Lemma unfilled_label (ID : Z) (seg : list Z) (i : nat) (s : Z) :
  seg !! i = Some s -> s <> ID ->
  (unfilled ID (<[i := ID]> seg) + 1 = unfilled ID seg)%nat.
Proof.
  unfold unfilled. revert i. induction seg as [|d l IH]; intros [|i] Hl Hs;
    try discriminate.
  - injection Hl as ->. change (<[0%nat := ID]> (s :: l)) with (ID :: l).
    rewrite (filter_cons_False (fun s => s <> ID) ID l) by (intros Hc; apply Hc; reflexivity).
    rewrite (filter_cons_True (fun s => s <> ID) s l) by exact Hs.
    simpl. lia.
  - change (<[Datatypes.S i := ID]> (d :: l)) with (d :: <[i := ID]> l).
    change ((d :: l) !! Datatypes.S i) with (l !! i) in Hl.
    specialize (IH i Hl Hs).
    destruct (decide (d <> ID)) as [Hd | Hd].
    + rewrite !(filter_cons_True (fun s => s <> ID) d) by exact Hd. simpl. lia.
    + rewrite !(filter_cons_False (fun s => s <> ID) d) by exact Hd. exact IH.
Qed.

(** Giving the id to a free cell. *)
Lemma label_free p ID seg i :
  free_cell p seg ID i = Some true ->
  exists seg', wr seg i ID = Some seg' /\ fills p ID seg seg' /\
    (unfilled ID seg' + 1 = unfilled ID seg)%nat /\
    rd seg' i = Some ID.
Proof.
  intros Hfree. destruct (free_cell_inv _ _ _ _ Hfree) as (s & Hs & Hlt).
  pose proof (rd_bounds _ _ _ Hs) as Hi.
  destruct (wr_Some seg i ID Hi) as (seg' & Hwr & Hlen).
  exists seg'. split; [exact Hwr|]. split; [|split].
  - split; [exact Hlen|]. intros j. destruct (decide (i = j)) as [<- | Hne].
    + right. split; [eapply rd_wr_same; eauto | exact Hfree].
    + left. eapply rd_wr_other; eauto.
  - apply wr_inv in Hwr as [_ ->]. apply rd_inv in Hs as [_ Hs].
    apply (unfilled_label ID seg _ s Hs). lia.
  - eapply rd_wr_same; eauto.
Qed.

Lemma unfilled_le_length ID seg : (unfilled ID seg <= length seg)%nat.
Proof. unfold unfilled. apply length_filter. Qed.

Lemma pending_insert (todo : list (list Z)) (i : nat) (l l' : list Z) :
  todo !! i = Some l ->
  (pending (<[i := l']> todo) + length l = pending todo + length l')%nat.
Proof.
  unfold pending. revert i. induction todo as [|t todo IH]; intros [|i] Hl;
    try discriminate.
  - injection Hl as ->. cbn. lia.
  - change ((t :: todo) !! Datatypes.S i) with (todo !! i) in Hl.
    specialize (IH i Hl). cbn. rewrite <- !Nat.add_assoc. f_equal. exact IH.
Qed.

Lemma push_span_total (w : Z) (todo : list (list Z)) (row a b : Z) :
  0 <= row < Z.of_nat (length todo) ->
  Forall (spans_ok w) todo -> 0 <= a < w -> 0 <= b < w ->
  exists todo', push_span todo row a b = Some todo' /\
    length todo' = length todo /\ Forall (spans_ok w) todo' /\
    (pending todo' = pending todo + 2)%nat.
Proof.
  intros Hrow Hok Ha Hb. unfold push_span.
  destruct (rd_Some todo row Hrow) as [l Hl]. rewrite Hl.
  cbn [mbind option_bind].
  destruct (wr_Some todo row (b :: a :: l) Hrow) as (todo' & Hwr & Hlen).
  exists todo'. split; [exact Hwr|]. split; [exact Hlen|].
  pose proof (rd_Forall _ _ _ _ Hl Hok) as [He Hf].
  split.
  - apply (wr_Forall _ _ _ _ _ Hwr Hok). split.
    + simpl. destruct He as [k Hk]. exists (Datatypes.S k). lia.
    + repeat (apply List.Forall_cons; [assumption|]). exact Hf.
  - apply wr_inv in Hwr as [_ ->]. apply rd_inv in Hl as [_ Hl].
    pose proof (pending_insert todo _ l (b :: a :: l) Hl) as Hp.
    cbn [length] in Hp. lia.
Qed.

End Segmentation.

Section FloodFill.
Context `{Driver}.
Variable p : plate.
Variable ID : Z.
Hypothesis Hwf : plate_wf p.

Lemma raster_facts :
  0 < width p < 2 ^ 32 /\ 0 < height p < 2 ^ 32 /\
  0 < width p * height p <= (2 ^ 32 - 1) * (2 ^ 32 - 1) /\
  Z.of_nat (length (map p)) = width p * height p /\
  width p <= getWidth (_worldDimension p) /\
  height p <= getHeight (_worldDimension p).
Proof.
  pose proof Hwf as ((HW & HH & Hw & Hh) & (Hlm & _ & _) & Hw0 & Hh0).
  destruct (plate_wf_area p Hwf) as (_ & Hpos & Hwb & Hhb).
  assert (width p * height p <= (2 ^ 32 - 1) * (2 ^ 32 - 1))
    by (apply Z.mul_le_mono_nonneg; lia).
  repeat split; try lia.
Qed.

Lemma cell_in (line j : Z) :
  0 <= line < height p -> 0 <= j < width p ->
  0 <= line * width p /\ 0 <= line * width p + j < width p * height p.
Proof.
  intros Hl Hj. destruct raster_facts as (Hw & Hh & _).
  destruct (cell_index _ _ j line Hw Hh Hj Hl) as [_ Hr].
  split; [apply Z.mul_nonneg_nonneg; lia | exact Hr].
Qed.

(** A cell of the raster is either free, and then it can be given the id, or
    not free. *)
Lemma free_or_not (seg : list Z) (i : Z) :
  Z.of_nat (length seg) = width p * height p ->
  0 <= i < width p * height p ->
  free_cell p seg ID i = Some false \/
  (free_cell p seg ID i = Some true /\
   exists seg', wr seg i ID = Some seg' /\ fills p ID seg seg' /\
     (unfilled ID seg' + 1 = unfilled ID seg)%nat /\
     Z.of_nat (length seg') = width p * height p).
Proof.
  intros Hlen Hi. destruct raster_facts as (_ & _ & _ & Hlm & _).
  destruct (free_cell_total p seg ID i) as [[|] Hb]; [lia | lia | | auto].
  right. split; [exact Hb|].
  destruct (label_free p ID seg i Hb) as (seg' & Hwr & Hf & Hu & _).
  exists seg'. repeat split; try assumption; try apply Hf.
  destruct Hf as [Hl _]. lia.
Qed.

Lemma extend_left_total (line : Z) (fuel : nat) :
  0 <= line < height p ->
  forall seg start,
    Z.of_nat (length seg) = width p * height p ->
    0 <= start < width p -> (Z.to_nat start < fuel)%nat ->
    exists seg' start',
      extend_left fuel p ID (line * width p) seg start = Some (seg', start') /\
      fills p ID seg seg' /\ 0 <= start' <= start /\
      (unfilled ID seg' <= unfilled ID seg)%nat /\
      Z.of_nat (length seg') = width p * height p.
Proof.
  intros Hline. destruct raster_facts as (Hw & Hh & Hn & _).
  induction fuel as [|fuel IH]; intros seg start Hlen Hs Hfuel; [lia|].
  cbn [extend_left].
  destruct (Z.ltb_spec 0 start) as [Hpos|];
    [|exists seg, start; repeat split; try lia; apply fills_refl].
  destruct (cell_in line start Hline Hs) as [Hl0 Hc].
  destruct (cell_in line (start - 1) Hline ltac:(lia)) as [_ Hc'].
  rewrite (sz_small (line * width p + start)) by lia.
  rewrite (sz_small (line * width p + start - 1)) by lia.
  rewrite (sz_small (start - 1)) by lia.
  replace (line * width p + (start - 1)) with (line * width p + start - 1) by lia.
  rewrite (sz_small (line * width p + start - 1)) by lia.
  destruct (free_or_not seg (line * width p + start - 1) Hlen ltac:(lia))
    as [-> | (-> & seg1 & -> & Hf1 & Hu1 & Hl1)]; cbn [mbind option_bind].
  { exists seg, start. repeat split; try lia; apply fills_refl. }
  destruct (IH seg1 (start - 1) Hl1 ltac:(lia) ltac:(lia))
    as (seg' & start' & -> & Hf & Hr & Hu & Hl').
  exists seg', start'. split; [reflexivity|].
  split; [eapply fills_trans; eauto|]. repeat split; lia.
Qed.

Lemma extend_right_total (line : Z) (fuel : nat) :
  0 <= line < height p ->
  forall seg end_,
    Z.of_nat (length seg) = width p * height p ->
    0 <= end_ < width p -> (Z.to_nat (width p - end_) <= fuel)%nat ->
    exists seg' end',
      extend_right fuel p ID (line * width p) seg end_ = Some (seg', end') /\
      fills p ID seg seg' /\ end_ <= end' < width p /\
      (unfilled ID seg' <= unfilled ID seg)%nat /\
      Z.of_nat (length seg') = width p * height p.
Proof.
  intros Hline. destruct raster_facts as (Hw & Hh & Hn & _).
  induction fuel as [|fuel IH]; intros seg end_ Hlen Hs Hfuel; [lia|].
  cbn [extend_right]. rewrite (sz_small (width p - 1)) by lia.
  destruct (Z.ltb_spec end_ (width p - 1)) as [Hlt|];
    [|exists seg, end_; repeat split; try lia; apply fills_refl].
  destruct (cell_in line end_ Hline Hs) as [Hl0 Hc].
  destruct (cell_in line (end_ + 1) Hline ltac:(lia)) as [_ Hc'].
  rewrite (sz_small (line * width p + end_)) by lia.
  rewrite (sz_small (line * width p + end_ + 1)) by lia.
  rewrite (sz_small (end_ + 1)) by lia.
  replace (line * width p + (end_ + 1)) with (line * width p + end_ + 1) by lia.
  rewrite (sz_small (line * width p + end_ + 1)) by lia.
  destruct (free_or_not seg (line * width p + end_ + 1) Hlen ltac:(lia))
    as [-> | (-> & seg1 & -> & Hf1 & Hu1 & Hl1)]; cbn [mbind option_bind].
  { exists seg, end_. repeat split; try lia; apply fills_refl. }
  destruct (IH seg1 (end_ + 1) Hl1 ltac:(lia) ltac:(lia))
    as (seg' & end' & -> & Hf & Hr & Hu & Hl').
  exists seg', end'. split; [reflexivity|].
  split; [eapply fills_trans; eauto|]. repeat split; lia.
Qed.

Lemma scan_run_total (row : Z) (fuel : nat) :
  0 <= row < height p ->
  forall seg j,
    Z.of_nat (length seg) = width p * height p ->
    0 <= j < width p -> (Z.to_nat (width p - j) <= fuel)%nat ->
    exists seg' j',
      scan_run fuel p ID (row * width p) seg j = Some (seg', j') /\
      fills p ID seg seg' /\ j < j' <= width p /\
      (unfilled ID seg' <= unfilled ID seg)%nat /\
      Z.of_nat (length seg') = width p * height p.
Proof.
  intros Hrow. destruct raster_facts as (Hw & Hh & Hn & _).
  induction fuel as [|fuel IH]; intros seg j Hlen Hj Hfuel; [lia|].
  cbn [scan_run]. rewrite (sz_small (j + 1)) by lia.
  destruct (Z.ltb_spec (j + 1) (width p)) as [Hlt|];
    [|exists seg, (j + 1); repeat split; try lia; apply fills_refl].
  destruct (cell_in row (j + 1) Hrow ltac:(lia)) as [Hl0 Hc].
  rewrite (sz_small (row * width p + (j + 1))) by lia.
  destruct (free_or_not seg (row * width p + (j + 1)) Hlen ltac:(lia))
    as [-> | (-> & seg1 & -> & Hf1 & Hu1 & Hl1)]; cbn [mbind option_bind].
  { exists seg, (j + 1). repeat split; try lia; apply fills_refl. }
  destruct (IH seg1 (j + 1) Hl1 ltac:(lia) ltac:(lia))
    as (seg' & j' & -> & Hf & Hr & Hu & Hl').
  exists seg', j'. split; [reflexivity|].
  split; [eapply fills_trans; eauto|]. repeat split; lia.
Qed.

End FloodFill.

Lemma lor_all_ones (s : Z) :
  0 <= s < 2 ^ 64 -> Z.lor s (mask true) = 2 ^ 64 - 1.
Proof.
  intros Hs. change (mask true) with (Z.ones 64).
  pose proof (Z.add_lor_land s (Z.ones 64)) as Hadd.
  rewrite Z.land_ones in Hadd by lia. rewrite Z.mod_small in Hadd by exact Hs.
  rewrite Z.ones_equiv in *. lia.
Qed.

Lemma even_pairs {A} (P : list A -> Prop) :
  P [] -> (forall a b l, Nat.Even (length l) -> P l -> P (a :: b :: l)) ->
  forall l, Nat.Even (length l) -> P l.
Proof.
  intros Hnil Hstep l [k Hk]. revert l Hk.
  induction k as [|k IH]; intros l Hk.
  - destruct l; [exact Hnil | simpl in Hk; lia].
  - destruct l as [|a [|b l]]; simpl in Hk; try lia.
    apply Hstep; [exists k; lia | apply IH; lia].
Qed.

Lemma reduce_span_total (done : list Z) :
  Nat.Even (length done) ->
  forall start end_, 0 <= start < 2 ^ 64 -> 0 <= end_ < 2 ^ 64 ->
  exists s e, reduce_span done start end_ = Some (s, e) /\
    0 <= s < 2 ^ 64 /\ 0 <= e < 2 ^ 64.
Proof.
  revert done. apply (even_pairs (fun done => forall start end_,
    0 <= start < 2 ^ 64 -> 0 <= end_ < 2 ^ 64 ->
    exists s e, reduce_span done start end_ = Some (s, e) /\
      0 <= s < 2 ^ 64 /\ 0 <= e < 2 ^ 64)).
  - intros start end_ Hs He. exists start, end_. auto.
  - intros a b l _ IH start end_ Hs He. cbn [reduce_span]. apply IH.
    + destruct (_ && _); [apply sz_range | exact Hs].
    + destruct (_ && _); [apply sz_range | exact He].
Qed.

Lemma next_span_total (w : Z) (done : list Z) :
  0 < w < 2 ^ 32 -> Nat.Even (length done) ->
  forall todo, Nat.Even (length todo) -> todo <> [] ->
    Forall (fun v => 0 <= v < w) todo ->
    exists start end_ todo',
      next_span w done todo = Some (start, end_, todo') /\
      spans_ok w todo' /\ (length todo' + 2 <= length todo)%nat /\
      ((end_ <? start) = false -> 0 <= start /\ start <= end_ /\ end_ < w).
Proof.
  intros Hw Hdone.
  apply (even_pairs (fun todo => todo <> [] ->
    Forall (fun v => 0 <= v < w) todo ->
    exists start end_ todo',
      next_span w done todo = Some (start, end_, todo') /\
      spans_ok w todo' /\ (length todo' + 2 <= length todo)%nat /\
      ((end_ <? start) = false -> 0 <= start /\ start <= end_ /\ end_ < w))).
  - intros Hne. congruence.
  - intros e0 s0 todo' Heven IH _ Hall.
    apply Forall_cons_1 in Hall as [He0 Hall].
    apply Forall_cons_1 in Hall as [Hs0 Hall].
    cbn [next_span].
    destruct (reduce_span_total done Hdone s0 e0) as (s & e & -> & Hs & He);
      [lia | lia |].
    cbn [mbind option_bind].
    assert (Hskip : (if (sz (e - Z.b2z (w <=? e)) <? Z.lor s (mask (w <=? e)))
                     then True
                     else 0 <= Z.lor s (mask (w <=? e))
                          /\ Z.lor s (mask (w <=? e)) <= sz (e - Z.b2z (w <=? e))
                          /\ sz (e - Z.b2z (w <=? e)) < w)).
    { destruct (Z.leb_spec w e) as [Hge | Hlt].
      - rewrite (lor_all_ones s Hs). cbn [Z.b2z].
        rewrite (sz_small (e - 1)) by lia.
        destruct (Z.ltb_spec (e - 1) (2 ^ 64 - 1)); [exact I | lia].
      - change (mask false) with 0. rewrite Z.lor_0_r. cbn [Z.b2z].
        rewrite Z.sub_0_r. rewrite (sz_small e) by lia.
        destruct (Z.ltb_spec e s); [exact I | lia]. }
    destruct (sz (e - Z.b2z (w <=? e)) <? Z.lor s (mask (w <=? e))) eqn:Hlt.
    + destruct (Z.eqb_spec (Z.of_nat (length todo')) 0) as [Hz | Hnz];
        cbn [negb andb].
      * eexists _, _, todo'. split; [reflexivity|].
        split; [split; assumption|]. split; [simpl; lia|].
        rewrite Hlt. discriminate.
      * destruct IH as (start & end_ & t' & -> & Hok & Hlen & Hres);
          [destruct todo'; [simpl in Hnz; lia | discriminate] | exact Hall |].
        exists start, end_, t'. split; [reflexivity|].
        split; [exact Hok|]. split; [simpl; lia | exact Hres].
    + cbn [andb]. eexists _, _, todo'. split; [reflexivity|].
      split; [split; assumption|]. split; [simpl; lia|].
      intros _. exact Hskip.
Qed.

Section FloodFillRows.
Context `{Driver}.
Variable p : plate.
Variable ID : Z.
Hypothesis Hwf : plate_wf p.

Lemma scan_row_total (row : Z) (fuel : nat) :
  0 <= row < height p ->
  forall seg todo j end_,
    Z.of_nat (length seg) = width p * height p ->
    Z.of_nat (length todo) = height p ->
    Forall (spans_ok (width p)) todo ->
    0 <= j -> end_ < width p -> (Z.to_nat (end_ + 1 - j) < fuel)%nat ->
    exists seg' todo',
      scan_row fuel p ID (row * width p) row (seg, todo) j end_
        = Some (seg', todo') /\
      fills p ID seg seg' /\
      Z.of_nat (length seg') = width p * height p /\
      Z.of_nat (length todo') = height p /\
      Forall (spans_ok (width p)) todo' /\
      (fill_potential ID seg' todo' <= fill_potential ID seg todo)%nat.
Proof.
  intros Hrow. destruct (raster_facts p Hwf) as (Hw & Hh & Hn & _).
  induction fuel as [|fuel IH]; intros seg todo j end_ Hlen Hlt Hok Hj He Hfuel;
    [lia|].
  cbn [scan_row].
  destruct (Z.leb_spec j end_) as [Hle|];
    [|exists seg, todo; repeat split; try assumption; try lia; apply fills_refl].
  destruct (cell_in p Hwf row j Hrow ltac:(lia)) as [Hl0 Hc].
  rewrite (sz_small (row * width p + j)) by lia.
  rewrite (sz_small (j + 1)) by lia.
  destruct (free_or_not p ID Hwf seg (row * width p + j) Hlen ltac:(lia))
    as [-> | (-> & seg1 & -> & Hf1 & Hu1 & Hl1)]; cbn [mbind option_bind].
  { apply IH; try assumption; lia. }
  destruct (scan_run_total p ID Hwf row (Datatypes.S (Z.to_nat (width p))) Hrow
              seg1 j Hl1 ltac:(lia) ltac:(lia))
    as (seg2 & j' & -> & Hf2 & Hj' & Hu2 & Hl2).
  cbn [mbind option_bind].
  rewrite (sz_small (j' - 1)) by lia.
  destruct (push_span_total (width p) todo row j (j' - 1))
    as (todo1 & -> & Hlt1 & Hok1 & Hp1); try assumption; try lia.
  cbn [mbind option_bind].
  rewrite (sz_small (j' - 1 + 1)) by lia. rewrite (sz_small (j' - 1 + 1 + 1)) by lia.
  destruct (IH seg2 todo1 (j' - 1 + 1 + 1) end_)
    as (seg' & todo' & -> & Hf & Hl' & Hlt' & Hok' & Hpot);
    try assumption; try lia.
  exists seg', todo'. split; [reflexivity|].
  split; [eapply fills_trans; [exact Hf1|]; eapply fills_trans; eauto|].
  repeat split; try assumption. unfold fill_potential in *. lia.
Qed.

End FloodFillRows.

Lemma row_above_val (h line : Z) :
  0 < h < 2 ^ 32 -> 0 <= line < h ->
  Z.lor (Z.land (sz (line - 1)) (mask (0 <? line)))
        (Z.land (sz (h - 1)) (mask (line =? 0)))
  = if 0 <? line then line - 1 else h - 1.
Proof.
  intros Hh Hl. destruct (Z.ltb_spec 0 line) as [Hpos | Hz].
  - destruct (Z.eqb_spec line 0); [lia|].
    rewrite land_mask by apply sz_range. rewrite land_mask by apply sz_range.
    rewrite Z.lor_0_r. apply sz_small. lia.
  - assert (line = 0) by lia. subst line. cbn [Z.eqb].
    rewrite land_mask by apply sz_range. rewrite land_mask by apply sz_range.
    rewrite Z.lor_0_l. apply sz_small. lia.
Qed.

Lemma row_below_val (h line : Z) :
  0 < h < 2 ^ 32 -> 0 <= line < h ->
  Z.land (sz (line + 1)) (mask (line <? sz (h - 1)))
  = if line <? h - 1 then line + 1 else 0.
Proof.
  intros Hh Hl. rewrite (sz_small (h - 1)) by lia.
  rewrite land_mask by apply sz_range.
  destruct (line <? h - 1); [apply sz_small; lia | reflexivity].
Qed.

Section FloodFillLine.
Context `{Driver}.
Variable p : plate.
Variable ID : Z.
Hypothesis Hwf : plate_wf p.

(** The two checks for a wrap around an edge of the row. *)
Lemma wrap_check_total (cond : bool) (seg : list Z) (todo : list (list Z))
    (i line a : Z) :
  Z.of_nat (length seg) = width p * height p ->
  Z.of_nat (length todo) = height p ->
  Forall (spans_ok (width p)) todo ->
  0 <= i < width p * height p -> 0 <= line < height p -> 0 <= a < width p ->
  exists seg' todo',
    (if cond then
       free ← free_cell p seg ID i;
       if (free : bool) then
         seg' ← wr seg i ID;
         todo' ← push_span todo line a a;
         Some (seg', todo')
       else Some (seg, todo)
     else Some (seg, todo)) = Some (seg', todo') /\
    fills p ID seg seg' /\
    Z.of_nat (length seg') = width p * height p /\
    Z.of_nat (length todo') = height p /\
    Forall (spans_ok (width p)) todo' /\
    (fill_potential ID seg' todo' <= fill_potential ID seg todo)%nat.
Proof.
  intros Hlen Hlt Hok Hi Hline Ha.
  destruct cond;
    [|exists seg, todo; repeat split; try assumption; try lia; apply fills_refl].
  destruct (free_or_not p ID Hwf seg i Hlen Hi)
    as [-> | (-> & seg1 & -> & Hf1 & Hu1 & Hl1)]; cbn [mbind option_bind].
  { exists seg, todo. repeat split; try assumption; try lia; apply fills_refl. }
  destruct (push_span_total (width p) todo line a a)
    as (todo1 & -> & Hlt1 & Hok1 & Hp1); try assumption; try lia.
  cbn [mbind option_bind]. exists seg1, todo1. split; [reflexivity|].
  repeat split; try assumption; try apply Hf1; try lia.
  unfold fill_potential. lia.
Qed.

Lemma scan_guard_total (cond : bool) (row : Z) (seg : list Z)
    (todo : list (list Z)) (start end_ : Z) :
  0 <= row < height p ->
  Z.of_nat (length seg) = width p * height p ->
  Z.of_nat (length todo) = height p ->
  Forall (spans_ok (width p)) todo ->
  0 <= start -> end_ < width p ->
  exists seg' todo',
    (if cond
     then scan_row (Datatypes.S (Z.to_nat (width p))) p ID (row * width p) row
            (seg, todo) start end_
     else Some (seg, todo)) = Some (seg', todo') /\
    fills p ID seg seg' /\
    Z.of_nat (length seg') = width p * height p /\
    Z.of_nat (length todo') = height p /\
    Forall (spans_ok (width p)) todo' /\
    (fill_potential ID seg' todo' <= fill_potential ID seg todo)%nat.
Proof.
  intros Hrow Hlen Hlt Hok Hs He.
  destruct cond;
    [|exists seg, todo; repeat split; try assumption; try lia; apply fills_refl].
  apply (scan_row_total p ID Hwf row); try assumption. lia.
Qed.

Lemma fill_line_total (st : fill_state) (line : Z) :
  0 <= line < height p ->
  fill_shape p (fs_segment st) (fs_todo st) (fs_done st) ->
  0 <= fs_lines st <= line ->
  exists st',
    fill_line p ID st line = Some st' /\
    fills p ID (fs_segment st) (fs_segment st') /\
    fill_shape p (fs_segment st') (fs_todo st') (fs_done st') /\
    (fill_potential ID (fs_segment st') (fs_todo st')
     <= fill_potential ID (fs_segment st) (fs_todo st))%nat /\
    (fs_lines st' = fs_lines st \/
     (fs_lines st' = fs_lines st + 1 /\
      (fill_potential ID (fs_segment st') (fs_todo st') + 2
       <= fill_potential ID (fs_segment st) (fs_todo st))%nat)).
Proof.
  intros Hline Hshape Hlines.
  pose proof Hshape as (Hlen & Hlt & Hld & Hokt & Hokd).
  destruct (raster_facts p Hwf) as (Hw & Hh & Hn & Hlm & HwW & HhH).
  unfold fill_line. cbv zeta.
  destruct (rd_Some (fs_todo st) line) as [todo_l Htl]; [lia|].
  rewrite Htl. cbn [mbind option_bind].
  destruct (Z.eqb_spec (Z.of_nat (length todo_l)) 0) as [Hz | Hnz].
  { exists st. split; [reflexivity|]. split; [apply fills_refl|].
    split; [exact Hshape|]. split; [lia | left; reflexivity]. }
  destruct (rd_Some (fs_done st) line) as [done_l Hdl]; [lia|].
  rewrite Hdl. cbn [mbind option_bind].
  pose proof (rd_Forall _ _ _ _ Htl Hokt) as [Hev Hrange].
  pose proof (rd_Forall _ _ _ _ Hdl Hokd) as [Hevd Hranged].
  destruct (next_span_total (width p) done_l Hw Hevd todo_l Hev)
    as (start & end_ & todo_l' & -> & Hok' & Hshort & Hspan);
    [destruct todo_l; [simpl in Hnz; lia | discriminate] | exact Hrange |].
  cbn [mbind option_bind].
  destruct (wr_Some (fs_todo st) line todo_l') as (todo1 & Hwt & Hlt1); [lia|].
  rewrite Hwt. cbn [mbind option_bind].
  assert (Hokt1 : Forall (spans_ok (width p)) todo1)
    by (apply (wr_Forall _ _ _ _ _ Hwt Hokt); exact Hok').
  assert (Hpend : (pending todo1 + 2 <= pending (fs_todo st))%nat).
  { pose proof Hwt as Hwt'. apply wr_inv in Hwt' as [_ ->].
    pose proof Htl as Htl'. apply rd_inv in Htl' as [_ Htl'].
    pose proof (pending_insert (fs_todo st) _ todo_l todo_l' Htl'). lia. }
  destruct (end_ <? start) eqn:Hskip.
  { eexists. split; [reflexivity|]. cbn [fs_segment fs_todo fs_done fs_lines].
    split; [apply fills_refl|].
    split; [unfold fill_shape; repeat split; try assumption; lia|].
    unfold fill_potential. split; [lia | left; reflexivity]. }
  destruct (Hspan eq_refl) as (Hs0 & Hse & Hew).
  rewrite (row_above_val _ _ Hh Hline), (row_below_val _ _ Hh Hline).
  set (row_above := if 0 <? line then line - 1 else height p - 1).
  set (row_below := if line <? height p - 1 then line + 1 else 0).
  assert (Hra : 0 <= row_above < height p)
    by (subst row_above; destruct (Z.ltb_spec 0 line); lia).
  assert (Hrb : 0 <= row_below < height p)
    by (subst row_below; destruct (Z.ltb_spec line (height p - 1)); lia).
  destruct (cell_in p Hwf line 0 Hline ltac:(lia)) as [Hl0 Hc0].
  destruct (cell_in p Hwf line (width p - 1) Hline ltac:(lia)) as [_ Hc1].
  destruct (cell_in p Hwf row_above 0 Hra ltac:(lia)) as [Hla0 Hla1].
  destruct (cell_in p Hwf row_below 0 Hrb ltac:(lia)) as [Hlb0 Hlb1].
  rewrite !(sz_small (line * width p)) by lia.
  rewrite !(sz_small (row_above * width p)) by lia.
  rewrite !(sz_small (row_below * width p)) by lia.
  destruct (extend_left_total p ID Hwf line (Datatypes.S (Z.to_nat (width p)))
              Hline (fs_segment st) start Hlen ltac:(lia) ltac:(lia))
    as (seg1 & start1 & -> & Hf1 & Hs1 & Hu1 & Hl1).
  cbn [mbind option_bind].
  destruct (extend_right_total p ID Hwf line (Datatypes.S (Z.to_nat (width p)))
              Hline seg1 end_ Hl1 ltac:(lia) ltac:(lia))
    as (seg2 & end2 & -> & Hf2 & He2 & Hu2 & Hl2).
  cbn [mbind option_bind].
  destruct (wrap_check_total
              ((width p =? getWidth (_worldDimension p)) && (start1 =? 0))
              seg2 todo1 (sz (sz (line * width p + width p) - 1)) line
              (sz (width p - 1)))
    as (seg3 & todo3 & -> & Hf3 & Hl3 & Hlt3 & Hokt3 & Hp3);
    try assumption; try lia.
  { rewrite (sz_small (line * width p + width p)) by lia.
    rewrite sz_small by lia. lia. }
  { rewrite sz_small by lia. lia. }
  cbn [mbind option_bind].
  destruct (wrap_check_total
              ((width p =? getWidth (_worldDimension p))
               && (end2 =? sz (width p - 1)))
              seg3 todo3 (sz (line * width p + 0)) line 0)
    as (seg4 & todo4 & -> & Hf4 & Hl4 & Hlt4 & Hokt4 & Hp4);
    try assumption; try lia.
  { rewrite sz_small by lia. lia. }
  cbn [mbind option_bind].
  destruct (scan_guard_total
              ((0 <? line) || (height p =? getHeight (_worldDimension p)))
              row_above seg4 todo4 start1 end2)
    as (seg5 & todo5 & -> & Hf5 & Hl5 & Hlt5 & Hokt5 & Hp5);
    try assumption; try lia.
  cbn [mbind option_bind].
  destruct (scan_guard_total
              ((line <? sz (height p - 1))
               || (height p =? getHeight (_worldDimension p)))
              row_below seg5 todo5 start1 end2)
    as (seg6 & todo6 & -> & Hf6 & Hl6 & Hlt6 & Hokt6 & Hp6);
    try assumption; try lia.
  cbn [mbind option_bind].
  destruct (wr_Some (fs_done st) line (done_l ++ [start1; end2]))
    as (done1 & Hwd & Hld1); [lia|].
  rewrite Hwd. cbn [mbind option_bind].
  eexists. split; [reflexivity|]. cbn [fs_segment fs_todo fs_done fs_lines].
  split.
  { eapply fills_trans; [exact Hf1|]. eapply fills_trans; [exact Hf2|].
    eapply fills_trans; [exact Hf3|]. eapply fills_trans; [exact Hf4|].
    eapply fills_trans; [exact Hf5 | exact Hf6]. }
  split.
  { unfold fill_shape. repeat split; try assumption; try lia.
    apply (wr_Forall _ _ _ _ _ Hwd Hokd). split.
    - rewrite length_app. simpl. destruct Hevd as [k Hk].
      exists (Datatypes.S k). lia.
    - apply Forall_app. split; [exact Hranged|].
      repeat (apply List.Forall_cons; [lia|]). apply List.Forall_nil. }
  assert (Hpot : (fill_potential ID seg6 todo6 + 2
                  <= fill_potential ID (fs_segment st) (fs_todo st))%nat)
    by (unfold fill_potential in *; lia).
  split; [lia|]. right. split; [apply sz_small; lia | exact Hpot].
Qed.

End FloodFillLine.

Section FloodFillSweeps.
Context `{Driver}.
Variable p : plate.
Variable ID : Z.
Hypothesis Hwf : plate_wf p.

(** One sweep over the lines: the potential never grows, and it shrinks when
    a line was processed. *)
Lemma sweep_total (seg : list Z) (todo done : list (list Z)) (d : segmentData) :
  fill_shape p seg todo done ->
  exists st',
    for_each (fill_line p ID) (seqZ 0 (height p))
      {| fs_segment := seg; fs_todo := todo; fs_done := done;
         fs_data := d; fs_lines := 0 |} = Some st' /\
    fills p ID seg (fs_segment st') /\
    fill_shape p (fs_segment st') (fs_todo st') (fs_done st') /\
    0 <= fs_lines st' /\
    (fill_potential ID (fs_segment st') (fs_todo st')
     <= fill_potential ID seg todo)%nat /\
    (0 < fs_lines st' ->
     (fill_potential ID (fs_segment st') (fs_todo st') + 2
      <= fill_potential ID seg todo)%nat).
Proof.
  intros Hshape. destruct (raster_facts p Hwf) as (Hw & Hh & _).
  destruct (for_each_ind
    (fun i st =>
       fills p ID seg (fs_segment st) /\
       fill_shape p (fs_segment st) (fs_todo st) (fs_done st) /\
       0 <= fs_lines st <= Z.of_nat i /\
       (fill_potential ID (fs_segment st) (fs_todo st)
        <= fill_potential ID seg todo)%nat /\
       (0 < fs_lines st ->
        (fill_potential ID (fs_segment st) (fs_todo st) + 2
         <= fill_potential ID seg todo)%nat))
    (fill_line p ID) (seqZ 0 (height p))
    {| fs_segment := seg; fs_todo := todo; fs_done := done;
       fs_data := d; fs_lines := 0 |})
    as (st' & Hrun & Hf & Hs & Hl & Hp & Hq).
  - cbn [fs_segment fs_todo fs_done fs_lines].
    split; [apply fills_refl|]. split; [exact Hshape|].
    split; [lia|]. split; [lia|]. intros Hc. lia.
  - intros i line st Hi (Hf & Hs & Hl & Hp & Hq).
    assert (Hlt : (i < length (seqZ 0 (height p)))%nat)
      by (eapply lookup_lt_Some; eauto).
    rewrite length_seqZ in Hlt.
    rewrite lookup_seqZ_lt in Hi by lia. injection Hi as <-.
    destruct (fill_line_total p ID Hwf st (0 + Z.of_nat i))
      as (st1 & Hrun & Hf1 & Hs1 & Hp1 & Hcase); [lia | exact Hs | lia |].
    exists st1. split; [exact Hrun|].
    split; [eapply fills_trans; eauto|]. split; [exact Hs1|].
    split; [destruct Hcase as [-> | [-> _]]; lia|].
    split; [lia|]. intros Hpos.
    destruct Hcase as [Heq | [_ Hdec]]; [|lia].
    rewrite Heq in Hpos. specialize (Hq Hpos). lia.
  - exists st'. split; [exact Hrun|]. split; [exact Hf|]. split; [exact Hs|].
    split; [lia|]. split; [exact Hp | exact Hq].
Qed.

(** The flood fill ends: a sweep that processes a line lowers the potential
    by two, so [fuel] sweeps suffice when the potential is below [2 * fuel]. *)
Lemma fill_total (fuel : nat) :
  forall st,
    fill_shape p (fs_segment st) (fs_todo st) (fs_done st) ->
    (fill_potential ID (fs_segment st) (fs_todo st) < 2 * fuel)%nat ->
    exists st',
      fill fuel p ID st = Some st' /\
      fills p ID (fs_segment st) (fs_segment st') /\
      Z.of_nat (length (fs_segment st')) = width p * height p.
Proof.
  induction fuel as [|fuel IH]; intros st Hshape Hpot; [lia|].
  cbn [fill].
  destruct (sweep_total (fs_segment st) (fs_todo st) (fs_done st) (fs_data st)
              Hshape) as (st1 & -> & Hf1 & Hs1 & Hl1 & Hp1 & Hq1).
  cbn [mbind option_bind].
  destruct (Z.ltb_spec 0 (fs_lines st1)) as [Hpos | Hz].
  - destruct (IH st1 Hs1) as (st' & -> & Hf & Hlen); [specialize (Hq1 Hpos); lia|].
    exists st'. split; [reflexivity|]. split; [eapply fills_trans; eauto | exact Hlen].
  - exists st1. split; [reflexivity|]. split; [exact Hf1 | apply Hs1].
Qed.

End FloodFillSweeps.

Section CreateSegment.
Context `{Driver}.

Lemma canGo_total (p : plate) (inside : bool) (i : Z) :
  (inside = true -> 0 <= i < Z.of_nat (length (map p))) ->
  exists b, canGo p inside i = Some b /\ (b = true -> inside = true).
Proof.
  intros Hi. unfold canGo. destruct inside; [|exists false; split; auto].
  destruct (rd_Some (map p) i (Hi eq_refl)) as [m ->]. cbn [mbind option_bind].
  eexists. split; [reflexivity | auto].
Qed.

Lemma known_neighbour_total (p : plate) (ID : Z) (can : bool) (i : Z) :
  (can = true -> 0 <= i < Z.of_nat (length (segment p))) ->
  Forall (fun s => 0 <= s) (segment p) ->
  exists r, known_neighbour p ID can i = Some r /\
    forall s, r = Some s -> 0 <= s < ID.
Proof.
  intros Hi Hnn. unfold known_neighbour.
  destruct can; [|exists None; split; [reflexivity | discriminate]].
  destruct (rd_Some (segment p) i (Hi eq_refl)) as [s Hs]. rewrite Hs.
  cbn [mbind option_bind]. eexists. split; [reflexivity|].
  pose proof (rd_Forall _ _ _ _ Hs Hnn) as Hs0. simpl in Hs0.
  intros s' Hr. destruct (Z.ltb_spec s ID); [|discriminate].
  injection Hr as <-. lia.
Qed.

Lemma unfilled_lt (ID : Z) (seg : list Z) (i : nat) :
  seg !! i = Some ID -> (unfilled ID seg < length seg)%nat.
Proof.
  unfold unfilled. revert i. induction seg as [|d l IH]; intros [|i] Hl;
    try discriminate.
  - injection Hl as ->.
    rewrite (filter_cons_False (fun s => s <> ID) ID l)
      by (intros Hc; apply Hc; reflexivity).
    pose proof (length_filter (fun s => s <> ID) l). simpl. lia.
  - change ((d :: l) !! Datatypes.S i) with (l !! i) in Hl.
    specialize (IH i Hl).
    destruct (decide (d <> ID)) as [Hd | Hd].
    + rewrite (filter_cons_True (fun s => s <> ID) d) by exact Hd. simpl. lia.
    + rewrite (filter_cons_False (fun s => s <> ID) d) by exact Hd. simpl. lia.
Qed.

Lemma pending_replicate (n : nat) : pending (replicate n []) = O.
Proof. unfold pending. induction n as [|n IH]; [reflexivity|]. cbn. exact IH. Qed.

Lemma with_rasters_same (p : plate) :
  with_rasters p (map p) (age_map p) (segment p) (seg_data p) (mass p) = p.
Proof. destruct p. reflexivity. Qed.

Lemma fills_nonneg (p : plate) (ID : Z) (seg seg' : list Z) :
  fills p ID seg seg' -> 0 <= ID ->
  Forall (fun s => 0 <= s) seg -> Forall (fun s => 0 <= s) seg'.
Proof.
  intros [Hlen Hcells] HID Hnn. apply Forall_lookup. intros k v Hk.
  assert (Hrd : rd seg' (Z.of_nat k) = Some v).
  { unfold rd. destruct (Z.leb_spec 0 (Z.of_nat k)); [|lia].
    rewrite Nat2Z.id. exact Hk. }
  destruct (Hcells (Z.of_nat k)) as [Heq | [Heq _]]; rewrite Heq in Hrd.
  - apply (rd_Forall _ _ _ _ Hrd Hnn).
  - injection Hrd as <-. exact HID.
Qed.

(** What [createSegment] does on a cell of a well-formed plate. *)
Lemma createSegment_total (p : plate) (x y : Z) :
  plate_wf p -> Forall (fun s => 0 <= s) (segment p) ->
  0 <= x < width p -> 0 <= y < height p ->
  exists p' id,
    createSegment p x y = Some (p', id) /\
    0 <= id < Z.of_nat (length (seg_data p')) /\
    rd (segment p') (y * width p + x) = Some id /\
    p' = with_rasters p (map p) (age_map p) (segment p') (seg_data p') (mass p) /\
    length (segment p') = length (segment p) /\
    Forall (fun s => 0 <= s) (segment p') /\
    (length (seg_data p') = length (seg_data p) \/
     (id = Z.of_nat (length (seg_data p)) /\
      exists d, seg_data p' = seg_data p ++ [d])) /\
    (forall s, rd (segment p) (y * width p + x) = Some s ->
       s < Z.of_nat (length (seg_data p)) -> p' = p /\ id = s) /\
    (forall i, i <> y * width p + x ->
       rd (segment p') i = rd (segment p) i \/
       (rd (segment p') i = Some (Z.of_nat (length (seg_data p))) /\
        id = Z.of_nat (length (seg_data p)) /\
        exists s m, rd (segment p) i = Some s /\
          Z.of_nat (length (seg_data p)) < s /\
          rd (map p) i = Some m /\ (CONT_BASE <= m)%Q)).
Proof.
  intros Hwf Hnn Hx Hy.
  pose proof Hwf as (Hfit & (Hlm & Hla & Hls) & Hw0 & Hh0).
  destruct (raster_facts p Hwf) as (Hw & Hh & Hn & _).
  destruct (cell_index _ _ x y Hw Hh Hx Hy) as [Hidx Hrange].
  unfold createSegment. cbv zeta. rewrite Hidx.
  set (origin := y * width p + x) in *.
  set (ID := Z.of_nat (length (seg_data p))).
  destruct (rd_Some (segment p) origin) as [s0 Hs0]; [lia|].
  rewrite Hs0. cbn [mbind option_bind].
  pose proof (rd_Forall _ _ _ _ Hs0 Hnn) as Hs0nn. simpl in Hs0nn.
  destruct (Z.ltb_spec s0 ID) as [Hknown | Hnew].
  { exists p, s0. split; [reflexivity|]. split; [lia|]. split; [exact Hs0|].
    split; [symmetry; apply with_rasters_same|]. split; [reflexivity|].
    split; [exact Hnn|]. split; [left; reflexivity|].
    split; [intros s Hs _; split; [reflexivity | congruence]|].
    intros i _. left. reflexivity. }
  rewrite (sz_small (width p - 1)), (sz_small (height p - 1)) by lia.
  assert (Hrow : 0 <= y * width p) by (apply Z.mul_nonneg_nonneg; lia).
  assert (Hup : 0 < y -> width p <= origin).
  { intros Hpos. subst origin.
    assert (1 * width p <= y * width p)
      by (apply Z.mul_le_mono_nonneg_r; lia). lia. }
  assert (Hdown : y < height p - 1 -> origin + width p < width p * height p).
  { intros Hlt. subst origin.
    assert ((y + 2) * width p <= height p * width p)
      by (apply Z.mul_le_mono_nonneg_r; lia). lia. }
  destruct (canGo_total p (0 <? x) (sz (origin - 1))) as (cl & -> & Hcl).
  { intros Hc. apply Z.ltb_lt in Hc. rewrite sz_small by lia. lia. }
  cbn [mbind option_bind].
  destruct (canGo_total p (x <? width p - 1) (sz (origin + 1))) as (cr & -> & Hcr).
  { intros Hc. apply Z.ltb_lt in Hc. rewrite sz_small by lia.
    subst origin.
    assert ((y + 1) * width p <= height p * width p)
      by (apply Z.mul_le_mono_nonneg_r; lia). lia. }
  cbn [mbind option_bind].
  destruct (canGo_total p (0 <? y) (sz (origin - width p))) as (cu & -> & Hcu).
  { intros Hc. apply Z.ltb_lt in Hc. specialize (Hup Hc).
    rewrite sz_small by lia. lia. }
  cbn [mbind option_bind].
  destruct (canGo_total p (y <? height p - 1) (sz (origin + width p)))
    as (cd & -> & Hcd).
  { intros Hc. apply Z.ltb_lt in Hc. specialize (Hdown Hc).
    rewrite sz_small by lia. lia. }
  cbn [mbind option_bind].
  destruct (known_neighbour_total p ID cl (sz (origin - 1))) as (kl & -> & Hkl);
    [|exact Hnn|].
  { intros Hc. apply Hcl, Z.ltb_lt in Hc. rewrite sz_small by lia. lia. }
  cbn [mbind option_bind].
  destruct (known_neighbour_total p ID cr (sz (origin + 1))) as (kr & Hkr' & Hkr);
    [|exact Hnn|].
  { intros Hc. apply Hcr, Z.ltb_lt in Hc. rewrite sz_small by lia.
    subst origin.
    assert ((y + 1) * width p <= height p * width p)
      by (apply Z.mul_le_mono_nonneg_r; lia). lia. }
  destruct (known_neighbour_total p ID cu (sz (origin - width p)))
    as (ku & Hku' & Hku); [|exact Hnn|].
  { intros Hc. apply Hcu, Z.ltb_lt in Hc. specialize (Hup Hc).
    rewrite sz_small by lia. lia. }
  destruct (known_neighbour_total p ID cd (sz (origin + width p)))
    as (kd & Hkd' & Hkd); [|exact Hnn|].
  { intros Hc. apply Hcd, Z.ltb_lt in Hc. specialize (Hdown Hc).
    rewrite sz_small by lia. lia. }
  assert (Hchain : exists nb,
    match kl with
    | Some s => Some (Some s)
    | None =>
      r ← known_neighbour p ID cr (sz (origin + 1));
      match r with
      | Some s => Some (Some s)
      | None =>
        u ← known_neighbour p ID cu (sz (origin - width p));
        match u with
        | Some s => Some (Some s)
        | None => known_neighbour p ID cd (sz (origin + width p))
        end
      end
    end = Some nb /\ forall s, nb = Some s -> 0 <= s < ID).
  { destruct kl as [s|]; [exists (Some s); split; [reflexivity | exact Hkl]|].
    rewrite Hkr'. cbn [mbind option_bind].
    destruct kr as [s|]; [exists (Some s); split; [reflexivity | exact Hkr]|].
    rewrite Hku'. cbn [mbind option_bind].
    destruct ku as [s|]; [exists (Some s); split; [reflexivity | exact Hku]|].
    exists kd. split; [exact Hkd' | exact Hkd]. }
  destruct Hchain as (nb & -> & Hnb). cbn [mbind option_bind].
  destruct nb as [nbour_id|].
  - (* the cell joins the continent of a neighbour *)
    specialize (Hnb nbour_id eq_refl).
    destruct (wr_Some (segment p) origin nbour_id) as (seg' & Hwr & Hlen'); [lia|].
    rewrite Hwr. cbn [mbind option_bind].
    destruct (rd_Some (seg_data p) nbour_id) as [d Hd]; [lia|].
    rewrite Hd. cbn [mbind option_bind].
    destruct (wr_Some (seg_data p) nbour_id
                (enlarge_to_contain (set_area d (sz (area d + 1))) x y))
      as (sd' & Hwd & Hlsd); [lia|].
    rewrite Hwd. cbn [mbind option_bind].
    eexists _, nbour_id. split; [reflexivity|].
    cbn [segment seg_data with_rasters].
    split; [lia|]. split; [eapply rd_wr_same; eauto|].
    split; [reflexivity|]. split; [exact Hlen'|].
    split; [apply (wr_Forall _ _ _ _ _ Hwr Hnn); lia|].
    split; [left; exact Hlsd|].
    split; [intros s Hs Hlt; unfold origin in *; assert (s = s0) by congruence; lia|].
    intros i Hi. left. eapply rd_wr_other; eauto.
  - (* a new continent is filled from the cell *)
    destruct (wr_Some (segment p) origin ID) as (seg1 & Hwr & Hlen1); [lia|].
    rewrite Hwr. cbn [mbind option_bind].
    destruct (push_span_total (width p)
                (replicate (Z.to_nat (height p)) []) y x x)
      as (todo1 & -> & Hlt1 & Hok1 & Hp1).
    { rewrite length_replicate. lia. }
    { apply Forall_replicate. split; [exists O; reflexivity | apply List.Forall_nil]. }
    { exact Hx. }
    { exact Hx. }
    cbn [mbind option_bind].
    rewrite pending_replicate in Hp1. rewrite length_replicate in Hlt1.
    rewrite (sz_small (width p * height p)) by lia.
    destruct (fill_total p ID Hwf
                (Datatypes.S (Datatypes.S (Z.to_nat (width p * height p))))
                {| fs_segment := seg1; fs_todo := todo1;
                   fs_done := replicate (Z.to_nat (height p)) [];
                   fs_data := fresh_segment x y;
                   fs_lines := 0 |})
      as (st & -> & Hfills & Hlst).
    { cbn [fs_segment fs_todo fs_done]. unfold fill_shape.
      rewrite length_replicate.
      repeat split; try lia; try assumption.
      apply Forall_replicate. split; [exists O; reflexivity | apply List.Forall_nil]. }
    { cbn [fs_segment fs_todo]. unfold fill_potential.
      assert (Hor : seg1 !! Z.to_nat origin = Some ID).
      { pose proof (rd_wr_same _ _ _ _ Hwr) as Hr. apply rd_inv in Hr. tauto. }
      pose proof (unfilled_lt ID seg1 _ Hor). lia. }
    cbn [mbind option_bind fs_segment] in *.
    eexists _, ID. split; [reflexivity|].
    cbn [segment seg_data with_rasters].
    assert (Hnn' : Forall (fun s => 0 <= s) (fs_segment st)).
    { apply (fills_nonneg p ID seg1 _ Hfills); [lia|].
      apply (wr_Forall _ _ _ _ _ Hwr Hnn). lia. }
    destruct Hfills as [Hlf Hcells].
    split; [rewrite length_app; simpl; lia|].
    split.
    { destruct (Hcells origin) as [-> | [-> _]];
        [eapply rd_wr_same; eauto | reflexivity]. }
    split; [reflexivity|]. split; [congruence|]. split; [exact Hnn'|].
    split; [right; split; [reflexivity|]; eexists; reflexivity|].
    split; [intros s Hs Hlt; unfold origin in *; assert (s = s0) by congruence; lia|].
    intros i Hi. pose proof (rd_wr_other _ _ _ i _ Hwr (not_eq_sym Hi)) as Hsame.
    destruct (Hcells i) as [-> | [-> Hfree]]; [left; exact Hsame|].
    right. split; [reflexivity|]. split; [reflexivity|].
    unfold free_cell in Hfree. rewrite Hsame in Hfree.
    destruct (rd (segment p) i) as [s|]; cbn [mbind option_bind] in Hfree;
      [|discriminate].
    destruct (Z.ltb_spec ID s); [|discriminate].
    destruct (rd (map p) i) as [m|]; cbn [mbind option_bind] in Hfree;
      [|discriminate].
    exists s, m. repeat split; try assumption; try reflexivity.
    apply Qle_bool_iff. congruence.
Qed.

End CreateSegment.

Section Continents.
Context `{Driver}.

Lemma to_int32_small (v : Z) : 0 <= v < 2 ^ 31 -> sz (to_int32 v) = v.
Proof.
  intros Hv. unfold to_int32. rewrite Z.mod_small by lia.
  replace (v + 2 ^ 31 - 2 ^ 31) with v by lia. apply sz_small. lia.
Qed.

Lemma segmentable_with_rasters (p : plate) (seg : list Z)
    (sd : list segmentData) :
  segmentable p -> length seg = length (segment p) ->
  Forall (fun s => 0 <= s) seg ->
  segmentable (with_rasters p (map p) (age_map p) seg sd (mass p)).
Proof.
  intros ((Hfit & (Hm & Ha & Hs) & Hw & Hh) & Hin & _) Hlen Hnn.
  split; [|split; [exact Hin | exact Hnn]].
  unfold plate_wf, rasters_sized. cbn [with_rasters map age_map segment width height].
  rewrite Hlen. repeat split; try assumption; apply Hfit.
Qed.

(** The local cell of a world point that lies on the plate. *)
Lemma getMapIndex_on_plate (p : plate) (wx wy : Z) :
  plate_wf p ->
  world_contains (_worldDimension p) (left p) (top p) = true ->
  fst (fst (getMapIndex p wx wy)) < width p * height p ->
  exists a b, getMapIndex p wx wy = (b * width p + a, a, b) /\
    0 <= a < width p /\ 0 <= b < height p.
Proof.
  intros Hwf Hin Hidx.
  pose proof Hwf as (Hfit & _ & Hw0 & Hh0).
  pose proof Hfit as (HW & HH & Hw & Hh).
  apply world_contains_spec in Hin as (Hl0 & HlW & Ht0 & HtH).
  rewrite (getMapIndex_spec p wx wy Hfit Hl0 HlW Ht0 HtH) in *.
  cbv zeta in *.
  match goal with
  | |- context [(?u <? width p) && (?v <? height p)] =>
    assert (0 <= u) by (apply Z.mod_pos_bound; lia);
    assert (0 <= v) by (apply Z.mod_pos_bound; lia);
    destruct (Z.ltb_spec u (width p));
    destruct (Z.ltb_spec v (height p)); cbn [andb fst] in *;
    try (exists u, v; split; [reflexivity | lia])
  end.
  all: exfalso; destruct (raster_facts p Hwf) as (_ & _ & Hn & _);
    unfold SIZE_MAX in Hidx; lia.
Qed.

(** On a point of the plate [getContinentAt] never fails: it returns the id
    of a known continent, building the continent first when the cell has
    none. *)
Lemma getContinentAt_total (p : plate) (wx wy : Z) :
  segmentable p -> 0 <= wx < 2 ^ 31 -> 0 <= wy < 2 ^ 31 ->
  fst (fst (getMapIndex p wx wy)) < width p * height p ->
  exists p' seg,
    getContinentAt p wx wy = Ok (p', seg) /\
    0 <= seg < Z.of_nat (length (seg_data p')) /\
    rd (segment p') (fst (fst (getMapIndex p wx wy))) = Some seg /\
    p' = with_rasters p (map p) (age_map p) (segment p') (seg_data p') (mass p) /\
    segmentable p' /\
    (forall s, rd (segment p) (fst (fst (getMapIndex p wx wy))) = Some s ->
       s < Z.of_nat (length (seg_data p)) -> p' = p /\ seg = s).
Proof.
  intros (Hwf & Hin & Hnn) Hx Hy Hidx.
  destruct (getMapIndex_on_plate p wx wy Hwf Hin Hidx) as (a & b & Hgm & Ha & Hb).
  unfold getContinentAt. rewrite (to_int32_small wx Hx), (to_int32_small wy Hy).
  rewrite Hgm in *. cbn [fst] in *.
  pose proof Hwf as (_ & (_ & _ & Hls) & _).
  destruct (cell_in p Hwf b a Hb Ha) as [_ Hcell].
  destruct (rd_Some (segment p) (b * width p + a)) as [s Hs]; [lia|].
  rewrite Hs.
  pose proof (rd_Forall _ _ _ _ Hs Hnn) as Hs0. simpl in Hs0.
  destruct (Z.leb_spec (Z.of_nat (length (seg_data p))) s) as [Hnew | Hknown].
  - destruct (createSegment_total p a b Hwf Hnn Ha Hb)
      as (p' & id & -> & Hid & Hrd & Hp' & Hlen & Hnn' & _ & Hk & _).
    destruct (Z.leb_spec (Z.of_nat (length (seg_data p'))) id); [lia|].
    exists p', id. split; [reflexivity|]. split; [lia|]. split; [exact Hrd|].
    split; [exact Hp'|].
    split; [rewrite Hp'; apply segmentable_with_rasters;
            [exact (conj Hwf (conj Hin Hnn)) | exact Hlen | exact Hnn']|].
    intros s' Hs' Hlt. injection Hs' as <-. lia.
  - destruct (Z.leb_spec (Z.of_nat (length (seg_data p))) s); [lia|].
    exists p, s. split; [reflexivity|]. split; [lia|]. split; [exact Hs|].
    split; [symmetry; apply with_rasters_same|].
    split; [exact (conj Hwf (conj Hin Hnn))|].
    intros s' Hs' _. split; [reflexivity | congruence].
Qed.

End Continents.

Section ContinentQueries.
Context `{Driver}.

(** X19: on a cell of a well-formed plate [createSegment] always returns:
    the flood fill ends and no read or write leaves a buffer.  The returned
    id is that of a continent of the table afterwards, and the cell carries
    it.  A cell that already belongs to a known continent is left as it is,
    with the whole plate.  Otherwise the table keeps its entries and gains at
    most one; every other cell keeps its id, or it was continental (at least
    [CONT_BASE] high) and without a known continent and now carries the new
    id; heights, ages and mass are untouched. *)
Theorem createSegment_returns (p : plate) (x y : Z) :
  plate_wf p -> Forall (fun s => 0 <= s) (segment p) ->
  0 <= x < width p -> 0 <= y < height p ->
  exists p' id,
    createSegment p x y = Some (p', id) /\
    0 <= id < Z.of_nat (length (seg_data p')) /\
    rd (segment p') (y * width p + x) = Some id /\
    p' = with_rasters p (map p) (age_map p) (segment p') (seg_data p') (mass p) /\
    length (segment p') = length (segment p) /\
    (length (seg_data p') = length (seg_data p) \/
     (id = Z.of_nat (length (seg_data p)) /\
      exists d, seg_data p' = seg_data p ++ [d])) /\
    (forall s, rd (segment p) (y * width p + x) = Some s ->
       s < Z.of_nat (length (seg_data p)) -> p' = p /\ id = s) /\
    (forall i, i <> y * width p + x ->
       rd (segment p') i = rd (segment p) i \/
       (rd (segment p') i = Some (Z.of_nat (length (seg_data p))) /\
        id = Z.of_nat (length (seg_data p)) /\
        exists s m, rd (segment p) i = Some s /\
          Z.of_nat (length (seg_data p)) < s /\
          rd (map p) i = Some m /\ (CONT_BASE <= m)%Q)).
Proof.
  intros Hwf Hnn Hx Hy.
  destruct (createSegment_total p x y Hwf Hnn Hx Hy)
    as (p' & id & He & Hid & Hrd & Hp' & Hlen & _ & Hsd & Hk & Hcells).
  exists p', id. split; [exact He|]. split; [exact Hid|]. split; [exact Hrd|].
  split; [exact Hp'|]. split; [exact Hlen|]. split; [exact Hsd|].
  split; [exact Hk | exact Hcells].
Qed.

(** X20: on a world point that lies on the plate [getContinentAt] never
    throws and never reads outside a buffer: it returns the id of a continent
    of the table, which the cell carries afterwards, having built the
    continent first if the cell had none; a cell of a known continent leaves
    the plate as it is. *)
Theorem getContinentAt_never_throws (p : plate) (wx wy : Z) :
  segmentable p -> 0 <= wx < 2 ^ 31 -> 0 <= wy < 2 ^ 31 ->
  fst (fst (getMapIndex p wx wy)) < width p * height p ->
  exists p' seg,
    getContinentAt p wx wy = Ok (p', seg) /\
    0 <= seg < Z.of_nat (length (seg_data p')) /\
    rd (segment p') (fst (fst (getMapIndex p wx wy))) = Some seg /\
    p' = with_rasters p (map p) (age_map p) (segment p') (seg_data p') (mass p) /\
    segmentable p' /\
    (forall s, rd (segment p) (fst (fst (getMapIndex p wx wy))) = Some s ->
       s < Z.of_nat (length (seg_data p)) -> p' = p /\ seg = s).
Proof. apply getContinentAt_total. Qed.

(** X21: on a world point that lies on the plate [addCollision] returns the
    area of the continent there and raises its collision counter by one,
    leaving every other continent and the rasters as [getContinentAt] left
    them; [getCollisionInfo] then reports the raised counter and its ratio to
    the area plus one, and changes nothing. *)
Theorem addCollision_counts (p : plate) (wx wy : Z) :
  segmentable p -> 0 <= wx < 2 ^ 31 -> 0 <= wy < 2 ^ 31 ->
  fst (fst (getMapIndex p wx wy)) < width p * height p ->
  exists p1 seg d p2,
    getContinentAt p wx wy = Ok (p1, seg) /\
    rd (seg_data p1) seg = Some d /\
    addCollision p wx wy = Ok (p2, area d) /\
    p2 = with_rasters p1 (map p1) (age_map p1) (segment p1) (seg_data p2)
           (mass p1) /\
    rd (seg_data p2) seg = Some (set_coll_count d (sz (coll_count d + 1))) /\
    (forall j, j <> seg -> rd (seg_data p2) j = rd (seg_data p1) j) /\
    getCollisionInfo p2 wx wy
    = Ok (p2, sz (coll_count d + 1),
          (inject_Z (sz (coll_count d + 1)) / inject_Z (sz (1 + area d)))%Q).
Proof.
  intros Hseg Hx Hy Hidx.
  destruct (getContinentAt_total p wx wy Hseg Hx Hy Hidx)
    as (p1 & seg & Hget & Hid & Hrd & Hp1 & Hseg1 & _).
  destruct (rd_Some (seg_data p1) seg Hid) as [d Hd].
  destruct (wr_Some (seg_data p1) seg
              (set_coll_count d (sz (coll_count d + 1))) Hid)
    as (sd2 & Hwr & Hlen2).
  set (p2 := with_rasters p1 (map p1) (age_map p1) (segment p1) sd2 (mass p1)).
  exists p1, seg, d, p2. split; [exact Hget|]. split; [exact Hd|].
  split; [unfold addCollision; rewrite Hget, Hd, Hwr; reflexivity|].
  split; [reflexivity|].
  assert (Hrd2 : rd (seg_data p2) seg
                 = Some (set_coll_count d (sz (coll_count d + 1))))
    by (eapply rd_wr_same; eauto).
  split; [exact Hrd2|].
  split; [intros j Hj; eapply rd_wr_other; eauto|].
  assert (Hgm1 : getMapIndex p1 wx wy = getMapIndex p wx wy)
    by (rewrite Hp1; apply getMapIndex_with_rasters).
  assert (Hgm2 : getMapIndex p2 wx wy = getMapIndex p wx wy)
    by (unfold p2; rewrite getMapIndex_with_rasters; exact Hgm1).
  assert (Hseg2 : segmentable p2).
  { unfold p2. apply segmentable_with_rasters;
      [exact Hseg1 | reflexivity | apply Hseg1]. }
  assert (Hdim : width p2 * height p2 = width p * height p)
    by (unfold p2; rewrite Hp1; reflexivity).
  destruct (getContinentAt_total p2 wx wy Hseg2 Hx Hy)
    as (p3 & seg3 & Hget3 & _ & _ & _ & _ & Hknown).
  { rewrite Hgm2, Hdim. exact Hidx. }
  destruct (Hknown seg) as [-> ->].
  { rewrite Hgm2. unfold p2. cbn [segment with_rasters].
    rewrite Hp1 in Hrd |- *. exact Hrd. }
  { unfold p2. cbn [seg_data with_rasters]. lia. }
  unfold getCollisionInfo. rewrite Hget3, Hrd2. reflexivity.
Qed.

End ContinentQueries.

Lemma E4_land_segmentable : segmentable E4_land.
Proof.
  split; [|split].
  - unfold plate_wf, fits_world, rasters_sized. simpl.
    repeat split; try lia; reflexivity.
  - reflexivity.
  - apply Forall_replicate. unfold SIZE_MAX. lia.
Qed.

Lemma createSegment_returns_witness :
  exists p' id,
    createSegment (H := example_driver) E4_land 3 3 = Some (p', id) /\
    id = 0 /\ rd (segment p') 27 = Some 0 /\
    rd (segment p') 0 = Some SIZE_MAX.
Proof.
  destruct (createSegment_returns (H := example_driver) E4_land 3 3)
    as (p' & id & He & Hid & Hrd & _ & _ & Hsd & _ & Hcells).
  - apply E4_land_segmentable.
  - apply E4_land_segmentable.
  - simpl. lia.
  - simpl. lia.
  - assert (Hid0 : id = 0).
    { destruct Hsd as [Hl | [-> _]]; [|reflexivity].
      rewrite Hl in Hid. simpl in Hid. lia. }
    exists p', id. split; [exact He|]. split; [exact Hid0|].
    split; [rewrite <- Hid0; exact Hrd|].
    destruct (Hcells 0) as [-> | (_ & _ & s & m & _ & _ & Hm & Hle)];
      [simpl; lia | reflexivity |].
    exfalso. vm_compute in Hm. injection Hm as <-.
    vm_compute in Hle. apply Hle. reflexivity.
Defined.

Lemma getContinentAt_never_throws_witness :
  exists p' seg,
    getContinentAt (H := example_driver) E4_land 3 3 = Ok (p', seg) /\
    0 <= seg < Z.of_nat (length (seg_data p')) /\
    rd (segment p') 27 = Some seg.
Proof.
  destruct (getContinentAt_never_throws (H := example_driver) E4_land 3 3)
    as (p' & seg & Hg & Hid & Hrd & _).
  - apply E4_land_segmentable.
  - lia.
  - lia.
  - vm_compute. reflexivity.
  - exists p', seg. split; [exact Hg|]. split; [exact Hid | exact Hrd].
Defined.

Lemma addCollision_counts_witness :
  exists p2 d,
    addCollision (H := example_driver) E4_land 3 3 = Ok (p2, area d) /\
    getCollisionInfo (H := example_driver) p2 3 3
    = Ok (p2, sz (coll_count d + 1),
          (inject_Z (sz (coll_count d + 1)) / inject_Z (sz (1 + area d)))%Q).
Proof.
  destruct (addCollision_counts (H := example_driver) E4_land 3 3)
    as (p1 & seg & d & p2 & _ & _ & Ha & _ & _ & _ & Hi).
  - apply E4_land_segmentable.
  - lia.
  - lia.
  - vm_compute. reflexivity.
  - exists p2, d. split; [exact Ha | exact Hi].
Defined.

(** ** Crust added by a collision *)

(** X22: [addCrustByCollision] with [z >= 0] on a plate that can receive
    crust, when it returns: the cell holds what it held plus [z] and belongs
    to the active continent, which [selectCollisionSegment] reports there; the
    mass has grown by [z] and is still the sum of the heights if it was
    before; the plate can receive crust again. *)
Theorem addCrustByCollision_effect (p p' : plate) (x y : Z) (z : Q)
    (t activeContinent : Z) :
  receiver_wf p -> booked p -> (0 <= z)%Q ->
  addCrustByCollision p x y z t activeContinent = Some p' ->
  receiver_wf p' /\ booked p' /\ (mass p' == mass p + z)%Q /\
  selectCollisionSegment p' x y = Some activeContinent /\
  exists c, getCrust p x y = Some c /\ getCrust p' x y = Some (c + z)%Q.
Proof.
  intros Hrw Hbk Hz Ha.
  destruct (addCrustByCollision_books _ _ _ _ _ _ _ Hrw Hbk Ha) as [Hrw' Hbk'].
  destruct (addCrustByCollision_adds _ _ _ _ _ _ _ Hrw Hz Ha) as [_ Hm].
  split; [exact Hrw'|]. split; [exact Hbk'|]. split; [exact Hm|].
  unfold addCrustByCollision in Ha.
  destruct (getCrust p x y) as [c|] eqn:Hc;
    cbn [mbind option_bind] in Ha; [|discriminate Ha].
  assert (Hc0 : (0 <= c)%Q).
  { unfold getCrust in Hc. destruct (getMapIndex p x y) as [[i ?] ?].
    destruct (i <? SIZE_MAX).
    - destruct Hrw as (_ & _ & _ & _ & _ & _ & Hnn).
      apply (rd_Forall _ _ _ _ Hc Hnn).
    - injection Hc as <-. apply Qle_refl. }
  destruct (setCrust p x y (c + z) t) as [p1|] eqn:Hs;
    cbn [mbind option_bind] in Ha; [|discriminate Ha].
  assert (Hg1 : getCrust p1 x y = Some (c + z)%Q).
  { destruct (setCrust_cases _ _ _ _ _ _ Hs)
      as (p0 & index & h & a & age' & map' & Hcase & Hidx & Hh & Hag & Hwa & Hwm & ->).
    unfold getCrust. rewrite getMapIndex_with_rasters.
    destruct (getMapIndex p0 x y) as [[i lx] ly]. simpl in Hidx. subst i. simpl.
    assert (Hlt : index < SIZE_MAX).
    { destruct Hcase as [[-> Hlt] | (_ & _ & Hlt)];
        [pose proof (sz_range (width p * height p))
        |pose proof (sz_range (width p0 * height p0))];
        unfold SIZE_MAX; lia. }
    destruct (Z.ltb_spec index SIZE_MAX); [|lia].
    rewrite (rd_wr_same _ _ _ _ Hwm). unfold clamp.
    assert (Hcl : Qltb (c + z) 0 = false) by (apply Qltb_ge; lra).
    rewrite Hcl. reflexivity. }
  destruct (getMapIndex p1 x y) as [[index lx] ly] eqn:Hgm.
  destruct (wr (segment p1) index activeContinent) as [seg'|] eqn:Hw;
    cbn [mbind option_bind] in Ha; [|discriminate Ha].
  destruct (rd (seg_data p1) activeContinent) as [d|];
    cbn [mbind option_bind] in Ha; [|discriminate Ha].
  destruct (wr (seg_data p1) activeContinent _) as [sd'|];
    cbn [mbind option_bind] in Ha; [|discriminate Ha].
  injection Ha as <-. split.
  - unfold selectCollisionSegment. rewrite getMapIndex_with_rasters, Hgm.
    cbn [segment with_rasters]. apply (rd_wr_same _ _ _ _ Hw).
  - exists c. split; [reflexivity|].
    unfold getCrust in *. rewrite getMapIndex_with_rasters, Hgm in *.
    exact Hg1.
Qed.

Lemma addCrustByCollision_effect_witness :
  exists p',
    addCrustByCollision (E4_B 2 4) 3 3 (5 # 2) 7 0 = Some p' /\
    selectCollisionSegment p' 3 3 = Some 0 /\
    getCrust p' 3 3 = Some (0 + (5 # 2))%Q /\ (mass p' == 0 + (5 # 2))%Q.
Proof.
  destruct (addCrustByCollision (E4_B 2 4) 3 3 (5 # 2) 7 0) as [p'|] eqn:Ha;
    [|vm_compute in Ha; discriminate Ha].
  exists p'. split; [reflexivity|].
  destruct (addCrustByCollision_effect (E4_B 2 4) p' 3 3 (5 # 2) 7 0)
    as (_ & _ & Hm & Hsel & c & Hc & Hg).
  - unfold receiver_wf, fits_world. simpl.
    repeat split; try lia; try reflexivity; try discriminate.
    let t := eval vm_compute in (raster_of 4 4 (fun _ _ : Z => 0%Q)) in
    change (raster_of 4 4 (fun _ _ : Z => 0%Q)) with t.
    repeat (apply List.Forall_cons; [apply Qle_refl|]). apply List.Forall_nil.
  - vm_compute. reflexivity.
  - discriminate.
  - exact Ha.
  - split; [exact Hsel|].
    assert (Hc' : Some c = getCrust (E4_B 2 4) 3 3) by (symmetry; exact Hc).
    vm_compute in Hc'. injection Hc' as ->.
    split; [exact Hg | exact Hm].
Defined.

(** ** Reading outside the plate *)

(** X23: at a world point that does not lie on the plate, [getCrust] and
    [getCrustTimestamp] return 0 without reading a raster, on every plate that
    fits in its world with its origin in the world. *)
Theorem getCrust_outside (p : plate) (x y : Z) :
  receiver_wf p ->
  sz (width p * height p) <= fst (fst (getMapIndex p x y)) ->
  getCrust p x y = Some 0%Q /\ getCrustTimestamp p x y = Some 0.
Proof.
  intros Hrw Hout. pose proof (getMapIndex_outside p x y Hrw Hout) as Hmax.
  unfold getCrust, getCrustTimestamp.
  destruct (getMapIndex p x y) as [[index lx] ly]. cbn [fst] in Hmax.
  subst index. rewrite Z.ltb_irrefl. split; reflexivity.
Qed.

Lemma getCrust_outside_witness :
  getCrust (E4_B 3 2) 0 0 = Some 0%Q /\ getCrustTimestamp (E4_B 3 2) 0 0 = Some 0.
Proof.
  apply (getCrust_outside (E4_B 3 2) 0 0 E4_B_receiver).
  vm_compute. discriminate.
Defined.
